(** * clink line editor: key-chord binder and line-editor driver

    A shallow embedding of [lib/src/binder.cpp] and
    [lib/src/line_editor_impl.cpp], and the properties of the specification
    that concern them.

    The file has the definitions first: the chord translator ([Chord]), the
    binder and the shape of its node graph ([Binder]), the bind resolver
    ([Resolver], [BinderResolve]), the line editor ([LineEditor]) and an
    instance to run them on ([Demo]).  The properties follow: [ChordFacts],
    [BinderFacts], [LineEditorFacts], and [Checks] on the instance; further
    properties of the translator and of the editor are in [ChordMore] and
    [LineEditorMore], with [ChecksMore] on the instance.

    Conventions.
    - A [char] is a [Z] holding the byte's unsigned value (0..255).  The
      source compiles with a signed [char]; the only place where the sign is
      observed is the test [*c++ < 0] of [binder::bind], written here as
      [128 <=? c].
    - A C string is the list of its bytes without the terminating NUL; the
      terminator is what a read finds once the list is exhausted.
    - A [node*] is an [option node_ref]; [None] is [nullptr].
    - The fields [offset] and [length] of a word are 16 bits wide, as the
      specification has them: what is stored in them is taken modulo 2^16.
    - In the binder, an operation whose behaviour the C++ standard leaves
      undefined (a store outside an array, a read of an indeterminate value,
      a null pointer followed) or that would not return yields [None].
    - The headers of the two files are not at hand.  Their constants are
      parameters ([Binder.config], [LineEditor.collaborators]), as are the
      classes the editor only calls: the terminal, the backends, the
      tokeniser, the match pipeline.  The bind resolver and the line buffer
      are modelled from the specification, where that is said. *)

From Stdlib Require Import ZArith List Bool Lia String Ascii.
From stdpp Require Import base option list.
Import ListNotations.

Local Open Scope Z_scope.

(** ** Characters and C strings *)

Definition char := Z.

Definition char_of_ascii (a : ascii) : char := Z.of_N (N_of_ascii a).

(** The bytes of a string literal, terminator excluded. *)
Definition c_str (s : string) : list char :=
  List.map char_of_ascii (list_ascii_of_string s).

(** The C string held by an array of bytes: the bytes before the first
    NUL. *)
Fixpoint c_string (a : list char) : list char :=
  match a with
  | [] => []
  | c :: a' => if c =? 0 then [] else c :: c_string a'
  end.

Definition ch_backslash : char := 92.
Definition ch_caret : char := 94.
Definition ch_dash : char := 45.

(** [strchr(s, c) != nullptr].  The terminator is part of the string for
    [strchr], so a NUL is always found. *)
Definition strchr_found (s : list char) (c : char) : bool :=
  (c =? 0) || existsb (Z.eqb c) s.

(** [strchr(s, c)] as an offset into [s]; the terminator sits at offset
    [length s]. *)
Fixpoint strchr (s : list char) (c : char) : option nat :=
  match s with
  | [] => if c =? 0 then Some 0%nat else None
  | x :: s' => if x =? c then Some 0%nat else option_map S (strchr s' c)
  end.

(** ** Chord translator ([translate_chord], binder.cpp:11-68) *)

Module Chord.

(** A store [out[i] = v] performed on the output array, in program order. *)
Definition store := (Z * char)%type.

(** The result of a call: the returned [bool] and the stores it performed. *)
Record outcome := { ok : bool; stores : list store }.

Section Translate.
(** The template parameter: the size of the output array. *)
Variable SIZE : Z.

(** The escape table of the [switch]'s last six cases. *)
Definition escape (c : char) : char :=
  if c =? 101 then 27            (* 'e' -> '\x1b' *)
  else if c =? 116 then 9        (* 't' -> '\t' *)
  else if c =? 110 then 10       (* 'n' -> '\n' *)
  else if c =? 114 then 13       (* 'r' -> '\r' *)
  else if c =? 48 then 0         (* '0' -> '\0' *)
  else c.

(** The [for] loop, entered at its test with counter [i], [chord] the rest
    of the text and [out] the stores so far.  The result is [(false, _, _)]
    for [return false], and otherwise the value of [i] and the stores when
    the loop is left.

    In [case '\0'] the [continue] steps the pointer past the terminator;
    the test [i < SIZE - 1] then fails before that position is read, so the
    remaining text is immaterial and [[]] stands for it. *)
Fixpoint translate_loop (i : Z) (chord : list char) (out : list store)
    {struct chord} : bool * Z * list store :=
  if negb (i <? SIZE - 1) then (true, i, out) else
  match chord with
  | [] => (true, i, out)
  | c :: chord1 =>
    if negb (c =? ch_backslash) && negb (c =? ch_caret) then
      translate_loop (i + 1) chord1 (out ++ [(i, c)])
    else if c =? ch_caret then
      translate_loop (i + 1) chord1 (out ++ [(i, Z.land c 31)])
    else
      (* ++chord; switch ( *chord) *)
      match chord1 with
      | [] =>
          (* case '\0': i = SIZE; continue; *)
          translate_loop (SIZE + 1) chord1 out
      | d :: chord2 =>
        if d =? 77 then                               (* case 'M' *)
          match chord2 with
          | e :: chord3 =>
              if negb (e =? ch_dash) then (false, i, out)
              else (* ++chord; out[i] = '\x1b'; continue; *)
                translate_loop (i + 1) chord3 (out ++ [(i, 27)])
          | [] => (false, i, out)
          end
        else if d =? 67 then                          (* case 'C' *)
          match chord2 with
          | e :: chord3 =>
              if negb (e =? ch_dash) then (false, i, out)
              else (* ++chord; out[i] = *chord & 0x1f; continue; *)
                translate_loop (i + 1) chord3 (out ++ [(i, Z.land e 31)])
          | [] => (false, i, out)
          end
        else
          translate_loop (i + 1) chord2 (out ++ [(i, escape d)])
      end
  end.

Definition translate_chord (chord : list char) : outcome :=
  match translate_loop 0 chord [] with
  | (true, i, out) => {| ok := true; stores := out ++ [(i, 0)] |}
  | (false, _, out) => {| ok := false; stores := out |}
  end.

(** A store is inside the array [char out[SIZE]]. *)
Definition in_bounds (s : store) : bool := (0 <=? fst s) && (fst s <? SIZE).

(** The array after the stores, from an array of indeterminate values
    ([None]).  Only meaningful when every store is [in_bounds]. *)
Definition out_array (ss : list store) : list (option char) :=
  fold_left (fun arr (s : store) => <[Z.to_nat (fst s) := Some (snd s)]> arr)
            ss (replicate (Z.to_nat SIZE) None).
End Translate.

(** Reading an array as a C string: the bytes before the first NUL.  [None]
    when the read meets an indeterminate value or leaves the array. *)
Fixpoint c_string_of (arr : list (option char)) : option (list char) :=
  match arr with
  | [] => None
  | None :: _ => None
  | Some c :: arr' =>
      if c =? 0 then Some [] else option_map (cons c) (c_string_of arr')
  end.

(** [translate(chord_text) -> bytes | error] of the specification, at the
    array size 64 that [binder::bind] uses: the bytes [bind] reads back from
    [translated].
    - [Some (Some bytes)]: [translate_chord] returned [true];
    - [Some None]: it returned [false];
    - [None]: it stored outside the array. *)
Definition translate (chord : list char) : option (option (list char)) :=
  let r := translate_chord 64 chord in
  if negb (forallb (in_bounds 64) (stores r)) then None
  else if ok r then option_map Some (c_string_of (out_array 64 (stores r)))
  else Some None.

(** A plain byte of a chord text is neither a backslash nor a caret. *)
Definition plain (c : char) : Prop := c <> ch_backslash /\ c <> ch_caret.

(** The stores [out[i] = s0], [out[i + 1] = s1], ... of the bytes of [s]. *)
Fixpoint indexed (i : Z) (s : list char) : list store :=
  match s with
  | [] => []
  | c :: s' => (i, c) :: indexed (i + 1) s'
  end.

(** A text with a [\M] or a [\C] that no dash follows. *)
Definition malformed (chord : list char) : Prop :=
  exists pre d rest,
    chord = pre ++ ch_backslash :: d :: rest /\ (d = 77 \/ d = 67) /\
    head rest <> Some ch_dash.

(** A byte of the ASCII range: one for which the test [*c < 0] of
    [binder::bind] fails. *)
Definition ascii_byte (c : char) : Prop := c < 128.

(** The three ways a call of [translate_chord] at size 64 ends: it returns
    [false]; it returns [true] with the bytes it stored and their terminator
    inside the array; it stores the terminator outside the array. *)
Inductive translation (chord : list char) : Prop :=
  | translation_false :
      malformed chord -> translate chord = Some None -> translation chord
  | translation_true (bytes : list char) :
      (List.length bytes <= 63)%nat ->
      (Forall ascii_byte chord -> Forall ascii_byte bytes) ->
      translate_chord 64 chord =
        {| ok := true;
           stores := indexed 0 bytes ++ [(Z.of_nat (List.length bytes), 0)] |} ->
      translate chord = Some (Some (c_string bytes)) -> translation chord
  | translation_overrun :
      last chord = Some ch_backslash -> translate chord = None ->
      translation chord.

End Chord.

(** ** Binder ([binder], binder.cpp:70-215) *)

Module Binder.

(** The value of [node::usage].  [binder.h] is not part of the sources at
    hand; the code zero-initialises a fresh node ([node new_child = {}]) and
    tests [parent->usage] for truth, so the state with value zero is the
    specification's [unused]. *)
Inductive node_use := node_use_none | node_use_bound | node_use_parent.

Definition node_use_eqb (a b : node_use) : bool :=
  match a, b with
  | node_use_none, node_use_none
  | node_use_bound, node_use_bound
  | node_use_parent, node_use_parent => true
  | _, _ => false
  end.

(** [struct node].  The fields are bit-fields of the header; they are taken
    wide enough for the values the code stores in them: an ASCII key, an
    arena index or [sentinal], a binding id 0..255, a backend index. *)
Record node := {
  key : char;
  sibling : nat;
  usage : node_use;
  id_or_child : nat;
  backend : nat
}.

(** [node new_child = {}]. *)
Definition zero_node : node :=
  {| key := 0; sibling := 0; usage := node_use_none;
     id_or_child := 0; backend := 0 |}.

(** An [editor_backend*], by the identity of the object it points to. *)
Definition backend_ptr := nat.

(** The members of [binder].  [m_nodes] holds the whole array, allocated or
    not; [m_backends] holds the elements pushed so far. *)
Record binder := {
  m_root : node;
  m_nodes : list node;
  m_next_node : nat;
  m_backends : list backend_ptr
}.

(** What a non-null [node*] points to: [&m_root] or [m_nodes + i]. *)
Inductive node_ref := root_ref | arena_ref (i : nat).

#[global] Instance node_ref_eq_dec : EqDecision node_ref.
Proof. solve_decision. Defined.

(** The constants of [binder.h]: [sentinal], [sizeof_array(m_nodes)] and the
    capacity of the fixed array [m_backends]. *)
Class config := {
  sentinal : nat;
  nodes_size : nat;
  backends_capacity : nat
}.

(** [binder::binder()]: the root is zeroed and nothing is allocated; the
    array [m_nodes] is left as it is found ([garbage]). *)
Definition binder_init `{config} (garbage : list node) : binder :=
  {| m_root := zero_node; m_nodes := garbage; m_next_node := 0;
     m_backends := [] |}.

Section Operations.
Context `{config}.

(** [*r] as an rvalue; [None] outside [m_nodes]. *)
Definition load (b : binder) (r : node_ref) : option node :=
  match r with
  | root_ref => Some (m_root b)
  | arena_ref i => m_nodes b !! i
  end.

(** [*r = n]; [None] outside [m_nodes]. *)
Definition store (b : binder) (r : node_ref) (n : node) : option binder :=
  match r with
  | root_ref =>
      Some {| m_root := n; m_nodes := m_nodes b;
              m_next_node := m_next_node b; m_backends := m_backends b |}
  | arena_ref i =>
      if (i <? length (m_nodes b))%nat then
        Some {| m_root := m_root b; m_nodes := <[i := n]> (m_nodes b);
                m_next_node := m_next_node b; m_backends := m_backends b |}
      else None
  end.

(** [get_root] *)
Definition get_root : option node_ref := Some root_ref.

(** [get_node]: the arena index of the node pointed to, or [nullptr]. *)
Definition get_node (index : nat) : option nat :=
  if (index <? sentinal)%nat then Some index else None.

(** [alloc_node] *)
Definition alloc_node (b : binder) : binder * nat :=
  if (m_next_node b <? nodes_size)%nat then
    ({| m_root := m_root b; m_nodes := m_nodes b;
        m_next_node := S (m_next_node b); m_backends := m_backends b |},
     m_next_node b)
  else (b, sentinal).

(** [get_backend]: [m_backends[index]] is null out of range. *)
Definition get_backend (b : binder) (index : nat) : option backend_ptr :=
  m_backends b !! index.

(** The index of the first element of [l] equal to [x], from [i] on. *)
Fixpoint index_of (x : backend_ptr) (l : list backend_ptr) (i : nat)
    : option nat :=
  match l with
  | [] => None
  | y :: l' => if (y =? x)%nat then Some i else index_of x l' (S i)
  end.

(** [add_backend] *)
Definition add_backend (b : binder) (backend : backend_ptr) : binder * Z :=
  match index_of backend (m_backends b) 0 with
  | Some i => (b, Z.of_nat i)
  | None =>
      if (length (m_backends b) <? backends_capacity)%nat then
        ({| m_root := m_root b; m_nodes := m_nodes b;
            m_next_node := m_next_node b;
            m_backends := m_backends b ++ [backend] |},
         Z.of_nat (length (m_backends b)))
      else (b, -1)
  end.

(** The loop of [find_child], entered at its test with [child].  Every
    node of the chain has an index below [sentinal], so a walk that is not
    over after [S sentinal] nodes has met one of them twice and never
    ends: [fuel] runs out exactly when the loop would not return. *)
Fixpoint find_sibling (fuel : nat) (b : binder) (child : option nat)
    (k : char) : option (option nat) :=
  match child with
  | None => Some None
  | Some i =>
      match fuel with
      | O => None
      | S fuel' =>
          n ← m_nodes b !! i;
          if key n =? k then Some (Some i)
          else find_sibling fuel' b (get_node (sibling n)) k
      end
  end.

(** [find_child]; the child is returned by its arena index. *)
Definition find_child (b : binder) (parent : node_ref) (k : char)
    : option (option nat) :=
  p ← load b parent;
  let child :=
    if node_use_eqb (usage p) node_use_parent
    then get_node (id_or_child p) else None in
  find_sibling (S sentinal) b child k.

(** [add_child] *)
Definition add_child (b : binder) (parent : node_ref) (k : char)
    : option (binder * option nat) :=
  let '(b1, index) := alloc_node b in
  if (index =? sentinal)%nat then Some (b1, None) else
  p ← load b1 parent;
  let new_child :=
    {| key := k;
       sibling := if node_use_eqb (usage p) node_use_parent
                  then id_or_child p else sentinal;
       usage := node_use_none; id_or_child := 0; backend := 0 |} in
  child ← get_node index;
  b2 ← store b1 (arena_ref child) new_child;
  p2 ← load b2 parent;
  b3 ← store b2 parent
         {| key := key p2; sibling := sibling p2; usage := node_use_parent;
            id_or_child := index; backend := backend p2 |};
  Some (b3, Some child).

(** [insert_child] *)
Definition insert_child (b : binder) (parent : node_ref) (k : char)
    : option (binder * option nat) :=
  child ← find_child b parent k;
  match child with
  | Some c => Some (b, Some c)
  | None => add_child b parent k
  end.

(** The loop of [bind] that adds the chord of keys into the node graph. *)
Fixpoint bind_loop (b : binder) (parent : option node_ref)
    (chord : list char) : option (binder * option node_ref) :=
  match chord, parent with
  | k :: chord', Some p =>
      '(b', child) ← insert_child b p k;
      bind_loop b' (arena_ref <$> child) chord'
  | _, _ => Some (b, parent)
  end.

(** [bind]: the returned [bool] and the binder afterwards. *)
Definition bind (b : binder) (chord : list char) (backend : backend_ptr)
    (id : nat) : option (bool * binder) :=
  (* Validate input *)
  if existsb (fun c => 128 <=? c) chord then Some (false, b) else
  (* Translate from ASCII representation to actual keys. *)
  r ← Chord.translate chord;
  match r with
  | None => Some (false, b)
  | Some translated =>
      (* Store the backend pointer *)
      let '(b1, index) := add_backend b backend in
      if index <? 0 then Some (false, b1) else
      (* Add the chord of keys into the node graph. *)
      '(b2, parent) ← bind_loop b1 get_root translated;
      match parent with
      | None => Some (false, b2)
      | Some p =>
          n ← load b2 p;
          if negb (node_use_eqb (usage n) node_use_none)
          then Some (false, b2)
          else
            b3 ← store b2 p
                   {| key := key n; sibling := sibling n;
                      usage := node_use_bound; id_or_child := id;
                      backend := Z.to_nat index |};
            Some (true, b3)
      end
  end.
End Operations.

(** *** The shape of the node graph *)

Section Shape.
Context `{config}.

(** Nodes in the order of their allocation, the root first. *)
Definition ord (r : node_ref) : nat :=
  match r with root_ref => 0%nat | arena_ref i => S i end.

(** [r] points to the root or to an allocated node. *)
Definition allocated (b : binder) (r : node_ref) : Prop :=
  (ord r <= m_next_node b)%nat.

(** The invariant of the node graph, for [par] the parent of every allocated
    node: the allocated nodes are the first [m_next_node] of the array; the
    first child of a parent is allocated and is a child of it; a node is
    allocated after its parent, and its sibling link ends the chain or goes
    to a child of the same parent allocated before it. *)
Record wf_par (par : nat -> node_ref) (b : binder) : Prop := {
  wf_size : Datatypes.length (m_nodes b) = nodes_size;
  wf_next : (m_next_node b <= nodes_size)%nat;
  wf_parent : forall p n,
    allocated b p -> load b p = Some n -> usage n = node_use_parent ->
    (id_or_child n < m_next_node b)%nat /\ par (id_or_child n) = p;
  wf_node : forall i x,
    (i < m_next_node b)%nat -> m_nodes b !! i = Some x ->
    (ord (par i) <= i)%nat /\
    (sibling x = sentinal \/
     ((sibling x < i)%nat /\ par (sibling x) = par i))
}.

Definition wf (b : binder) : Prop := exists par, wf_par par b.

(** Every node below [n] has a sibling link that ends the chain or goes to a
    node allocated before it. *)
Definition chained (n : nat) (b : binder) : Prop :=
  forall i x, (i < n)%nat -> m_nodes b !! i = Some x ->
              sibling x = sentinal \/ (sibling x < i)%nat.

(** The nodes below [n] of [b] are nodes of [b'] with the same key and the
    same sibling link. *)
Definition same_links (n : nat) (b b' : binder) : Prop :=
  forall i, (i < n)%nat ->
    exists x x', m_nodes b !! i = Some x /\ m_nodes b' !! i = Some x' /\
                 key x' = key x /\ sibling x' = sibling x.

(** The parents once [p] has got the child [idx]. *)
Definition par_add (par : nat -> node_ref) (idx : nat) (p : node_ref)
    : nat -> node_ref :=
  fun j => if (j =? idx)%nat then p else par j.

(** What is left alone between [b] and [b'] by the insertion of a chord
    below [p]: the backends, the keys and sibling links of the allocated
    nodes, and the nodes allocated before [p]. *)
Definition grown (b b' : binder) (p : node_ref) : Prop :=
  (m_next_node b <= m_next_node b')%nat /\
  m_backends b' = m_backends b /\
  same_links (m_next_node b) b b' /\
  forall r, allocated b r -> (ord r < ord p)%nat -> load b' r = load b r.

(** Binders with the same node graph. *)
Definition same_graph (b b' : binder) : Prop :=
  m_root b' = m_root b /\ m_nodes b' = m_nodes b /\
  m_next_node b' = m_next_node b.

(** The node index a walking resolver holds when it stands at [p]. *)
Definition index_at (p : node_ref) : Z :=
  match p with root_ref => (-1)%Z | arena_ref i => Z.of_nat i end.

(** The node [f] is reached from [p] along [keys], each step by
    [find_child]. *)
Fixpoint path (b : binder) (p : node_ref) (keys : list char) (f : node_ref)
    : Prop :=
  match keys with
  | [] => p = f
  | k :: keys' =>
      exists c, find_child b p k = Some (Some c) /\
                path b (arena_ref c) keys' f
  end.

(** The binders a program can build: a constructed binder, and what [bind]
    leaves, whatever it returns. *)
Inductive reachable : binder -> Prop :=
| reachable_init garbage :
    Datatypes.length garbage = nodes_size ->
    reachable (binder_init garbage)
| reachable_bind b chord backend id r b' :
    reachable b ->
    bind b chord backend id = Some (r, b') ->
    reachable b'.
(** The chord with the keys [keys] is bound to [backend] and [id]: the keys
    lead from the root to a bound node that holds the id and the index of
    the backend. *)
Definition bound_to (b : binder) (keys : list char) (be : backend_ptr)
    (id : nat) : Prop :=
  exists f n,
    path b root_ref keys f /\ load b f = Some n /\
    usage n = node_use_bound /\ id_or_child n = id /\
    m_backends b !! backend n = Some be.

(** The key of every allocated node is in the ASCII range. *)
Definition ascii_keys (b : binder) : Prop :=
  forall i x, (i < m_next_node b)%nat -> m_nodes b !! i = Some x ->
              (key x < 128)%Z.

End Shape.

End Binder.

(** ** Bind resolver *)

Module Resolver.

(** Modelled from the spec: [bind_resolver.h] is not part of the sources at
    hand.  The state is the one of the specification's data model,
    [{ node_index: int | none, resolved: bool, backend: Backend?, id: int }],
    with [-1] for no node index, as [binder::update_resolver] tests
    [node_index >= 0]. *)
Record bind_resolver := {
  m_node_index : Z;
  m_resolved : bool;
  m_backend : option Binder.backend_ptr;
  m_id : Z
}.

Definition reset : bind_resolver :=
  {| m_node_index := -1; m_resolved := false; m_backend := None;
     m_id := -1 |}.

Definition is_resolved (r : bind_resolver) : bool := m_resolved r.
Definition get_node_index (r : bind_resolver) : Z := m_node_index r.
Definition get_backend (r : bind_resolver) := m_backend r.
Definition get_id (r : bind_resolver) : Z := m_id r.

Definition set_node_index (r : bind_resolver) (index : Z) : bind_resolver :=
  {| m_node_index := index; m_resolved := m_resolved r;
     m_backend := m_backend r; m_id := m_id r |}.

Definition set_id (r : bind_resolver) (id : Z) : bind_resolver :=
  {| m_node_index := m_node_index r; m_resolved := m_resolved r;
     m_backend := m_backend r; m_id := id |}.

(** On resolve the resolver latches [(backend, id)]. *)
Definition resolve (r : bind_resolver) (backend : option Binder.backend_ptr)
    (id : Z) : bind_resolver :=
  {| m_node_index := m_node_index r; m_resolved := true;
     m_backend := backend; m_id := id |}.

End Resolver.

Module BinderResolve.
Import Binder Resolver.

Section UpdateResolver.
Context `{config}.

(** [binder::update_resolver] *)
Definition update_resolver (b : binder) (k : char) (resolver : bind_resolver)
    : option bind_resolver :=
  let resolver := if is_resolved resolver then reset else resolver in
  let node_index := get_node_index resolver in
  current ← (if 0 <=? node_index
             then arena_ref <$> get_node (Z.to_nat node_index)
             else get_root);
  next ← find_child b current k;
  match next with
  | Some i =>
      n ← m_nodes b !! i;
      (* More tree to follow? *)
      if node_use_eqb (usage n) node_use_parent then
        Some (set_node_index resolver (Z.of_nat i))
      (* Key binding found? *)
      else if node_use_eqb (usage n) node_use_bound then
        Some (resolve resolver (Binder.get_backend b (backend n))
                      (Z.of_nat (id_or_child n)))
      else Some resolver
  | None =>
      (* Unbound, or something went wrong... *)
      Some (resolve resolver None (-1))
  end.

(** A resolver advanced through [keys], one [update_resolver] per byte. *)
Fixpoint advance (b : binder) (keys : list char) (resolver : bind_resolver)
    : option bind_resolver :=
  match keys with
  | [] => Some resolver
  | k :: keys' => r ← update_resolver b k resolver; advance b keys' r
  end.
(** A resolver that [update_resolver] can go on from: it is resolved, or its
    node index is the one of the root or of an allocated node. *)
Definition at_node (b : binder) (r : bind_resolver) : Prop :=
  is_resolved r = true \/
  exists p, allocated b p /\ get_node_index r = index_at p.

End UpdateResolver.

End BinderResolve.

(** ** Line editor ([line_editor_impl], line_editor_impl.cpp) *)

Module LineEditor.
Import Binder Resolver BinderResolve.

(** Modelled from the spec: the [Buffer] interface ([line_buffer.h] and its
    implementation are not part of the sources at hand).  The text without
    its terminator, and the cursor; [insert] puts the bytes at the cursor and
    moves the cursor past them, [remove] deletes the bytes of [from, to),
    [set_cursor] moves the cursor. *)
Record line_buffer := { text : list char; cursor : nat }.

Definition buffer_insert (b : line_buffer) (s : list char) : line_buffer :=
  {| text := take (cursor b) (text b) ++ s ++ drop (cursor b) (text b);
     cursor := (cursor b + length s)%nat |}.

Definition buffer_remove (b : line_buffer) (from to : nat) : line_buffer :=
  {| text := take from (text b) ++ drop to (text b); cursor := cursor b |}.

Definition buffer_set_cursor (b : line_buffer) (pos : nat) : line_buffer :=
  {| text := text b; cursor := pos |}.

(** [buf[i]] on the C string of the buffer: the terminator at its end (and,
    the tokens lying inside the text, nowhere else is read). *)
Definition char_at (s : list char) (i : nat) : char := nth i s 0.

(** Modelled from the spec: [struct word { offset, length, quoted, delim }]
    of [line_state.h], which is not part of the sources at hand.  The
    specification has [offset] and [length] as 16-bit unsigned fields, and
    [collect_words] casts the offset it stores to [short]: the two fields
    hold values below 2^16, and a store into one of them keeps the low 16
    bits of the value stored ([u16], [u16z]). *)
Record word := {
  offset : nat;
  length : nat;
  quoted : bool;
  delim : char
}.

(** What a 16-bit unsigned field holds after the integer [z] has been stored
    in it. *)
Definition u16z (z : Z) : nat := Z.to_nat (z mod 2 ^ 16).
Definition u16 (n : nat) : nat := u16z (Z.of_nat n).

(** [line_state] *)
Record line_state := {
  ls_line : list char;
  ls_cursor : nat;
  ls_command_offset : nat;
  ls_words : list word
}.

(** [editor_backend::context] without the terminal. *)
Record context := {
  ctx_buffer : line_buffer;
  ctx_line : line_state;
  ctx_matches : list (list char)
}.

(** [line_editor::desc] without the terminal. *)
Record desc := {
  prompt : list char;
  command_delims : option (list char);
  word_delims : list char;
  partial_delims : list char;
  quote_pair : list char;
  auto_quote_chars : list char
}.

(** A token of [str_tokeniser::next]: where it starts in the line, its length
    and the delimiter that ended it. *)
Record str_token := { tok_start : nat; tok_length : nat; tok_delim : char }.

(** The calls made on the match pipeline, the notification that follows
    them and the calls by which [accept_match] changes the buffer, recorded
    in the order they happen. *)
Inductive event :=
| ev_remove (from to : nat)
| ev_set_cursor (pos : nat)
| ev_insert (s : list char)
| ev_reset
| ev_generate (line : line_state)
| ev_fill_info
| ev_select (needle : list char)
| ev_sort
| ev_matches_changed.

(** What the editor is compiled and linked against, and is not part of the
    sources at hand: the constants of its headers, the terminal, the
    backends, the tokeniser, the match pipeline and the path helpers.  The
    state of the terminal and of the backends is the [world]. *)
Class collaborators := {
  (* line_editor_impl.h *)
  flag_init : Z;
  flag_editing : Z;
  flag_eof : Z;
  keys_size : nat;              (* sizeof_array(m_keys) *)
  words_capacity : nat;         (* capacity of the fixed array m_words *)
  default_backend : backend_ptr;  (* &m_backend *)
  (* editor_backend::result *)
  result_next : Z;
  result_more_input : Z;
  result_redraw : Z;
  result_accept_match : Z;
  result_done : Z;
  result_eof : Z;
  (* terminal *)
  world : Type;
  terminal_begin : world -> world;
  terminal_end : world -> world;
  terminal_select : world -> world;
  terminal_read : world -> Z * world;
  (* rl_buffer *)
  buffer_begin_line : line_buffer -> line_buffer;
  buffer_end_line : line_buffer -> line_buffer;
  (* editor_backend *)
  bind_input : backend_ptr -> list (list char * nat);
  on_begin_line : backend_ptr -> list char -> context -> world ->
                  line_buffer * world;
  on_end_line : backend_ptr -> world -> world;
  on_matches_changed : backend_ptr -> context -> world -> line_buffer * world;
  on_input : backend_ptr -> list char -> Z -> context -> world ->
             Z * line_buffer * world;
  (* str_tokeniser, with its quote pair: the tokens of [length] bytes of the
     line from [start] on *)
  tokenise : list char -> list char -> list char -> nat -> nat ->
             list str_token;
  (* match_pipeline *)
  pipeline_generate : line_state -> list nat -> list (list char);
  pipeline_select : list char -> list (list char) -> list (list char);
  pipeline_sort : list (list char) -> list (list char);
  (* os::get_path_type(..) != os::path_type_invalid, path::clean *)
  is_path : list char -> bool;
  path_clean : list char -> list char
}.

(** The members of [line_editor_impl], the [world] it acts on and the
    [m_trace] of pipeline calls. *)
Record line_editor_impl `{collaborators} := {
  m_binder : binder;
  m_bind_resolver : bind_resolver;
  m_buffer : line_buffer;
  m_backends : list backend_ptr;
  m_generators : list nat;
  m_words : list word;
  m_matches : list (list char);
  m_keys : list char;          (* m_keys[0 .. m_keys_size) *)
  m_prev_key : Z;
  m_command_offset : nat;
  m_flags : Z;
  m_world : world;
  m_trace : list event
}.

Section Setters.
Context `{collaborators}.

Definition with_binder (e : line_editor_impl) (x : binder) :=
  {| m_binder := x; m_bind_resolver := m_bind_resolver e;
     m_buffer := m_buffer e; m_backends := m_backends e;
     m_generators := m_generators e; m_words := m_words e;
     m_matches := m_matches e; m_keys := m_keys e;
     m_prev_key := m_prev_key e; m_command_offset := m_command_offset e;
     m_flags := m_flags e; m_world := m_world e; m_trace := m_trace e |}.

Definition with_resolver (e : line_editor_impl) (x : bind_resolver) :=
  {| m_binder := m_binder e; m_bind_resolver := x;
     m_buffer := m_buffer e; m_backends := m_backends e;
     m_generators := m_generators e; m_words := m_words e;
     m_matches := m_matches e; m_keys := m_keys e;
     m_prev_key := m_prev_key e; m_command_offset := m_command_offset e;
     m_flags := m_flags e; m_world := m_world e; m_trace := m_trace e |}.

Definition with_buffer (e : line_editor_impl) (x : line_buffer) :=
  {| m_binder := m_binder e; m_bind_resolver := m_bind_resolver e;
     m_buffer := x; m_backends := m_backends e;
     m_generators := m_generators e; m_words := m_words e;
     m_matches := m_matches e; m_keys := m_keys e;
     m_prev_key := m_prev_key e; m_command_offset := m_command_offset e;
     m_flags := m_flags e; m_world := m_world e; m_trace := m_trace e |}.

Definition with_words (e : line_editor_impl) (x : list word) :=
  {| m_binder := m_binder e; m_bind_resolver := m_bind_resolver e;
     m_buffer := m_buffer e; m_backends := m_backends e;
     m_generators := m_generators e; m_words := x;
     m_matches := m_matches e; m_keys := m_keys e;
     m_prev_key := m_prev_key e; m_command_offset := m_command_offset e;
     m_flags := m_flags e; m_world := m_world e; m_trace := m_trace e |}.

Definition with_matches (e : line_editor_impl) (x : list (list char)) :=
  {| m_binder := m_binder e; m_bind_resolver := m_bind_resolver e;
     m_buffer := m_buffer e; m_backends := m_backends e;
     m_generators := m_generators e; m_words := m_words e;
     m_matches := x; m_keys := m_keys e;
     m_prev_key := m_prev_key e; m_command_offset := m_command_offset e;
     m_flags := m_flags e; m_world := m_world e; m_trace := m_trace e |}.

Definition with_keys (e : line_editor_impl) (x : list char) :=
  {| m_binder := m_binder e; m_bind_resolver := m_bind_resolver e;
     m_buffer := m_buffer e; m_backends := m_backends e;
     m_generators := m_generators e; m_words := m_words e;
     m_matches := m_matches e; m_keys := x;
     m_prev_key := m_prev_key e; m_command_offset := m_command_offset e;
     m_flags := m_flags e; m_world := m_world e; m_trace := m_trace e |}.

Definition with_prev_key (e : line_editor_impl) (x : Z) :=
  {| m_binder := m_binder e; m_bind_resolver := m_bind_resolver e;
     m_buffer := m_buffer e; m_backends := m_backends e;
     m_generators := m_generators e; m_words := m_words e;
     m_matches := m_matches e; m_keys := m_keys e;
     m_prev_key := x; m_command_offset := m_command_offset e;
     m_flags := m_flags e; m_world := m_world e; m_trace := m_trace e |}.

Definition with_command_offset (e : line_editor_impl) (x : nat) :=
  {| m_binder := m_binder e; m_bind_resolver := m_bind_resolver e;
     m_buffer := m_buffer e; m_backends := m_backends e;
     m_generators := m_generators e; m_words := m_words e;
     m_matches := m_matches e; m_keys := m_keys e;
     m_prev_key := m_prev_key e; m_command_offset := x;
     m_flags := m_flags e; m_world := m_world e; m_trace := m_trace e |}.

Definition with_flags (e : line_editor_impl) (x : Z) :=
  {| m_binder := m_binder e; m_bind_resolver := m_bind_resolver e;
     m_buffer := m_buffer e; m_backends := m_backends e;
     m_generators := m_generators e; m_words := m_words e;
     m_matches := m_matches e; m_keys := m_keys e;
     m_prev_key := m_prev_key e; m_command_offset := m_command_offset e;
     m_flags := x; m_world := m_world e; m_trace := m_trace e |}.

Definition with_world (e : line_editor_impl) (x : world) :=
  {| m_binder := m_binder e; m_bind_resolver := m_bind_resolver e;
     m_buffer := m_buffer e; m_backends := m_backends e;
     m_generators := m_generators e; m_words := m_words e;
     m_matches := m_matches e; m_keys := m_keys e;
     m_prev_key := m_prev_key e; m_command_offset := m_command_offset e;
     m_flags := m_flags e; m_world := x; m_trace := m_trace e |}.

Definition log (e : line_editor_impl) (evs : list event) :=
  {| m_binder := m_binder e; m_bind_resolver := m_bind_resolver e;
     m_buffer := m_buffer e; m_backends := m_backends e;
     m_generators := m_generators e; m_words := m_words e;
     m_matches := m_matches e; m_keys := m_keys e;
     m_prev_key := m_prev_key e; m_command_offset := m_command_offset e;
     m_flags := m_flags e; m_world := m_world e;
     m_trace := m_trace e ++ evs |}.
End Setters.

Section Operations.
Context `{collaborators} `{config} (m_desc : desc).

(** Conversion to [unsigned char]. *)
Definition to_uchar (z : Z) : Z := Z.land z 255.

(** [set_flag], [clear_flag], [check_flag]: on the [unsigned char m_flags],
    with an [unsigned char] argument. *)
Definition set_flag (e : line_editor_impl) (flag : Z) : line_editor_impl :=
  with_flags e (to_uchar (Z.lor (m_flags e) (to_uchar flag))).

Definition clear_flag (e : line_editor_impl) (flag : Z) : line_editor_impl :=
  with_flags e (to_uchar (Z.land (m_flags e) (Z.lnot (to_uchar flag)))).

Definition check_flag (e : line_editor_impl) (flag : Z) : bool :=
  negb (Z.land (m_flags e) (to_uchar flag) =? 0).

(** The three flags are bits of a byte, no two of them sharing a bit. *)
Definition flags_ok : Prop :=
  0 < flag_init < 256 /\ 0 < flag_editing < 256 /\ 0 < flag_eof < 256 /\
  Z.land flag_init flag_editing = 0 /\ Z.land flag_init flag_eof = 0 /\
  Z.land flag_editing flag_eof = 0.

(** [get_linestate], [get_context] *)
Definition get_linestate (e : line_editor_impl) : line_state :=
  {| ls_line := text (m_buffer e); ls_cursor := cursor (m_buffer e);
     ls_command_offset := m_command_offset e; ls_words := m_words e |}.

Definition get_context (e : line_editor_impl) (line : line_state) : context :=
  {| ctx_buffer := m_buffer e; ctx_line := line;
     ctx_matches := m_matches e |}.

(** The chords one backend binds in [bind_input], through the
    [binder_impl] of [initialise]. *)
Fixpoint bind_chords (b : binder) (backend : backend_ptr)
    (chords : list (list char * nat)) : option binder :=
  match chords with
  | [] => Some b
  | (chord, id) :: chords' =>
      '(_, b') ← bind b chord backend id;
      bind_chords b' backend chords'
  end.

Fixpoint bind_backends (b : binder) (backends : list backend_ptr)
    : option binder :=
  match backends with
  | [] => Some b
  | backend :: backends' =>
      b' ← bind_chords b backend (bind_input backend);
      bind_backends b' backends'
  end.

(** [initialise] *)
Definition initialise (e : line_editor_impl) : option line_editor_impl :=
  if check_flag e flag_init then Some e else
  b ← bind_backends (m_binder e) (m_backends e);
  Some (set_flag (with_binder e b) flag_init).

(** A hook called on every backend in turn; it sees the buffer and the
    world as the backends before it left them. *)
Definition for_backends
    (hook : backend_ptr -> context -> world -> line_buffer * world)
    (line : line_state) (backends : list backend_ptr)
    (e : line_editor_impl) : line_editor_impl :=
  fold_left
    (fun e backend =>
       let '(buf, w) := hook backend (get_context e line) (m_world e) in
       with_world (with_buffer e buf) w)
    backends e.

(** [begin_line] *)
Definition begin_line (e : line_editor_impl) : line_editor_impl :=
  let e := clear_flag e (Z.lnot flag_init) in
  let e := set_flag e flag_editing in
  let e := with_resolver e reset in
  let e := with_command_offset e 0%nat in
  let e := with_keys e [] in
  let e := with_prev_key e (Z.ones 32) in       (* ~0u *)
  let e := log (with_matches e []) [ev_reset] in
  let e := with_world e (terminal_begin (m_world e)) in
  let e := with_buffer e (buffer_begin_line (m_buffer e)) in
  let line := get_linestate e in
  for_backends (fun backend => on_begin_line backend (prompt m_desc))
               line (m_backends e) e.

(** [end_line] *)
Definition end_line (e : line_editor_impl) : line_editor_impl :=
  let w := fold_left (fun w backend => on_end_line backend w)
                     (rev (m_backends e)) (m_world e) in
  let e := with_world e w in
  let e := with_buffer e (buffer_end_line (m_buffer e)) in
  let e := with_world e (terminal_end (m_world e)) in
  clear_flag e flag_editing.

(** [get_line]: the returned [bool], and what [out] receives on [true]. *)
Definition get_line (e : line_editor_impl) (out_size : nat)
    : line_editor_impl * bool * list char :=
  let e := if check_flag e flag_editing then end_line e else e in
  if check_flag e flag_eof then (e, false, [])
  else (e, true, take (out_size - 1) (text (m_buffer e))).

(** [record_input] *)
Definition record_input (e : line_editor_impl) (k : char) : line_editor_impl :=
  if (List.length (m_keys e) <? keys_size - 1)%nat
  then with_keys e (m_keys e ++ [k]) else e.

(** *** Words *)

Definition zero_word : word :=
  {| offset := 0; length := 0; quoted := false; delim := 0 |}.

(** [m_words.push_back()]: a new last element unless the array is full. *)
Definition push_back (ws : list word) : list word :=
  if (List.length ws <? words_capacity)%nat then ws ++ [zero_word] else ws.

(** [*(m_words.back()) = w]; [back()] is null on an empty array. *)
Definition assign_back (ws : list word) (w : word) : option (list word) :=
  match ws with
  | [] => None
  | _ => Some (removelast ws ++ [w])
  end.

(** [find_command_bounds]: [start] as an offset into the line, and
    [length].  A call of [tokens.next] that yields no token leaves the two
    as they are. *)
Definition find_command_bounds (e : line_editor_impl) : nat * nat :=
  let line_cursor := cursor (m_buffer e) in
  match command_delims m_desc with
  | None => (0%nat, line_cursor)
  | Some delims =>
      let toks := tokenise delims (quote_pair m_desc) (text (m_buffer e))
                           0%nat line_cursor in
      let '(start, len) :=
        match last toks with
        | Some t => (tok_start t, tok_length t)
        | None => (0%nat, line_cursor)
        end in
      if negb (start + len =? line_cursor)%nat then (line_cursor, 0%nat)
      else (start, len)
  end.

(** [{ short(start - line_buffer), length, 0, token.delim }]: the word of a
    token. *)
Definition token_word (t : str_token) : word :=
  {| offset := u16 (tok_start t); length := u16 (tok_length t);
     quoted := false; delim := tok_delim t |}.

(** [{ line_cursor }]: the empty word at the cursor. *)
Definition cursor_word (line_cursor : nat) : word :=
  {| offset := u16 line_cursor; length := 0; quoted := false; delim := 0 |}.

(** The loop of [collect_words] that adds the words. *)
Fixpoint add_words (ws : list word) (toks : list str_token)
    : option (list word) :=
  match toks with
  | [] => Some ws
  | t :: toks' =>
      ws' ← assign_back (push_back ws) (token_word t);
      add_words ws' toks'
  end.

(** The body of the loop that adjusts for quotes. *)
Definition adjust_quotes (line : list char) (w : word) : word :=
  if (length w =? 0)%nat then w else
  let start_quoted :=
    if char_at line (offset w) =? char_at (quote_pair m_desc) 0
    then 1%nat else 0%nat in
  let end_quoted :=
    if (1 <? length w)%nat then
      if char_at line (offset w + (length w - 1))
         =? char_at (quote_pair m_desc) 0
      then 1%nat else 0%nat
    else 0%nat in
  {| offset := u16 (offset w + start_quoted);
     length := u16z (Z.of_nat (length w)
                     - Z.of_nat (start_quoted + end_quoted));
     quoted := negb (start_quoted =? 0)%nat;
     delim := delim w |}.

(** The loop that looks for the last partial delimiter of the end word,
    entered with [j + 1]; the result is [partial]. *)
Fixpoint partial_scan (line : list char) (off : nat) (j1 : nat) : nat :=
  match j1 with
  | O => 0%nat
  | S j =>
      if strchr_found (partial_delims m_desc) (char_at line (off + j))
      then S j else partial_scan line off j
  end.

(** [collect_words] *)
Definition collect_words (e : line_editor_impl) : option line_editor_impl :=
  let line_buffer := text (m_buffer e) in
  let line_cursor := cursor (m_buffer e) in
  let '(command_start, command_length) := find_command_bounds e in
  let e := with_command_offset (with_words e []) command_start in
  ws ← add_words []
        (tokenise (word_delims m_desc) (quote_pair m_desc) line_buffer
                  command_start command_length);
  (* Add an empty word if the cursor is at the beginning of one. *)
  ws ← match last ws with
       | Some end_word =>
           if (offset end_word + length end_word <? line_cursor)%nat
           then assign_back (push_back ws) (cursor_word line_cursor)
           else Some ws
       | None => assign_back (push_back ws) (cursor_word line_cursor)
       end;
  (* Adjust for quotes. *)
  let ws := List.map (adjust_quotes line_buffer) ws in
  (* Adjust the completing word for if it's partial. *)
  end_word ← last ws;
  let partial := partial_scan line_buffer (offset end_word)
                              (length end_word) in
  ws ← assign_back ws
        {| offset := offset end_word; length := u16 partial;
           quoted := quoted end_word; delim := delim end_word |};
  Some (with_words e ws).

(** The end word as the loops that add the words and adjust them for quotes
    leave it, before the scan for a partial delimiter cuts it: the word of
    the last token, or the empty word at the cursor when there is no token
    or the word of the last one ends before the cursor, adjusted for
    quotes. *)
Definition uncut_end_word (e : line_editor_impl) : word :=
  let '(command_start, command_length) := find_command_bounds e in
  let toks := tokenise (word_delims m_desc) (quote_pair m_desc)
                       (text (m_buffer e)) command_start command_length in
  adjust_quotes (text (m_buffer e))
    match last toks with
    | Some t =>
        if (offset (token_word t) + length (token_word t)
            <? cursor (m_buffer e))%nat
        then cursor_word (cursor (m_buffer e)) else token_word t
    | None => cursor_word (cursor (m_buffer e))
    end.

(** *** Accepting a match *)

(** [str::concat(src, n)]: the first [n] bytes of the C string [src], all
    of it when [n] is negative.  The [str<>] objects are taken to hold
    what is put in them. *)
Definition str_concat (src : list char) (n : Z) : list char :=
  if n <? 0 then src else take (Z.to_nat n) src.

(** The closing quote [accept_match] inserts when [c] is the byte before
    the word: [q[1] ? q + 1 : q] for [q = strchr(quote_pair, c)]; [None]
    when [q] is null and nothing is inserted. *)
Definition closing_quote (c : char) : option (list char) :=
  match strchr (quote_pair m_desc) c with
  | Some q =>
      Some (if negb (char_at (quote_pair m_desc) (S q) =? 0)
            then drop (S q) (quote_pair m_desc)
            else drop q (quote_pair m_desc))
  | None => None
  end.

(** [accept_match].  [buf_ptr] is read once more after the buffer has been
    changed, before the end word, where the text is what it was.  The calls
    on the buffer are recorded in the trace. *)
Definition accept_match (e : line_editor_impl) (index : nat)
    : option line_editor_impl :=
  if (List.length (m_matches e) <=? index)%nat then Some e else
  match m_matches e !! index with
  | None | Some [] => Some e
  | Some (m0 :: m') =>
      let mtch := m0 :: m' in
      end_word ← last (m_words e);
      let word_start := offset end_word in
      let buf_ptr := text (m_buffer e) in
      let wd := str_concat (drop word_start buf_ptr)
                           (Z.of_nat (length end_word)) ++ mtch in
      (* Clean the word if it is a valid file system path. *)
      let wd := if is_path wd then path_clean wd else wd in
      let b := buffer_remove (m_buffer e) word_start (cursor (m_buffer e)) in
      let b := buffer_set_cursor b word_start in
      let b := buffer_insert b wd in
      let calls := [ev_remove word_start (cursor (m_buffer e));
                    ev_set_cursor word_start; ev_insert wd] in
      (* If this match doesn't make a new partial word, close it off *)
      let last_char := List.last mtch 0 in
      let '(b, calls) :=
        if negb (strchr_found (partial_delims m_desc) last_char) then
          (* Closing quote? *)
          let pre_offset := Z.of_nat (offset end_word) - 1 in
          let '(b, calls) :=
            if 0 <=? pre_offset then
              match closing_quote (char_at buf_ptr (Z.to_nat pre_offset)) with
              | Some q => (buffer_insert b q, calls ++ [ev_insert q])
              | None => (b, calls)
              end
            else (b, calls) in
          (buffer_insert b [32], calls ++ [ev_insert [32]])
        else (b, calls) in
      Some (log (with_buffer e b) calls)
  end.

(** The word [accept_match] puts into the buffer for the end word [w] and
    the match [mtch], and the closing quote it finds for the byte before the
    end word. *)
Definition applied_word (e : line_editor_impl) (w : word) (mtch : list char)
    : list char :=
  let wd := str_concat (drop (offset w) (text (m_buffer e)))
                       (Z.of_nat (length w)) ++ mtch in
  if is_path wd then path_clean wd else wd.

Definition closing_insert (e : line_editor_impl) (w : word)
    : option (list char) :=
  if (offset w =? 0)%nat then None
  else closing_quote (char_at (text (m_buffer e)) (offset w - 1)).

Definition closing_before (e : line_editor_impl) (w : word) : list char :=
  default [] (closing_insert e w).

(** *** Match refresh *)

(** [key_t]: the value of the union whose bit-fields are [word_offset]
    (11 bits), [word_length] (10 bits) and [cursor_pos] (11 bits), the first
    field in the low bits.  The three fields fill the 32 bits, so that two
    values are equal exactly when the three fields are, whatever the
    layout. *)
Definition key_value (word_offset word_length cursor_pos : Z) : Z :=
  word_offset mod 2 ^ 11 + 2 ^ 11 * (word_length mod 2 ^ 10)
  + 2 ^ 21 * (cursor_pos mod 2 ^ 11).

(** [k.cursor_pos = c] on the value of a key. *)
Definition set_cursor_pos (value : Z) (c : Z) : Z :=
  value mod 2 ^ 21 + 2 ^ 21 * (c mod 2 ^ 11).

(** [k.cursor_pos] *)
Definition get_cursor_pos (value : Z) : Z := (value / 2 ^ 21) mod 2 ^ 11.

(** [update_internal], after [collect_words] and with the end word. *)
Definition refresh_matches (e : line_editor_impl) (end_word : word)
    : line_editor_impl :=
  let next_key :=
    key_value (Z.of_nat (offset end_word)) (Z.of_nat (length end_word)) 0 in
  let prev_key := set_cursor_pos (m_prev_key e) 0 in
  (* Should we generate new matches? *)
  let e :=
    if negb (next_key =? prev_key) then
      let line := get_linestate e in
      log (with_matches e (pipeline_generate line (m_generators e)))
          [ev_reset; ev_generate line; ev_fill_info]
    else e in
  let next_key :=
    set_cursor_pos next_key (Z.of_nat (cursor (m_buffer e))) in
  let prev_key := m_prev_key e in
  (* Should we sort and select matches? *)
  if negb (next_key =? prev_key) then
    let needle_start := (offset end_word + length end_word)%nat in
    let needle :=
      str_concat (drop needle_start (text (m_buffer e)))
                 (get_cursor_pos next_key - Z.of_nat needle_start) in
    let e :=
      log (with_matches e
             (pipeline_sort (pipeline_select needle (m_matches e))))
          [ev_select needle; ev_sort] in
    let e := with_prev_key e next_key in
    (* Tell all the backends that the matches changed. *)
    let line := get_linestate e in
    for_backends on_matches_changed line (m_backends e)
                 (log e [ev_matches_changed])
  else e.

(** The first test of [update_internal]: the key of the end word differs
    from the previous key, cursor position apart. *)
Definition key_changed (e : line_editor_impl) (w : word) : bool :=
  negb (key_value (Z.of_nat (offset w)) (Z.of_nat (length w)) 0
        =? set_cursor_pos (m_prev_key e) 0).

(** The generators were invoked between [e] and [e']: the trace has grown
    by an [ev_generate]. *)
Definition generated (e e' : line_editor_impl) : bool :=
  existsb (fun ev => match ev with ev_generate _ => true | _ => false end)
          (drop (List.length (m_trace e)) (m_trace e')).

(** [update_internal] *)
Definition update_internal (e : line_editor_impl) : option line_editor_impl :=
  e ← collect_words e;
  end_word ← last (m_words e);
  Some (refresh_matches e end_word).

(** *** The driver *)

(** The call of [on_input] in [dispatch]: the backend of the resolver, or
    the editor's own, is given the keys recorded so far, as the C string
    that [m_keys[m_keys_size] = '\0'] makes of them.  The result value and
    the editor after the call. *)
Definition call_backend (e : line_editor_impl) : Z * line_editor_impl :=
  let keys := c_string (m_keys e) in
  let e := with_keys e [] in
  let backend :=
    match Resolver.get_backend (m_bind_resolver e) with
    | Some backend => backend
    | None => default_backend
    end in
  let id := get_id (m_bind_resolver e) in
  let line := get_linestate e in
  let '(result, buf, w) :=
    on_input backend keys id (get_context e line) (m_world e) in
  (result, with_world (with_buffer e buf) w).

(** [dispatch] *)
Definition dispatch (e : line_editor_impl) : option line_editor_impl :=
  if negb (is_resolved (m_bind_resolver e)) then Some e else
  let '(result, e) := call_backend e in
  let value := to_uchar (Z.land result 255) in
  if value =? result_eof then
    Some (end_line (set_flag e flag_eof))
  else if value =? result_done then
    Some (end_line e)
  else if value =? result_accept_match then
    e ← accept_match e (Z.to_nat (Z.land (Z.shiftr result 8) 65535));
    Some (with_resolver e reset)
  else if value =? result_redraw then
    Some (with_resolver e reset)
  else if value =? result_next then
    Some (with_resolver e reset)
  else if value =? result_more_input then
    Some (with_resolver e
            (set_id (m_bind_resolver e) (Z.land (Z.shiftr result 8) 255)))
  else Some e.

(** The part of [update] between the terminal read and [dispatch]. *)
Definition read_key (e : line_editor_impl) : option line_editor_impl :=
  let '(k, w) := terminal_read (m_world e) in
  let e := with_world e w in
  let e := record_input e (to_uchar k) in
  if negb (is_resolved (m_bind_resolver e)) then
    r ← update_resolver (m_binder e) (to_uchar k) (m_bind_resolver e);
    Some (with_resolver e r)
  else Some e.

(** While a line is edited there is an end word. *)
Definition has_end_word (e : line_editor_impl) : Prop :=
  check_flag e flag_editing = true -> m_words e <> [].

(** [update] *)
Definition update (e : line_editor_impl) : option (bool * line_editor_impl) :=
  e ← (if negb (check_flag e flag_init) then initialise e else Some e);
  if negb (check_flag e flag_editing) then
    e ← update_internal (begin_line e);
    Some (true, e)
  else
    e ← read_key e;
    e ← dispatch e;
    if negb (check_flag e flag_editing) then Some (false, e) else
    e ← (if negb (is_resolved (m_bind_resolver e))
          then update_internal e else Some e);
    Some (true, e).

(** The loop of [edit]: [update] is called until it returns [false].
    [None] when that has not happened after [fuel] calls. *)
Fixpoint edit_loop (fuel : nat) (e : line_editor_impl)
    : option line_editor_impl :=
  match fuel with
  | O => None
  | S fuel' =>
      match update e with
      | Some (true, e') =>
          edit_loop fuel' (with_world e' (terminal_select (m_world e')))
      | Some (false, e') => Some e'
      | None => None
      end
  end.

(** [edit] *)
Definition edit (fuel : nat) (e : line_editor_impl) (out_size : nat)
    : option (line_editor_impl * bool * list char) :=
  e' ← edit_loop fuel e;
  Some (get_line e' out_size).
(** The chords the backends bind do not end in a backslash. *)
Definition chords_ok : Prop :=
  forall backend chord id,
    In (chord, id) (bind_input backend) -> last chord <> Some ch_backslash.

(** What [update] relies on: the node graph of the binder is well formed,
    the resolver is resolved or stands at a node of it, and while a line is
    edited there is an end word. *)
Definition editor_ok (e : line_editor_impl) : Prop :=
  wf (m_binder e) /\ at_node (m_binder e) (m_bind_resolver e) /\
  has_end_word e.

End Operations.

End LineEditor.

(** ** An instance to run the model on *)

Module Demo.
Import Binder Resolver BinderResolve LineEditor.

(** The constants of [binder.h] are not known; any values with room for the
    chords bound will do. *)
Definition demo_config : config :=
  {| sentinal := 127; nodes_size := 127; backends_capacity := 16 |}.

(** A tokeniser that splits at delimiter bytes and knows no quotes: the
    tokens of [text], which starts at offset [pos] of the line, with [start]
    the beginning of the token being read. *)
Fixpoint split_tokens (delims text : list char) (pos : nat)
    (start : option nat) : list str_token :=
  match text with
  | [] =>
      match start with
      | Some s =>
          [{| tok_start := s; tok_length := pos - s; tok_delim := 0 |}]
      | None => []
      end
  | c :: text' =>
      if existsb (Z.eqb c) delims then
        match start with
        | Some s =>
            {| tok_start := s; tok_length := pos - s; tok_delim := c |}
            :: split_tokens delims text' (S pos) None
        | None => split_tokens delims text' (S pos) None
        end
      else
        split_tokens delims text' (S pos)
          (Some (match start with Some s => s | None => pos end))
  end.

(** Whether [needle] is a prefix of [s]. *)
Fixpoint has_prefix (needle s : list char) : bool :=
  match needle, s with
  | [], _ => true
  | x :: needle', y :: s' => (x =? y) && has_prefix needle' s'
  | _ :: _, [] => false
  end.

(** Collaborators for the checks below.  The world counts the bytes read
    from the terminal, which delivers ['a'] for ever.  No backend binds a
    chord, so that every key goes to the editor's own backend; it answers
    the first key with eof and the later ones with done.  The generators
    offer ["foobar"] and ["foobaz"]. *)
Definition demo_collaborators : collaborators :=
  {| flag_init := 1; flag_editing := 2; flag_eof := 4;
     keys_size := 8; words_capacity := 72;
     default_backend := 0%nat;
     result_next := 0; result_more_input := 1; result_redraw := 2;
     result_accept_match := 3; result_done := 4; result_eof := 5;
     world := nat;
     terminal_begin := fun w => w;
     terminal_end := fun w => w;
     terminal_select := fun w => w;
     terminal_read := fun w => (97, S w);
     buffer_begin_line := fun _ => {| text := []; cursor := 0 |};
     buffer_end_line := fun b => b;
     bind_input := fun _ => [];
     on_begin_line := fun _ _ ctx w => (ctx_buffer ctx, w);
     on_end_line := fun _ w => w;
     on_matches_changed := fun _ ctx w => (ctx_buffer ctx, w);
     on_input := fun _ _ _ ctx w =>
       (if (w =? 1)%nat then 5 else 4, ctx_buffer ctx, w);
     tokenise := fun delims _ line start len =>
       split_tokens delims (take len (drop start line)) start None;
     pipeline_generate := fun _ _ => [c_str "foobar"; c_str "foobaz"];
     pipeline_select := fun needle => List.filter (has_prefix needle);
     pipeline_sort := fun ms => ms;
     is_path := fun _ => false;
     path_clean := fun s => s |}.

Definition demo_desc : desc :=
  {| prompt := []; command_delims := None; word_delims := [32];
     partial_delims := c_str "/\:"; quote_pair := [34; 34];
     auto_quote_chars := [32] |}.

(** [line_editor_impl::line_editor_impl]: the flags are zero and the editor's
    own backend is the first of the backends. *)
Definition demo_editor : @line_editor_impl demo_collaborators :=
  {| m_binder := @binder_init demo_config (replicate 127 zero_node);
     m_bind_resolver := reset;
     m_buffer := {| text := []; cursor := 0 |};
     m_backends := [0%nat]; m_generators := []; m_words := [];
     m_matches := []; m_keys := []; m_prev_key := 0;
     m_command_offset := 0; m_flags := 0;
     m_world := (0%nat : @world demo_collaborators);
     m_trace := [] |}.

(** The editor with [text] in its buffer and the cursor at its end. *)
Definition demo_editing (text : list char) : @line_editor_impl demo_collaborators :=
  @with_buffer demo_collaborators
    (@begin_line demo_collaborators demo_desc demo_editor)
    {| text := text; cursor := List.length text |}.

(** What is in an option, or [d]. *)
Definition get {A} (d : A) (o : option A) : A :=
  match o with Some x => x | None => d end.

(** A binder with ["a"] bound to the backend 10 under the id 7. *)
Definition demo_binder : binder := @binder_init demo_config (replicate 127 zero_node).
Definition demo_bound : binder :=
  snd (get (false, demo_binder)
         (@bind demo_config demo_binder (c_str "a") 10%nat 7%nat)).


(** Two runs of the match refresh: on an empty line, and then on a line of
    2048 spaces with the cursor at its end. *)
Definition demo_run1 : @line_editor_impl demo_collaborators :=
  get demo_editor
    (@update_internal demo_collaborators demo_desc (demo_editing [])).
Definition demo_before_run2 : @line_editor_impl demo_collaborators :=
  @with_buffer demo_collaborators demo_run1
    {| text := replicate 2048 32; cursor := 2048 |}.
Definition demo_run2 : @line_editor_impl demo_collaborators :=
  get demo_editor
    (@update_internal demo_collaborators demo_desc demo_before_run2).

(** After ["foo"] has been typed and the matches refreshed. *)
Definition demo_foo : @line_editor_impl demo_collaborators :=
  get demo_editor
    (@update_internal demo_collaborators demo_desc (demo_editing (c_str "foo"))).

(** After ["c:/usr/loc"] has been typed, with the match ["local/"]; and
    after a quote and ["fo"], with the match ["foo bar"]. *)
Definition demo_path : @line_editor_impl demo_collaborators :=
  @with_matches demo_collaborators
    (get demo_editor
       (@update_internal demo_collaborators demo_desc
          (demo_editing (c_str "c:/usr/loc"))))
    [c_str "local/"].
Definition demo_quoted : @line_editor_impl demo_collaborators :=
  @with_matches demo_collaborators
    (get demo_editor
       (@update_internal demo_collaborators demo_desc
          (demo_editing (34 :: c_str "fo"))))
    [c_str "foo bar"].

(** In the middle of an edit, before the first key is read. *)
Definition demo_started : @line_editor_impl demo_collaborators :=
  snd (get (false, demo_editor)
         (@update demo_collaborators demo_config demo_desc demo_editor)).
(** A binder with ["ab"] bound to the backend 10 under the id 7. *)
Definition demo_ab : binder :=
  snd (get (false, demo_binder)
         (@bind demo_config demo_binder (c_str "ab") 10%nat 7%nat)).

(** An arena of one node, and the binder in which ["a"] has taken it. *)
Definition small_config : config :=
  {| sentinal := 2; nodes_size := 1; backends_capacity := 1 |}.
Definition demo_full : binder :=
  snd (get (false, @binder_init small_config [zero_node])
         (@bind small_config (@binder_init small_config [zero_node])
                (c_str "a") 10%nat 7%nat)).

(** Collaborators whose backends answer every key with more_input and the
    payload 9; the rest is as in [demo_collaborators]. *)
Definition demo_more_collaborators : collaborators :=
  {| flag_init := 1; flag_editing := 2; flag_eof := 4;
     keys_size := 8; words_capacity := 72;
     default_backend := 0%nat;
     result_next := 0; result_more_input := 1; result_redraw := 2;
     result_accept_match := 3; result_done := 4; result_eof := 5;
     world := nat;
     terminal_begin := fun w => w;
     terminal_end := fun w => w;
     terminal_select := fun w => w;
     terminal_read := fun w => (97, S w);
     buffer_begin_line := fun _ => {| text := []; cursor := 0 |};
     buffer_end_line := fun b => b;
     bind_input := fun _ => [];
     on_begin_line := fun _ _ ctx w => (ctx_buffer ctx, w);
     on_end_line := fun _ w => w;
     on_matches_changed := fun _ ctx w => (ctx_buffer ctx, w);
     on_input := fun _ _ _ ctx w => (1 + 256 * 9, ctx_buffer ctx, w);
     tokenise := fun delims _ line start len =>
       split_tokens delims (take len (drop start line)) start None;
     pipeline_generate := fun _ _ => [c_str "foobar"; c_str "foobaz"];
     pipeline_select := fun needle => List.filter (has_prefix needle);
     pipeline_sort := fun ms => ms;
     is_path := fun _ => false;
     path_clean := fun s => s |}.

(** An editor of these collaborators in the middle of an edit, with a key
    resolved to the backend 10 under the id 7. *)
Definition demo_latched : @line_editor_impl demo_more_collaborators :=
  {| m_binder := demo_bound;
     m_bind_resolver := resolve reset (Some 10%nat) 7;
     m_buffer := {| text := []; cursor := 0 |};
     m_backends := [0%nat]; m_generators := [];
     m_words := [{| offset := 0; length := 0; quoted := false; delim := 0 |}];
     m_matches := []; m_keys := [97]; m_prev_key := 0;
     m_command_offset := 0; m_flags := 3;
     m_world := (1%nat : @world demo_more_collaborators);
     m_trace := [] |}.

(** In the middle of the edit of a second line, after the first one has
    ended with eof: the next key is answered with done. *)
Definition demo_second_line : @line_editor_impl demo_collaborators :=
  snd (get (false, demo_editor)
         (@update demo_collaborators demo_config demo_desc
            (snd (get (false, demo_editor)
                    (@update demo_collaborators demo_config demo_desc
                             demo_started))))).

(** [demo_desc] with the command delimiter ['&']. *)
Definition demo_cmd_desc : desc :=
  {| prompt := []; command_delims := Some [38]; word_delims := [32];
     partial_delims := c_str "/\:"; quote_pair := [34; 34];
     auto_quote_chars := [32] |}.

(** After the edit of the first line has ended with eof. *)
Definition demo_eof_ended : @line_editor_impl demo_collaborators :=
  snd (get (false, demo_editor)
         (@update demo_collaborators demo_config demo_desc demo_started)).

(** A binder with a chord of nine ['a'], and an editor in the middle of an
    edit after seven of them have been read: [m_keys], of eight bytes, holds
    the seven keys, and the resolver stands at the seventh node. *)
Definition demo_nine : binder :=
  snd (get (false, demo_binder)
         (@bind demo_config demo_binder (c_str "aaaaaaaaa") 10%nat 7%nat)).
Definition demo_keys_full : @line_editor_impl demo_collaborators :=
  {| m_binder := demo_nine;
     m_bind_resolver := set_node_index reset 6;
     m_buffer := {| text := []; cursor := 0 |};
     m_backends := [0%nat]; m_generators := [];
     m_words := [{| offset := 0; length := 0; quoted := false; delim := 0 |}];
     m_matches := []; m_keys := replicate 7 97; m_prev_key := 0;
     m_command_offset := 0; m_flags := 3;
     m_world := (7%nat : @world demo_collaborators);
     m_trace := [] |}.

(** Collaborators whose backends bind the chord ["a"] under the id 7 and
    answer it by accepting the first match; the rest is as in
    [demo_collaborators]. *)
Definition demo_accept_collaborators : collaborators :=
  {| flag_init := 1; flag_editing := 2; flag_eof := 4;
     keys_size := 8; words_capacity := 72;
     default_backend := 0%nat;
     result_next := 0; result_more_input := 1; result_redraw := 2;
     result_accept_match := 3; result_done := 4; result_eof := 5;
     world := nat;
     terminal_begin := fun w => w;
     terminal_end := fun w => w;
     terminal_select := fun w => w;
     terminal_read := fun w => (97, S w);
     buffer_begin_line := fun _ => {| text := []; cursor := 0 |};
     buffer_end_line := fun b => b;
     bind_input := fun _ => [(c_str "a", 7%nat)];
     on_begin_line := fun _ _ ctx w => (ctx_buffer ctx, w);
     on_end_line := fun _ w => w;
     on_matches_changed := fun _ ctx w => (ctx_buffer ctx, w);
     on_input := fun _ _ _ ctx w => (3, ctx_buffer ctx, w);
     tokenise := fun delims _ line start len =>
       split_tokens delims (take len (drop start line)) start None;
     pipeline_generate := fun _ _ => [c_str "foobar"; c_str "foobaz"];
     pipeline_select := fun needle => List.filter (has_prefix needle);
     pipeline_sort := fun ms => ms;
     is_path := fun _ => false;
     path_clean := fun s => s |}.

(** The editor of these collaborators as its constructor leaves it, and
    after its first [update], in the middle of an edit. *)
Definition demo_accept_editor : @line_editor_impl demo_accept_collaborators :=
  {| m_binder := @binder_init demo_config (replicate 127 zero_node);
     m_bind_resolver := reset;
     m_buffer := {| text := []; cursor := 0 |};
     m_backends := [0%nat]; m_generators := []; m_words := [];
     m_matches := []; m_keys := []; m_prev_key := 0;
     m_command_offset := 0; m_flags := 0;
     m_world := (0%nat : @world demo_accept_collaborators);
     m_trace := [] |}.
Definition demo_accept_started : @line_editor_impl demo_accept_collaborators :=
  snd (get (false, demo_accept_editor)
         (@update demo_accept_collaborators demo_config demo_desc
                  demo_accept_editor)).

End Demo.

(** * Properties of the chord translator *)

Module ChordFacts.
Import Chord.

Example translate_plain :
  translate (c_str "abc") = Some (Some (c_str "abc")).
Proof. reflexivity. Qed.

Example translate_meta : translate (c_str "\M-a") = Some (Some [27; 97]).
Proof. reflexivity. Qed.

Example translate_csi : translate (c_str "\e[A") = Some (Some [27; 91; 65]).
Proof. reflexivity. Qed.

Example translate_malformed_meta : translate (c_str "\Mx") = Some None.
Proof. reflexivity. Qed.

Example translate_malformed_ctrl : translate (c_str "\C") = Some None.
Proof. reflexivity. Qed.

(** The escape [\0] stores a NUL, which ends the C string [bind] reads back:
    the keys of the chord stop before it. *)
Example translate_nul_escape : translate (c_str "a\0b") = Some (Some [97]).
Proof. reflexivity. Qed.

Lemma plain_test c :
  plain c -> negb (c =? ch_backslash) && negb (c =? ch_caret) = true.
Proof.
  intros [Hb Hc]. apply Z.eqb_neq in Hb, Hc. by rewrite Hb, Hc.
Qed.

(** What the loop does with [^X]: the caret itself is masked and stored, and
    [X] is then translated as the next byte of the text. *)
Lemma translate_loop_caret SIZE i x rest out :
  i < SIZE - 1 ->
  translate_loop SIZE i (ch_caret :: x :: rest) out =
  translate_loop SIZE (i + 1) (x :: rest) (out ++ [(i, 30)]).
Proof.
  intros Hi. cbn [translate_loop].
  destruct (Z.ltb_spec i (SIZE - 1)); [|lia]. done.
Qed.

(** What the loop does with [\C-X]: the dash is masked and stored, and [X]
    is then translated as the next byte of the text. *)
Lemma translate_loop_ctrl SIZE i x rest out :
  i < SIZE - 1 ->
  translate_loop SIZE i (ch_backslash :: 67 :: ch_dash :: x :: rest) out =
  translate_loop SIZE (i + 1) (x :: rest) (out ++ [(i, 13)]).
Proof.
  intros Hi. cbn [translate_loop].
  destruct (Z.ltb_spec i (SIZE - 1)); [|lia]. done.
Qed.

Lemma translate_loop_nil SIZE i out :
  translate_loop SIZE i [] out = (true, i, out).
Proof. simpl. by destruct (negb (i <? SIZE - 1)). Qed.

Lemma translate_loop_plain1 SIZE i c rest out :
  i < SIZE - 1 -> plain c ->
  translate_loop SIZE i (c :: rest) out =
  translate_loop SIZE (i + 1) rest (out ++ [(i, c)]).
Proof.
  intros Hi Hc. cbn [translate_loop].
  destruct (Z.ltb_spec i (SIZE - 1)); [|lia]. cbn [negb].
  by rewrite (plain_test c Hc).
Qed.

(** For a plain [X] the two notations give two bytes, none of them
    [X & 0x1F]: the masked caret or dash, and [X] itself. *)
Lemma ctrl_notations_two_bytes x :
  plain x -> 0 < x < 128 ->
  translate (ch_caret :: [x]) = Some (Some [30; x]) /\
  translate (ch_backslash :: 67 :: ch_dash :: [x]) = Some (Some [13; x]).
Proof.
  intros Hp Hx.
  assert (Hz : (x =? 0) = false) by (apply Z.eqb_neq; lia).
  assert (Hc : translate_chord 64 (ch_caret :: [x]) =
               {| ok := true; stores := [(0, 30); (1, x); (2, 0)] |}).
  { unfold translate_chord.
    rewrite translate_loop_caret, translate_loop_plain1, translate_loop_nil
      by (done || lia). done. }
  assert (Hd : translate_chord 64 (ch_backslash :: 67 :: ch_dash :: [x]) =
               {| ok := true; stores := [(0, 13); (1, x); (2, 0)] |}).
  { unfold translate_chord.
    rewrite translate_loop_ctrl, translate_loop_plain1, translate_loop_nil
      by (done || lia). done. }
  unfold translate. rewrite Hc, Hd. cbv -[Z.eqb]. by rewrite Hz.
Qed.

(** C1 (the code departs from the claim): the translator does not map
    [\C-X] and [^X] to the single byte [X & 0x1F].  For [X = 'a'] the
    translation of [\C-a] is the two bytes [{0x0D, 'a'}] (the masked dash,
    then ['a']) and that of [^a] is [{0x1E, 'a'}] (the masked caret, then
    ['a']), where the claim has [{0x01}] for both. *)
Theorem ctrl_chord_translation :
  translate (c_str "\C-a") = Some (Some [13; 97]) /\
  translate (c_str "^a") = Some (Some [30; 97]).
Proof. split; reflexivity. Qed.

(** The loop copies plain bytes while there is room, with stores inside the
    array. *)
Lemma translate_loop_plain SIZE s : forall i rest out,
  Forall plain s -> 0 <= i ->
  i + Z.of_nat (Datatypes.length s) <= SIZE - 1 ->
  exists out',
    translate_loop SIZE i (s ++ rest) out =
    translate_loop SIZE (i + Z.of_nat (Datatypes.length s)) rest out' /\
    (forallb (in_bounds SIZE) out = true ->
     forallb (in_bounds SIZE) out' = true).
Proof.
  induction s as [|c s IH]; intros i rest out Hs H0 Hi.
  - exists out. simpl. by rewrite Z.add_0_r.
  - inversion Hs as [|? ? Hc Hs']; subst.
    cbn [Datatypes.length] in Hi. rewrite Nat2Z.inj_succ in Hi.
    destruct (IH (i + 1) rest (out ++ [(i, c)]) Hs') as (out' & Heq & Hb);
      [lia | lia |].
    exists out'. split.
    + cbn [app translate_loop].
      destruct (Z.ltb_spec i (SIZE - 1)); [|lia]. cbn [negb].
      rewrite (plain_test c Hc), Heq. f_equal.
      cbn [Datatypes.length]. lia.
    + intros Hout. apply Hb. rewrite forallb_app, Hout. simpl.
      unfold in_bounds. simpl.
      destruct (Z.leb_spec 0 i); [|lia].
      destruct (Z.ltb_spec i SIZE); [done | lia].
Qed.

(** A lone backslash at the end of a plain text that fits: the call returns
    [true], and its last store, the terminator, is at index [SIZE + 1]. *)
Lemma trailing_backslash_overrun SIZE s :
  Forall plain s -> Z.of_nat (Datatypes.length s) <= SIZE - 2 ->
  exists out,
    translate_chord SIZE (s ++ [ch_backslash]) =
    {| ok := true; stores := out ++ [(SIZE + 1, 0)] |}.
Proof.
  intros Hs Hlen.
  destruct (translate_loop_plain SIZE s 0 [ch_backslash] [] Hs) as (out & Heq & _);
    [lia | lia |].
  exists out. unfold translate_chord. rewrite Heq. cbn [translate_loop].
  destruct (Z.ltb_spec (0 + Z.of_nat (Datatypes.length s)) (SIZE - 1)); [|lia].
  cbn. destruct (Z.ltb_spec (SIZE + 1) (SIZE - 1)); [lia|]. done.
Qed.

(** The counter and the stores of the loop: every store is inside the array,
    and the loop is left with a counter inside the array or with
    [SIZE + 1]. *)
Lemma translate_loop_bounds SIZE n : forall chord i out,
  (Datatypes.length chord <= n)%nat ->
  0 <= i <= SIZE - 1 ->
  forallb (in_bounds SIZE) out = true ->
  forallb (in_bounds SIZE) (snd (translate_loop SIZE i chord out)) = true /\
  (0 <= snd (fst (translate_loop SIZE i chord out)) <= SIZE - 1 \/
   snd (fst (translate_loop SIZE i chord out)) = SIZE + 1).
Proof.
  induction n as [|n IH]; intros chord i out Hn Hi Hout.
  - destruct chord; [|simpl in Hn; lia]. simpl.
    destruct (i <? SIZE - 1); simpl; (split; [done | lia]).
  - assert (Hstore : forall v,
              i < SIZE - 1 -> forallb (in_bounds SIZE) (out ++ [(i, v)]) = true).
    { intros v Hlt. rewrite forallb_app, Hout. simpl. unfold in_bounds. simpl.
      destruct (Z.leb_spec 0 i); [|lia].
      destruct (Z.ltb_spec i SIZE); [done | lia]. }
    destruct chord as [|c chord1]; cbn [translate_loop].
    { destruct (i <? SIZE - 1); simpl; (split; [done | lia]). }
    destruct (Z.ltb_spec i (SIZE - 1)) as [Hlt | Hge]; cbn [negb];
      [|simpl; split; [done | lia]].
    simpl in Hn.
    destruct (negb (c =? ch_backslash) && negb (c =? ch_caret)).
    { apply IH; [lia | lia | auto]. }
    destruct (c =? ch_caret).
    { apply IH; [lia | lia | auto]. }
    destruct chord1 as [|d chord2].
    { cbn [translate_loop].
      destruct (Z.ltb_spec (SIZE + 1) (SIZE - 1)); [lia|].
      simpl. split; [done | lia]. }
    simpl in Hn.
    destruct (d =? 77).
    { destruct chord2 as [|e chord3]; [simpl; split; [done | lia]|].
      simpl in Hn. destruct (negb (e =? ch_dash)); [simpl; split; [done | lia]|].
      apply IH; [lia | lia | auto]. }
    destruct (d =? 67).
    { destruct chord2 as [|e chord3]; [simpl; split; [done | lia]|].
      simpl in Hn. destruct (negb (e =? ch_dash)); [simpl; split; [done | lia]|].
      apply IH; [lia | lia | auto]. }
    apply IH; [lia | lia | auto].
Qed.

(** Every store of a call is inside the array, but for the terminator when it
    is stored at index [SIZE + 1]. *)
Lemma translate_chord_stores SIZE chord :
  1 <= SIZE ->
  exists out i,
    stores (translate_chord SIZE chord) =
      (if ok (translate_chord SIZE chord) then out ++ [(i, 0)] else out) /\
    forallb (in_bounds SIZE) out = true /\
    (0 <= i <= SIZE - 1 \/ i = SIZE + 1).
Proof.
  intros HS.
  destruct (translate_loop_bounds SIZE (Datatypes.length chord) chord 0 [])
    as [Hout Hi]; [lia | lia | done |].
  unfold translate_chord.
  destruct (translate_loop SIZE 0 chord []) as [[okb i] out]. simpl in *.
  exists out, i. destruct okb; simpl; done.
Qed.

(** C3 (the code departs from the claim): a chord text that ends in a lone
    backslash does not make the translation fail.  [translate_chord] returns
    [true] for ["\"] and for ["ab\"], having stored the terminator at index
    65 of its 64-byte array; [bind] of such a text goes on from there, with
    no defined result, where the claim has it return failure. *)
Theorem trailing_backslash_translation :
  ok (translate_chord 64 (c_str "\")) = true /\
  ok (translate_chord 64 (c_str "ab\")) = true /\
  translate (c_str "ab\") = None /\
  forall (cfg : Binder.config) b backend id,
    Binder.bind b (c_str "ab\") backend id = None.
Proof.
  split; [reflexivity|]. split; [reflexivity|]. split; [reflexivity|].
  intros cfg b backend id. reflexivity.
Qed.

(** C9 (the code departs from the claim): the terminating store is not
    always inside the array.  For the text ["\"] the only store of
    [translate_chord] is [out[65] = '\0'], past the end of [char out[64]];
    for ["ab\"] the stores at 0 and 1 are followed by the same store at
    65. *)
Theorem terminator_store_out_of_bounds :
  stores (translate_chord 64 (c_str "\")) = [(65, 0)] /\
  stores (translate_chord 64 (c_str "ab\")) = [(0, 97); (1, 98); (65, 0)] /\
  in_bounds 64 (65, 0) = false.
Proof. split; [reflexivity|]. split; reflexivity. Qed.
End ChordFacts.

(** * More on the chord translator *)

Module ChordMore.
Import Chord ChordFacts.

Lemma indexed_app s t : forall i,
  indexed i (s ++ t) = indexed i s ++ indexed (i + Z.of_nat (List.length s)) t.
Proof.
  induction s as [|c s IH]; intros i; simpl.
  - by rewrite Z.add_0_r.
  - rewrite IH. do 3 f_equal. lia.
Qed.

Lemma malformed_cons c chord : malformed chord -> malformed (c :: chord).
Proof.
  intros (pre & d & rest & -> & Hd & Hr). by exists (c :: pre), d, rest.
Qed.

Lemma land_31_ascii c : ascii_byte (Z.land c 31).
Proof.
  unfold ascii_byte. change 31 with (Z.ones 5). rewrite Z.land_ones by lia.
  pose proof (Z.mod_pos_bound c (2 ^ 5) ltac:(lia)).
  change (2 ^ 5) with 32 in *. lia.
Qed.

Lemma escape_ascii d : ascii_byte d -> ascii_byte (escape d).
Proof.
  unfold escape, ascii_byte. intros Hd.
  repeat match goal with |- context [if ?c then _ else _] => destruct c end; lia.
Qed.

(** What the loop leaves: the stores it adds are those of a sequence of
    bytes at consecutive indices from [i] on; it ends with the counter after
    them, inside the array, or with [SIZE + 1] after a backslash at the end
    of the text; it returns [false] only for a malformed text. *)
Lemma translate_loop_shape SIZE n : forall chord i out,
  (List.length chord <= n)%nat -> 0 <= i <= SIZE - 1 ->
  exists bytes,
    snd (translate_loop SIZE i chord out) = out ++ indexed i bytes /\
    (fst (fst (translate_loop SIZE i chord out)) = true ->
     (snd (fst (translate_loop SIZE i chord out))
        = i + Z.of_nat (List.length bytes) /\
      i + Z.of_nat (List.length bytes) <= SIZE - 1) \/
     (snd (fst (translate_loop SIZE i chord out)) = SIZE + 1 /\
      last chord = Some ch_backslash)) /\
    (fst (fst (translate_loop SIZE i chord out)) = false -> malformed chord) /\
    (Forall ascii_byte chord -> Forall ascii_byte bytes).
Proof.
  induction n as [|n IH]; intros chord i out Hn Hi.
  { destruct chord; [|simpl in Hn; lia]. exists []. simpl.
    destruct (i <? SIZE - 1); simpl; rewrite app_nil_r;
      (split; [done|]); (split; [intros _; left; lia|]); done. }
  assert (Hstop : forall c0 : list char,
            exists bytes,
              snd (true, i, out) = out ++ indexed i bytes /\
              (fst (fst (true, i, out)) = true ->
               (snd (fst (true, i, out)) = i + Z.of_nat (List.length bytes) /\
                i + Z.of_nat (List.length bytes) <= SIZE - 1) \/
               (snd (fst (true, i, out)) = SIZE + 1 /\
                last c0 = Some ch_backslash)) /\
              (fst (fst (true, i, out)) = false -> malformed c0) /\
              (Forall ascii_byte c0 -> Forall ascii_byte bytes)).
  { intros c0. exists []. simpl. rewrite app_nil_r. split; [done|].
    split; [intros _; left; lia|]. done. }
  (* one byte [v] stored at [i], then the loop on a shorter text *)
  assert (Hstep : forall (v : char) (chord' full : list char),
            (List.length chord' <= n)%nat -> i < SIZE - 1 ->
            (forall x, last chord' = Some x -> last full = Some x) ->
            (malformed chord' -> malformed full) ->
            (Forall ascii_byte full -> ascii_byte v /\ Forall ascii_byte chord') ->
            exists bytes,
              snd (translate_loop SIZE (i + 1) chord' (out ++ [(i, v)]))
                = out ++ indexed i bytes /\
              (fst (fst (translate_loop SIZE (i + 1) chord' (out ++ [(i, v)])))
                 = true ->
               (snd (fst (translate_loop SIZE (i + 1) chord' (out ++ [(i, v)])))
                  = i + Z.of_nat (List.length bytes) /\
                i + Z.of_nat (List.length bytes) <= SIZE - 1) \/
               (snd (fst (translate_loop SIZE (i + 1) chord' (out ++ [(i, v)])))
                  = SIZE + 1 /\
                last full = Some ch_backslash)) /\
              (fst (fst (translate_loop SIZE (i + 1) chord' (out ++ [(i, v)])))
                 = false -> malformed full) /\
              (Forall ascii_byte full -> Forall ascii_byte bytes)).
  { intros v chord' full Hlen Hlt Hlast Hmal Hasc.
    destruct (IH chord' (i + 1) (out ++ [(i, v)]) Hlen ltac:(lia))
      as (bytes & Hout & Hok & Hbad & Hbytes).
    exists (v :: bytes). split.
    { rewrite Hout, <- app_assoc. done. }
    split.
    { intros Ht. destruct (Hok Ht) as [[Hc Hb] | [Hc Hl]].
      - left. cbn [List.length]. lia.
      - right. split; [done|]. by apply Hlast. }
    split; [intros Hf; by apply Hmal, Hbad|].
    intros Hall. destruct (Hasc Hall) as [Hv Hrest].
    constructor; [done|]. by apply Hbytes. }
  destruct chord as [|c chord1]; cbn [translate_loop].
  { destruct (negb (i <? SIZE - 1)); apply Hstop. }
  destruct (Z.ltb_spec i (SIZE - 1)) as [Hlt | Hge]; cbn [negb];
    [|apply Hstop].
  simpl in Hn.
  assert (Hlast1 : forall x, last chord1 = Some x -> last (c :: chord1) = Some x).
  { intros x Hx. destruct chord1; [done|]. by rewrite last_cons_cons. }
  destruct (negb (c =? ch_backslash) && negb (c =? ch_caret)) eqn:Hplain.
  { apply Hstep; [lia | done | done | apply malformed_cons |].
    intros Hall. by inversion Hall. }
  destruct (c =? ch_caret) eqn:Hcaret.
  { apply Hstep; [lia | done | done | apply malformed_cons |].
    intros Hall. inversion Hall. split; [apply land_31_ascii | done]. }
  destruct (Z.eqb_spec c ch_backslash) as [Hc | Hc]; [subst c | done].
  clear Hplain Hcaret.
  destruct chord1 as [|d chord2].
  { rewrite translate_loop_nil. exists []. simpl. rewrite app_nil_r.
    split; [done|]. split; [intros _; by right|]. done. }
  simpl in Hn.
  assert (Hlast2 : forall x,
            last chord2 = Some x ->
            last (ch_backslash :: d :: chord2) = Some x).
  { intros x Hx. destruct chord2; [done|]. by rewrite !last_cons_cons. }
  assert (Hbad : forall chord2,
            head chord2 <> Some ch_dash -> d = 77 \/ d = 67 ->
            exists bytes,
              snd (false, i, out) = out ++ indexed i bytes /\
              (fst (fst (false, i, out)) = true ->
               (snd (fst (false, i, out)) = i + Z.of_nat (List.length bytes) /\
                i + Z.of_nat (List.length bytes) <= SIZE - 1) \/
               (snd (fst (false, i, out)) = SIZE + 1 /\
                last (ch_backslash :: d :: chord2) = Some ch_backslash)) /\
              (fst (fst (false, i, out)) = false ->
               malformed (ch_backslash :: d :: chord2)) /\
              (Forall ascii_byte (ch_backslash :: d :: chord2) ->
               Forall ascii_byte bytes)).
  { intros c2 Hhd Hd. exists []. simpl. rewrite app_nil_r. split; [done|].
    split; [done|]. split; [|done]. intros _. by exists [], d, c2. }
  assert (Hdash : forall v e chord3,
            chord2 = e :: chord3 ->
            (Forall ascii_byte (ch_backslash :: d :: chord2) -> ascii_byte v) ->
            exists bytes,
              snd (translate_loop SIZE (i + 1) chord3 (out ++ [(i, v)]))
                = out ++ indexed i bytes /\
              (fst (fst (translate_loop SIZE (i + 1) chord3 (out ++ [(i, v)])))
                 = true ->
               (snd (fst (translate_loop SIZE (i + 1) chord3 (out ++ [(i, v)])))
                  = i + Z.of_nat (List.length bytes) /\
                i + Z.of_nat (List.length bytes) <= SIZE - 1) \/
               (snd (fst (translate_loop SIZE (i + 1) chord3 (out ++ [(i, v)])))
                  = SIZE + 1 /\
                last (ch_backslash :: d :: chord2) = Some ch_backslash)) /\
              (fst (fst (translate_loop SIZE (i + 1) chord3 (out ++ [(i, v)])))
                 = false -> malformed (ch_backslash :: d :: chord2)) /\
              (Forall ascii_byte (ch_backslash :: d :: chord2) ->
               Forall ascii_byte bytes)).
  { intros v e chord3 -> Hv. simpl in Hn. apply Hstep; [lia | done | | |].
    - intros x Hx. apply Hlast2. destruct chord3; [done|].
      by rewrite last_cons_cons.
    - intros Hm. by do 3 apply malformed_cons.
    - intros Hall. split; [by apply Hv|].
      inversion Hall as [|? ? _ Hall1]. inversion Hall1 as [|? ? _ Hall2].
      by inversion Hall2. }
  destruct (Z.eqb_spec d 77) as [Hd | Hd].
  { destruct chord2 as [|e chord3]; [apply Hbad; [done | by left]|].
    destruct (Z.eqb_spec e ch_dash) as [He | He]; cbn [negb].
    - by apply (Hdash 27 e chord3).
    - apply Hbad; [|by left]. simpl. congruence. }
  destruct (Z.eqb_spec d 67) as [Hd' | Hd'].
  { destruct chord2 as [|e chord3]; [apply Hbad; [done | by right]|].
    destruct (Z.eqb_spec e ch_dash) as [He | He]; cbn [negb].
    - apply (Hdash (Z.land e 31) e chord3); [done|].
      intros _. apply land_31_ascii.
    - apply Hbad; [|by right]. simpl. congruence. }
  apply Hstep; [lia | done | done | |].
  - intros Hm. by do 2 apply malformed_cons.
  - intros Hall. inversion Hall as [|? ? _ Hall1].
    inversion Hall1 as [|? ? Hdd Hall2]. split; [by apply escape_ascii | done].
Qed.


(** ** The array after the stores *)

Lemma fold_indexed (t : list char) : forall (k : nat) (arr : list (option char)),
  (k + List.length t <= List.length arr)%nat ->
  fold_left (fun arr (s : store) => <[Z.to_nat (fst s) := Some (snd s)]> arr)
            (indexed (Z.of_nat k) t) arr
  = take k arr ++ (Some <$> t) ++ drop (k + List.length t) arr.
Proof.
  induction t as [|c t IH]; intros k arr Hlen.
  - simpl. by rewrite Nat.add_0_r, take_drop.
  - cbn [indexed fold_left List.length fst snd] in *.
    replace (Z.of_nat k + 1) with (Z.of_nat (S k)) by lia.
    rewrite IH by (rewrite length_insert; lia).
    rewrite Nat2Z.id.
    rewrite (take_S_r _ k (Some c))
      by (apply list_lookup_insert_eq; lia).
    rewrite take_insert_ge by lia.
    rewrite drop_insert_lt by lia.
    rewrite <- app_assoc. cbn [fmap list_fmap app].
    by rewrite Nat.add_succ_r.
Qed.

Lemma out_array_indexed (bytes : list char) :
  (List.length bytes <= 63)%nat ->
  out_array 64 (indexed 0 bytes ++ [(Z.of_nat (List.length bytes), 0)])
  = (Some <$> bytes) ++ Some 0 :: replicate (63 - List.length bytes) None.
Proof.
  intros Hlen. unfold out_array. rewrite fold_left_app.
  rewrite (fold_indexed bytes 0)
    by (rewrite length_replicate; change (Z.to_nat 64) with 64%nat; lia).
  cbn [fold_left fst snd Nat.add]. rewrite Nat2Z.id, take_0.
  cbn [app]. rewrite insert_app_r_alt by (rewrite length_fmap; lia).
  rewrite length_fmap, Nat.sub_diag, drop_replicate.
  change (Z.to_nat 64) with 64%nat.
  replace (64 - List.length bytes)%nat with (S (63 - List.length bytes)) by lia.
  done.
Qed.

Lemma c_string_of_terminated (bytes : list char) rest :
  c_string_of ((Some <$> bytes) ++ Some 0 :: rest) = Some (c_string bytes).
Proof.
  induction bytes as [|c bytes IH]; [done|].
  cbn [fmap list_fmap app c_string_of c_string].
  change (list_fmap char (option char) Some bytes) with (Some <$> bytes).
  destruct (c =? 0); [done|]. by rewrite IH.
Qed.

Lemma c_string_length a : (List.length (c_string a) <= List.length a)%nat.
Proof.
  induction a as [|c a IH]; simpl; [lia|]. destruct (c =? 0); simpl; lia.
Qed.

Lemma c_string_Forall (P : char -> Prop) a :
  Forall P a -> Forall P (c_string a).
Proof.
  induction 1 as [|c a Hc Ha IH]; simpl; [done|].
  destruct (c =? 0); by constructor.
Qed.

Lemma c_string_nonzero a : Forall (fun c => c <> 0) (c_string a).
Proof.
  induction a as [|c a IH]; simpl; [done|].
  destruct (Z.eqb_spec c 0); by constructor.
Qed.

Lemma c_string_id a : Forall (fun c => c <> 0) a -> c_string a = a.
Proof.
  induction 1 as [|c a Hc Ha IH]; simpl; [done|].
  destruct (Z.eqb_spec c 0); [done|]. by rewrite IH.
Qed.

Lemma indexed_in_bounds SIZE (t : list char) : forall i,
  0 <= i -> i + Z.of_nat (List.length t) <= SIZE ->
  forallb (in_bounds SIZE) (indexed i t) = true.
Proof.
  induction t as [|c t IH]; intros i H0 Hi; [done|].
  cbn [indexed forallb List.length] in *. rewrite IH by lia.
  unfold in_bounds. cbn [fst].
  destruct (Z.leb_spec 0 i); [|lia]. destruct (Z.ltb_spec i SIZE); [done|lia].
Qed.

(** ** The three ways a translation ends *)

Lemma translate_cases chord : translation chord.
Proof.
  destruct (translate_loop_shape 64 (List.length chord) chord 0 [])
    as (bytes & Hout & Hok & Hbad & Hasc); [lia | lia |].
  destruct (translate_loop_bounds 64 (List.length chord) chord 0 [])
    as [Hb _]; [lia | lia | done |].
  destruct (translate_loop 64 0 chord []) as [[okb i] out] eqn:Hloop.
  cbn [fst snd app] in *. subst out. destruct okb.
  - destruct (Hok eq_refl) as [[Hi Hlen] | [Hi Hlast]]; subst i.
    + assert (Hch : translate_chord 64 chord =
                {| ok := true;
                   stores := indexed 0 bytes
                             ++ [(Z.of_nat (List.length bytes), 0)] |}).
      { unfold translate_chord. by rewrite Hloop. }
      apply (translation_true chord bytes); [lia | done | done |].
      unfold translate. rewrite Hch.
      cbn [ok stores]. rewrite forallb_app, Hb.
      unfold in_bounds. cbn [forallb andb fst].
      destruct (Z.leb_spec 0 (Z.of_nat (List.length bytes))); [|lia].
      destruct (Z.ltb_spec (Z.of_nat (List.length bytes)) 64); [|lia].
      cbn [negb andb]. rewrite out_array_indexed by lia.
      by rewrite c_string_of_terminated.
    + apply translation_overrun; [done|].
      unfold translate, translate_chord. rewrite Hloop.
      cbn [ok stores]. rewrite forallb_app, Hb. done.
  - apply translation_false; [by apply Hbad|].
    unfold translate, translate_chord. rewrite Hloop.
    cbn [ok stores]. by rewrite Hb.
Qed.

(** The keys of a text of ASCII bytes are ASCII bytes. *)
Lemma translate_ascii chord keys :
  translate chord = Some (Some keys) ->
  Forall ascii_byte chord -> Forall ascii_byte keys.
Proof.
  intros Ht Hc.
  destruct (translate_cases chord) as [_ H | bytes _ Hasc _ H | _ H];
    rewrite H in Ht; [done | | done].
  injection Ht as <-. by apply c_string_Forall, Hasc.
Qed.

(** The translation is defined for a text that does not end in a
    backslash. *)
Lemma translate_defined chord :
  last chord <> Some ch_backslash -> translate chord <> None.
Proof.
  intros Hlast Ht.
  destruct (translate_cases chord) as [_ Hf | bytes _ _ _ Hs | Hl _];
    [congruence | congruence | done].
Qed.

(** X1.  The keys of a translated chord: at most 63 bytes, none of them a
    NUL, and all of them in the ASCII range when the bytes of the text
    are. *)
Theorem translated_keys_fit chord keys :
  translate chord = Some (Some keys) ->
  (List.length keys <= 63)%nat /\
  Forall (fun c => c <> 0) keys /\
  (Forall ascii_byte chord -> Forall ascii_byte keys).
Proof.
  intros Ht. split; [|split; [|by apply translate_ascii]];
    destruct (translate_cases chord) as [_ H | bytes Hlen _ _ H | _ H];
    rewrite H in Ht; try done; injection Ht as <-.
  - pose proof (c_string_length bytes). lia.
  - apply c_string_nonzero.
Qed.

Lemma translated_keys_fit_witness :
  translate (c_str "\e[A") = Some (Some [27; 91; 65]) /\
  (List.length [27; 91; 65] <= 63)%nat /\
  Forall (fun c => c <> 0) [27; 91; 65] /\
  (Forall ascii_byte (c_str "\e[A") -> Forall ascii_byte [27; 91; 65]).
Proof.
  split; [reflexivity|].
  apply (translated_keys_fit (c_str "\e[A") [27; 91; 65]). reflexivity.
Defined.

(** X2.  [translate_chord] returns [false] only for a text with a [\M] or a
    [\C] that no dash follows. *)
Theorem translation_fails_only_when_malformed chord :
  translate chord = Some None -> malformed chord.
Proof.
  intros Ht. destruct (translate_cases chord) as [Hm _ | bytes _ _ _ H | _ H];
    [done | by rewrite H in Ht | by rewrite H in Ht].
Qed.

Lemma translation_fails_only_when_malformed_witness :
  translate (c_str "a\Mx") = Some None /\ malformed (c_str "a\Mx").
Proof.
  split; [reflexivity|].
  apply (translation_fails_only_when_malformed (c_str "a\Mx")). reflexivity.
Defined.

(** X3.  A store outside the array happens only for a text whose last byte is
    a backslash. *)
Theorem overrun_only_after_trailing_backslash chord :
  translate chord = None -> last chord = Some ch_backslash.
Proof.
  intros Ht. destruct (translate_cases chord) as [_ H | bytes _ _ _ H | Hl _];
    [by rewrite H in Ht | by rewrite H in Ht | done].
Qed.

Lemma overrun_only_after_trailing_backslash_witness :
  translate (c_str "ab\") = None /\ last (c_str "ab\") = Some ch_backslash.
Proof.
  split; [reflexivity|].
  apply (overrun_only_after_trailing_backslash (c_str "ab\")). reflexivity.
Defined.

(** The loop on a plain text that fits, with the stores it performs. *)
Lemma translate_loop_plain_stores SIZE s : forall i rest out,
  Forall plain s -> i + Z.of_nat (List.length s) <= SIZE - 1 ->
  translate_loop SIZE i (s ++ rest) out =
  translate_loop SIZE (i + Z.of_nat (List.length s)) rest (out ++ indexed i s).
Proof.
  induction s as [|c s IH]; intros i rest out Hs Hi.
  - simpl. by rewrite Z.add_0_r, app_nil_r.
  - inversion Hs as [|? ? Hc Hs']; subst.
    cbn [List.length] in Hi. rewrite Nat2Z.inj_succ in Hi.
    cbn [app]. rewrite translate_loop_plain1 by (done || lia).
    rewrite IH by (done || lia). cbn [indexed List.length].
    rewrite <- app_assoc.
    replace (i + Z.of_nat (S (List.length s)))
      with (i + 1 + Z.of_nat (List.length s)) by lia.
    done.
Qed.

Lemma translate_loop_full SIZE chord out :
  translate_loop SIZE (SIZE - 1) chord out = (true, SIZE - 1, out).
Proof.
  destruct chord; cbn [translate_loop];
    (destruct (Z.ltb_spec (SIZE - 1) (SIZE - 1)); [lia | done]).
Qed.

(** X4.  A text without backslash or caret translates to itself, cut to the
    63 bytes the array has room for. *)
Theorem plain_text_translates_to_itself (s : list char) :
  Forall plain s -> Forall (fun c => c <> 0) s ->
  translate s = Some (Some (take 63 s)).
Proof.
  intros Hp Hz.
  assert (Hloop : translate_loop 64 0 s [] =
                  (true, Z.of_nat (List.length (take 63 s)),
                   indexed 0 (take 63 s))).
  { rewrite <- (take_drop 63 s) at 1.
    rewrite translate_loop_plain_stores.
    - cbn [app Z.add]. rewrite length_take.
      destruct (Nat.le_gt_cases 63 (List.length s)) as [Hle | Hgt].
      + rewrite Nat.min_l by done. apply (translate_loop_full 64).
      + rewrite drop_ge by lia. by rewrite translate_loop_nil.
    - by apply Forall_take.
    - rewrite length_take. lia. }
  unfold translate, translate_chord. rewrite Hloop. cbn [ok stores].
  assert (Hlen : (List.length (take 63 s) <= 63)%nat)
    by (rewrite length_take; lia).
  rewrite forallb_app, (indexed_in_bounds 64) by lia.
  unfold in_bounds at 1. cbn [forallb fst andb].
  destruct (Z.leb_spec 0 (Z.of_nat (List.length (take 63 s)))); [|lia].
  destruct (Z.ltb_spec (Z.of_nat (List.length (take 63 s))) 64); [|lia].
  cbn [negb andb]. rewrite out_array_indexed by done.
  rewrite c_string_of_terminated. cbn [option_map].
  by rewrite c_string_id by (by apply Forall_take).
Qed.

Lemma plain_text_translates_to_itself_witness :
  translate (c_str "abc") = Some (Some (take 63 (c_str "abc"))).
Proof.
  apply (plain_text_translates_to_itself (c_str "abc")).
  - repeat constructor; done.
  - repeat constructor; done.
Defined.

(** X5.  After a plain prefix that leaves room, a [\M] or a [\C] that no dash
    follows makes [translate_chord] return [false]. *)
Theorem malformed_escape_fails (pre : list char) d rest :
  Forall plain pre -> (List.length pre <= 62)%nat ->
  d = 77 \/ d = 67 -> head rest <> Some ch_dash ->
  translate (pre ++ ch_backslash :: d :: rest) = Some None.
Proof.
  intros Hp Hlen Hd Hr.
  assert (Hloop : translate_loop 64 0 (pre ++ ch_backslash :: d :: rest) [] =
                  (false, Z.of_nat (List.length pre), indexed 0 pre)).
  { rewrite translate_loop_plain_stores by (done || lia).
    rewrite Z.add_0_l, app_nil_l. cbn [translate_loop].
    destruct (Z.ltb_spec (Z.of_nat (List.length pre)) (64 - 1)); [|lia].
    cbn [negb]. change (ch_backslash =? ch_backslash) with true.
    change (ch_backslash =? ch_caret) with false. cbn [negb andb].
    destruct Hd as [-> | ->]; cbv beta iota;
      [change (77 =? 77) with true
      |change (67 =? 77) with false; change (67 =? 67) with true];
      cbv iota;
      (destruct rest as [|e rest]; [done|]);
      (destruct (Z.eqb_spec e ch_dash) as [-> | _];
         [exfalso; by apply Hr | done]). }
  unfold translate, translate_chord. rewrite Hloop. cbn [ok stores].
  by rewrite (indexed_in_bounds 64) by lia.
Qed.

Lemma malformed_escape_fails_witness :
  translate (c_str "ab" ++ ch_backslash :: 67 :: c_str "x") = Some None.
Proof.
  apply (malformed_escape_fails (c_str "ab") 67 (c_str "x")).
  - repeat constructor; done.
  - simpl. lia.
  - by right.
  - simpl. discriminate.
Defined.

End ChordMore.

(** * Properties of the binder *)

Module BinderFacts.
Import Binder Resolver BinderResolve.

Section Graph.
Context `{config}.
Hypothesis sentinal_outside : (nodes_size <= sentinal)%nat.
Local Open Scope nat_scope.

Lemma node_use_eqb_eq a b : node_use_eqb a b = true <-> a = b.
Proof. destruct a, b; simpl; split; congruence. Qed.

Lemma node_use_eqb_neq a b : node_use_eqb a b = false <-> a <> b.
Proof. destruct a, b; simpl; split; congruence. Qed.

Lemma get_node_lt i : i < sentinal -> get_node i = Some i.
Proof.
  intros Hi. unfold get_node. destruct (Nat.ltb_spec i sentinal); [done | lia].
Qed.

Lemma get_node_sentinal : get_node sentinal = None.
Proof. unfold get_node. rewrite Nat.ltb_irrefl. done. Qed.

Lemma get_node_Some i c : get_node i = Some c -> c = i /\ i < sentinal.
Proof.
  unfold get_node. destruct (Nat.ltb_spec i sentinal); [|done].
  intros [= <-]. done.
Qed.

(** *** Loads and stores *)

Lemma load_arena b i : load b (arena_ref i) = m_nodes b !! i.
Proof. reflexivity. Qed.

Lemma store_Some b r n :
  ord r <= Datatypes.length (m_nodes b) -> is_Some (store b r n).
Proof.
  destruct r as [|i]; simpl; intros Hr; [eauto|].
  destruct (Nat.ltb_spec i (Datatypes.length (m_nodes b))); [eauto | lia].
Qed.

Lemma store_fields b r n b' :
  store b r n = Some b' ->
  m_next_node b' = m_next_node b /\ m_backends b' = m_backends b /\
  Datatypes.length (m_nodes b') = Datatypes.length (m_nodes b).
Proof.
  destruct r as [|i]; simpl.
  - intros [= <-]. done.
  - destruct (i <? _); [|done]. intros [= <-]. simpl.
    by rewrite length_insert.
Qed.

Lemma load_store_eq b r n b' : store b r n = Some b' -> load b' r = Some n.
Proof.
  destruct r as [|i]; simpl.
  - intros [= <-]. done.
  - destruct (Nat.ltb_spec i (Datatypes.length (m_nodes b))); [|done].
    intros [= <-]. simpl. by apply list_lookup_insert_eq.
Qed.

Lemma load_store_ne b r n b' r' :
  store b r n = Some b' -> r' <> r -> load b' r' = load b r'.
Proof.
  destruct r as [|i]; simpl.
  - intros [= <-] Hne. destruct r'; [done|]. done.
  - destruct (i <? _); [|done]. intros [= <-] Hne.
    destruct r' as [|j]; [done|]. simpl.
    apply list_lookup_insert_ne. congruence.
Qed.

Lemma load_allocated par b r :
  wf_par par b -> allocated b r -> is_Some (load b r).
Proof.
  intros Hwf Hr. destruct r as [|i]; simpl; [eauto|].
  apply lookup_lt_is_Some. unfold allocated in Hr. simpl in Hr.
  pose proof (wf_size _ _ Hwf). pose proof (wf_next _ _ Hwf). lia.
Qed.

Lemma wf_chained par b : wf_par par b -> chained (m_next_node b) b.
Proof.
  intros Hwf i x Hi Hx. destruct (wf_node _ _ Hwf i x Hi Hx) as [_ [?|[? _]]]; auto.
Qed.

(** *** Looking up a child *)

(** The walk along a chain of siblings sees only keys and sibling links. *)
Lemma find_sibling_frame n b b' k :
  n <= sentinal -> chained n b -> same_links n b b' ->
  forall fuel i, i < fuel -> i < n ->
    find_sibling fuel b' (Some i) k = find_sibling fuel b (Some i) k.
Proof.
  intros Hn Hch Hsame. induction fuel as [|fuel IH]; intros i Hf Hi; [lia|].
  destruct (Hsame i Hi) as (x & x' & Hx & Hx' & Hk & Hs).
  simpl. rewrite Hx, Hx'. simpl. rewrite Hk, Hs.
  destruct (key x =? k)%Z; [done|].
  destruct (Hch i x Hi Hx) as [-> | Hlt].
  - rewrite get_node_sentinal. destruct fuel; done.
  - rewrite get_node_lt by lia. apply IH; lia.
Qed.

(** In a well-formed graph the walk returns, and what it finds is a child of
    the same parent with the key looked for. *)
Lemma find_sibling_wf par b k :
  wf_par par b ->
  forall fuel i, i < fuel -> i < m_next_node b ->
    exists r, find_sibling fuel b (Some i) k = Some r /\
      forall c, r = Some c ->
        c <= i /\ par c = par i /\
        exists x, m_nodes b !! c = Some x /\ key x = k.
Proof.
  intros Hwf. induction fuel as [|fuel IH]; intros i Hf Hi; [lia|].
  destruct (load_allocated par b (arena_ref i) Hwf) as [x Hx];
    [unfold allocated; simpl; lia|]. simpl in Hx.
  simpl. rewrite Hx. simpl.
  pose proof (wf_next _ _ Hwf) as Hnext.
  destruct (Z.eqb_spec (key x) k) as [Hk | Hk].
  - eexists; split; [done|]. intros c [= <-]. split; [lia|]. eauto.
  - destruct (wf_node _ _ Hwf i x Hi Hx) as [_ [Hs | [Hlt Hp]]].
    + rewrite Hs, get_node_sentinal. exists None.
      split; [by destruct fuel|]. done.
    + rewrite get_node_lt by lia.
      destruct (IH (sibling x)) as (r & Hr & Hc); [lia | lia |].
      exists r. split; [done|]. intros c Hrc.
      destruct (Hc c Hrc) as (? & ? & ?).
      split; [lia|]. split; [congruence | done].
Qed.

Lemma find_child_wf par b p k :
  wf_par par b -> allocated b p ->
  exists r, find_child b p k = Some r /\
    forall c, r = Some c ->
      c < m_next_node b /\ par c = p /\
      (exists n, load b p = Some n /\ usage n = node_use_parent) /\
      exists x, m_nodes b !! c = Some x /\ key x = k.
Proof.
  intros Hwf Hp. destruct (load_allocated _ _ _ Hwf Hp) as [n Hn].
  unfold find_child. rewrite Hn. simpl.
  pose proof (wf_next _ _ Hwf) as Hnext.
  destruct (node_use_eqb (usage n) node_use_parent) eqn:Hu.
  - apply node_use_eqb_eq in Hu.
    destruct (wf_parent _ _ Hwf p n Hp Hn Hu) as [Hlt Hpar].
    rewrite get_node_lt by lia.
    destruct (find_sibling_wf par b k Hwf (S sentinal) (id_or_child n))
      as (r & Hr & Hc); [lia | lia |].
    exists r. split; [done|]. intros c Hrc.
    destruct (Hc c Hrc) as (? & ? & ?).
    split; [lia|]. split; [congruence|]. split; [eauto | done].
  - exists None. split; [done|]. done.
Qed.

(** A found child is allocated, and after its parent. *)
Lemma find_child_ord par b p k c :
  wf_par par b -> allocated b p -> find_child b p k = Some (Some c) ->
  ord p < ord (arena_ref c) /\ allocated b (arena_ref c).
Proof.
  intros Hwf Hp Hf.
  destruct (find_child_wf par b p k Hwf Hp) as (r & Hr & Hc).
  rewrite Hf in Hr. injection Hr as <-.
  destruct (Hc c eq_refl) as (Hlt & Hpar & _ & x & Hx & _).
  destruct (wf_node _ _ Hwf c x Hlt Hx) as [Hord _].
  rewrite Hpar in Hord. unfold allocated. simpl. lia.
Qed.

(** [find_child] sees the parent, and the keys and sibling links of the
    allocated nodes. *)
Lemma find_child_frame par b b' p k :
  wf_par par b -> allocated b p ->
  load b' p = load b p -> same_links (m_next_node b) b b' ->
  find_child b' p k = find_child b p k.
Proof.
  intros Hwf Hp Hload Hsame. unfold find_child. rewrite Hload.
  destruct (load b p) as [n|] eqn:Hn; [|done]. cbn -[find_sibling].
  pose proof (wf_next _ _ Hwf) as Hnext.
  destruct (node_use_eqb (usage n) node_use_parent) eqn:Hu; [|done].
  apply node_use_eqb_eq in Hu.
  destruct (wf_parent _ _ Hwf p n Hp Hn Hu) as [Hlt _].
  rewrite get_node_lt by lia.
  apply (find_sibling_frame (m_next_node b)); [lia | | done | lia | done].
  by apply (wf_chained par).
Qed.

(** *** Adding a child *)

Lemma add_child_full b p k :
  nodes_size <= m_next_node b -> add_child b p k = Some (b, None).
Proof.
  intros Hfull. unfold add_child, alloc_node.
  destruct (Nat.ltb_spec (m_next_node b) nodes_size); [lia|].
  by rewrite Nat.eqb_refl.
Qed.

Lemma add_child_fresh par b p k :
  wf_par par b -> allocated b p -> m_next_node b < nodes_size ->
  exists b',
    add_child b p k = Some (b', Some (m_next_node b)) /\
    wf_par (par_add par (m_next_node b) p) b' /\
    m_next_node b' = S (m_next_node b) /\
    m_backends b' = m_backends b /\
    same_links (m_next_node b) b b' /\
    (forall r, allocated b r -> r <> p -> load b' r = load b r) /\
    (exists n', load b' (arena_ref (m_next_node b)) = Some n' /\
                usage n' = node_use_none) /\
    (exists m, load b' p = Some m /\ usage m = node_use_parent) /\
    find_child b' p k = Some (Some (m_next_node b)).
Proof.
  intros Hwf Hp Hlt.
  pose proof (wf_size _ _ Hwf) as Hsize.
  destruct (load_allocated _ _ _ Hwf Hp) as [n Hn].
  remember (m_next_node b) as idx eqn:Hidx.
  pose (b1 := {| m_root := m_root b; m_nodes := m_nodes b;
                 m_next_node := S idx; m_backends := m_backends b |}).
  pose (new := {| key := k;
                  sibling := if node_use_eqb (usage n) node_use_parent
                             then id_or_child n else sentinal;
                  usage := node_use_none; id_or_child := 0; backend := 0 |}).
  pose (p' := {| key := key n; sibling := sibling n;
                 usage := node_use_parent; id_or_child := idx;
                 backend := backend n |}).
  assert (Hn1 : load b1 p = Some n) by (destruct p; exact Hn).
  destruct (store_Some b1 (arena_ref idx) new) as [b2 Hb2]; [simpl; lia|].
  assert (Hpne : p <> arena_ref idx).
  { intros ->. unfold allocated in Hp. simpl in Hp. lia. }
  assert (Hn2 : load b2 p = Some n).
  { by rewrite (load_store_ne _ _ _ _ _ Hb2 Hpne). }
  destruct (store_fields _ _ _ _ Hb2) as (Hnx2 & Hbk2 & Hlen2).
  destruct (store_Some b2 p p') as [b3 Hb3].
  { rewrite Hlen2. simpl. unfold allocated in Hp. lia. }
  destruct (store_fields _ _ _ _ Hb3) as (Hnx3 & Hbk3 & Hlen3).
  assert (Hlp : load b3 p = Some p') by exact (load_store_eq _ _ _ _ Hb3).
  assert (Hlnew : load b3 (arena_ref idx) = Some new).
  { rewrite (load_store_ne _ _ _ _ _ Hb3) by congruence.
    exact (load_store_eq _ _ _ _ Hb2). }
  assert (Hother : forall r, allocated b r -> r <> p -> load b3 r = load b r).
  { intros r Hr Hrp.
    rewrite (load_store_ne _ _ _ _ _ Hb3 Hrp).
    rewrite (load_store_ne _ _ _ _ _ Hb2).
    - by destruct r.
    - intros ->. unfold allocated in Hr. simpl in Hr. lia. }
  assert (Hlinks : forall i x, i < idx -> m_nodes b !! i = Some x ->
            exists x', m_nodes b3 !! i = Some x' /\ key x' = key x /\
                       sibling x' = sibling x /\
                       (arena_ref i <> p -> x' = x)).
  { intros i x Hi Hx.
    destruct (decide (arena_ref i = p)) as [<- | Hne].
    - exists p'. simpl in Hn. split; [exact Hlp|].
      assert (x = n) as -> by congruence. done.
    - exists x. rewrite <- (load_arena b3), Hother; [done | | done].
      unfold allocated. simpl. lia. }
  assert (Hnx : m_next_node b3 = S idx) by (rewrite Hnx3, Hnx2; done).
  exists b3.
  split; [|split; [|split; [|split; [|split; [|split; [|split; [|split]]]]]]].
  - unfold add_child, alloc_node. rewrite <- Hidx.
    destruct (Nat.ltb_spec idx nodes_size); [|lia].
    destruct (Nat.eqb_spec idx sentinal); [lia|].
    fold b1. rewrite Hn1. cbn [mbind option_bind].
    rewrite get_node_lt by lia. cbn [mbind option_bind].
    fold new. rewrite Hb2. cbn [mbind option_bind].
    rewrite Hn2. cbn [mbind option_bind].
    fold p'. rewrite Hb3. done.
  - constructor.
    + rewrite Hlen3, Hlen2. done.
    + rewrite Hnx. lia.
    + intros q m Hq Hm Hu. rewrite Hnx.
      destruct (decide (q = p)) as [-> | Hqp].
      * rewrite Hlp in Hm. injection Hm as <-. simpl.
        split; [lia|]. unfold par_add. by rewrite Nat.eqb_refl.
      * destruct (decide (q = arena_ref idx)) as [-> | Hqi].
        { rewrite Hlnew in Hm. injection Hm as <-. done. }
        assert (Hqa : allocated b q).
        { unfold allocated in *. rewrite Hnx in Hq.
          destruct q as [|j]; simpl in *; [lia|].
          assert (j <> idx) by congruence. lia. }
        rewrite Hother in Hm by done.
        destruct (wf_parent _ _ Hwf q m Hqa Hm Hu) as [Hc Hpar].
        split; [lia|].
        unfold par_add. destruct (Nat.eqb_spec (id_or_child m) idx); [lia|done].
    + intros i x Hi Hx. rewrite Hnx in Hi. unfold par_add.
      destruct (Nat.eqb_spec i idx) as [-> | Hne].
      * split; [unfold allocated in Hp; lia|].
        rewrite <- load_arena, Hlnew in Hx. injection Hx as <-. simpl.
        destruct (node_use_eqb (usage n) node_use_parent) eqn:Hu; [|by left].
        apply node_use_eqb_eq in Hu.
        destruct (wf_parent _ _ Hwf p n Hp Hn Hu) as [Hc Hpar].
        right. split; [lia|].
        destruct (Nat.eqb_spec (id_or_child n) idx); [lia | done].
      * assert (Hii : i < idx) by lia.
        destruct (lookup_lt_is_Some_2 (m_nodes b) i) as [x0 Hx0]; [lia|].
        destruct (Hlinks i x0 Hii Hx0) as (x' & Hx' & _ & Hs & _).
        assert (x' = x) as -> by congruence.
        rewrite Hidx in Hii.
        destruct (wf_node _ _ Hwf i x0 Hii Hx0) as [Hord [Hsent | [Hsl Hsp]]].
        { split; [done|]. left. congruence. }
        split; [done|]. right. rewrite Hs. split; [done|].
        destruct (Nat.eqb_spec (sibling x0) idx); [lia | done].
  - done.
  - rewrite Hbk3, Hbk2. done.
  - intros i Hi.
    destruct (lookup_lt_is_Some_2 (m_nodes b) i) as [x0 Hx0]; [lia|].
    destruct (Hlinks i x0 Hi Hx0) as (x' & Hx' & Hk & Hs & _).
    exists x0, x'. done.
  - done.
  - exists new. done.
  - exists p'. done.
  - unfold find_child. rewrite Hlp. cbn -[find_sibling].
    rewrite get_node_lt by lia. simpl.
    rewrite <- load_arena, Hlnew. simpl. by rewrite Z.eqb_refl.
Qed.

(** *** Walking and growing a chord *)

Lemma same_links_refl par b : wf_par par b -> same_links (m_next_node b) b b.
Proof.
  intros Hwf i Hi.
  destruct (load_allocated par b (arena_ref i) Hwf) as [x Hx];
    [unfold allocated; simpl; lia|].
  exists x, x. done.
Qed.

Lemma same_links_trans n n' b b1 b2 :
  n <= n' -> same_links n b b1 -> same_links n' b1 b2 -> same_links n b b2.
Proof.
  intros Hn H1 H2 i Hi.
  destruct (H1 i Hi) as (x & x1 & Hx & Hx1 & Hk1 & Hs1).
  destruct (H2 i ltac:(lia)) as (y1 & x2 & Hy1 & Hx2 & Hk2 & Hs2).
  assert (y1 = x1) as -> by congruence.
  exists x, x2. repeat split; congruence.
Qed.

Lemma grown_refl par b p : wf_par par b -> grown b b p.
Proof.
  intros Hwf. split; [lia|]. split; [done|]. split; [|done].
  apply (same_links_refl par b Hwf).
Qed.

Lemma insert_child_spec par b p k :
  wf_par par b -> allocated b p ->
  exists b' r,
    insert_child b p k = Some (b', r) /\
    (r = None -> b' = b) /\
    forall c, r = Some c ->
      (exists par', wf_par par' b') /\
      allocated b' (arena_ref c) /\ ord p < ord (arena_ref c) /\
      find_child b' p k = Some (Some c) /\
      m_next_node b <= m_next_node b' /\
      m_backends b' = m_backends b /\
      same_links (m_next_node b) b b' /\
      (forall r, allocated b r -> r <> p -> load b' r = load b r).
Proof.
  intros Hwf Hp. unfold insert_child.
  destruct (find_child_wf par b p k Hwf Hp) as (r & Hr & Hc).
  rewrite Hr. cbn [mbind option_bind]. destruct r as [c|].
  - exists b, (Some c). split; [done|]. split; [done|].
    intros c' [= <-].
    destruct (find_child_ord par b p k c Hwf Hp Hr) as [Hord Hall].
    split; [eauto|]. split; [done|]. split; [done|]. split; [done|].
    split; [lia|]. split; [done|]. split; [|done].
    apply (same_links_refl par b Hwf).
  - destruct (Nat.lt_ge_cases (m_next_node b) nodes_size) as [Hlt | Hge].
    + destruct (add_child_fresh par b p k Hwf Hp Hlt)
        as (b' & Hadd & Hwf' & Hnx & Hbk & Hlinks & Hoth & _ & _ & Hfind).
      exists b', (Some (m_next_node b)). split; [done|]. split; [done|].
      intros c [= <-]. split; [eauto|].
      unfold allocated in *. simpl. rewrite Hnx.
      split; [lia|]. split; [lia|]. split; [done|]. split; [lia|]. done.
    + exists b, None. split; [by apply add_child_full|]. done.
Qed.

Lemma bind_loop_spec keys : forall par b p,
  wf_par par b -> allocated b p ->
  exists b' r,
    bind_loop b (Some p) keys = Some (b', r) /\
    (exists par', wf_par par' b') /\
    grown b b' p /\
    forall f, r = Some f -> allocated b' f /\ path b' p keys f.
Proof.
  induction keys as [|k keys IH]; intros par b p Hwf Hp.
  - exists b, (Some p). split; [done|]. split; [eauto|].
    split; [by apply (grown_refl par)|]. intros f [= <-]. done.
  - destruct (insert_child_spec par b p k Hwf Hp) as (b1 & r1 & Hins & Hnone & Hsome).
    cbn [bind_loop]. rewrite Hins. cbn [mbind option_bind].
    destruct r1 as [c|]; cbn [fmap option_fmap option_map].
    + destruct (Hsome c eq_refl)
        as ((par1 & Hwf1) & Hc & Hord & Hfind & Hnx & Hbk & Hlinks & Hoth).
      destruct (IH par1 b1 (arena_ref c) Hwf1 Hc)
        as (b' & r & Hloop & Hwf' & (Hnx' & Hbk' & Hlinks' & Hbefore) & Hpath).
      exists b', r. split; [done|]. split; [done|]. split.
      * split; [lia|]. split; [congruence|]. split.
        { by apply (same_links_trans _ (m_next_node b1) b b1 b'). }
        intros r0 Hr0 Hlt. rewrite Hbefore.
        { apply Hoth; [done|]. intros ->. lia. }
        { unfold allocated in *. lia. }
        lia.
      * intros f Hf. destruct (Hpath f Hf) as [Hfa Hfp]. split; [done|].
        exists c. split; [|done]. rewrite <- Hfind.
        apply (find_child_frame par1); [done | | | done].
        { unfold allocated in *. lia. }
        apply Hbefore; [unfold allocated in *; lia | done].
    + rewrite (Hnone eq_refl). destruct keys; simpl.
      * exists b, None. split; [done|]. split; [eauto|].
        split; [by apply (grown_refl par)|]. done.
      * exists b, None. split; [done|]. split; [eauto|].
        split; [by apply (grown_refl par)|]. done.
Qed.

Lemma bind_loop_path b keys : forall p f,
  path b p keys f -> bind_loop b (Some p) keys = Some (b, Some f).
Proof.
  induction keys as [|k keys IH]; intros p f Hpath; simpl in *.
  - by subst.
  - destruct Hpath as (c & Hfind & Hpath). unfold insert_child.
    rewrite Hfind. cbn [mbind option_bind fmap option_fmap option_map].
    by apply IH.
Qed.

Lemma path_ord par b keys : forall p f,
  wf_par par b -> allocated b p -> path b p keys f ->
  ord p <= ord f /\ allocated b f /\ (keys <> [] -> ord p < ord f).
Proof.
  induction keys as [|k keys IH]; intros p f Hwf Hp Hpath; simpl in *.
  - subst. split; [lia|]. split; [done|]. congruence.
  - destruct Hpath as (c & Hfind & Hpath).
    destruct (find_child_ord par b p k c Hwf Hp Hfind) as [Hord Hc].
    destruct (IH _ _ Hwf Hc Hpath) as (Hle & Hf & _).
    split; [lia|]. split; [done|]. intros _. lia.
Qed.

(** A path is kept by a change that leaves alone the links and the nodes
    before its end. *)
Lemma path_frame par b b' keys : forall p f,
  wf_par par b -> allocated b p ->
  same_links (m_next_node b) b b' ->
  (forall r, allocated b r -> ord r < ord f -> load b' r = load b r) ->
  path b p keys f -> path b' p keys f.
Proof.
  induction keys as [|k keys IH]; intros p f Hwf Hp Hlinks Hbefore Hpath;
    simpl in *; [done|].
  destruct Hpath as (c & Hfind & Hpath).
  destruct (find_child_ord par b p k c Hwf Hp Hfind) as [Hord Hc].
  destruct (path_ord par b keys _ _ Hwf Hc Hpath) as (Hle & _ & _).
  exists c. split; [|by apply IH].
  rewrite <- Hfind. apply (find_child_frame par); [done | done | | done].
  apply Hbefore; [done | lia].
Qed.

(** *** Binders with the same node graph *)

Lemma load_same_graph b b' r : same_graph b b' -> load b' r = load b r.
Proof. intros (Hr & Hn & _). destruct r; simpl; congruence. Qed.

Lemma find_sibling_same_graph b b' k :
  same_graph b b' ->
  forall fuel child, find_sibling fuel b' child k = find_sibling fuel b child k.
Proof.
  intros (_ & Hn & _). induction fuel as [|fuel IH]; intros [i|]; simpl; try done.
  rewrite Hn. destruct (m_nodes b !! i) as [x|]; simpl; [|done].
  destruct (key x =? k)%Z; [done|]. apply IH.
Qed.

Lemma find_child_same_graph b b' p k :
  same_graph b b' -> find_child b' p k = find_child b p k.
Proof.
  intros Hg. unfold find_child. rewrite (load_same_graph b b' p Hg).
  destruct (load b p) as [n|]; cbn -[find_sibling]; [|done].
  by apply find_sibling_same_graph.
Qed.

Lemma path_same_graph b b' keys : forall p f,
  same_graph b b' -> path b p keys f -> path b' p keys f.
Proof.
  induction keys as [|k keys IH]; intros p f Hg Hpath; simpl in *; [done|].
  destruct Hpath as (c & Hfind & Hpath). exists c.
  rewrite (find_child_same_graph b b' p k Hg). split; [done|]. by apply IH.
Qed.

Lemma wf_same_graph par b b' :
  same_graph b b' -> wf_par par b -> wf_par par b'.
Proof.
  intros Hg Hwf. pose proof Hg as (Hr & Hn & Hx). constructor.
  - rewrite Hn. apply (wf_size _ _ Hwf).
  - rewrite Hx. apply (wf_next _ _ Hwf).
  - intros p n Hp Hl Hu. rewrite (load_same_graph b b' p Hg) in Hl.
    unfold allocated in Hp. rewrite Hx in *.
    by apply (wf_parent _ _ Hwf p n).
  - intros i x Hi Hl. rewrite Hx in Hi. rewrite Hn in Hl.
    by apply (wf_node _ _ Hwf).
Qed.

(** *** The backend table *)

Lemma index_of_Some x l : forall i j,
  index_of x l i = Some j -> exists j', j = i + j' /\ l !! j' = Some x.
Proof.
  induction l as [|y l IH]; intros i j; simpl; [done|].
  destruct (Nat.eqb_spec y x) as [-> | Hne].
  - intros [= <-]. exists 0. split; [lia | done].
  - intros Hj. destruct (IH _ _ Hj) as (j' & -> & Hl).
    exists (S j'). split; [lia | done].
Qed.

Lemma add_backend_spec b x b1 index :
  add_backend b x = (b1, index) ->
  same_graph b b1 /\
  (exists tail, m_backends b1 = m_backends b ++ tail) /\
  ((0 <= index)%Z -> m_backends b1 !! Z.to_nat index = Some x).
Proof.
  unfold add_backend.
  destruct (index_of x (m_backends b) 0) as [j|] eqn:Hj.
  - intros [= <- <-]. split; [done|]. split; [exists []; by rewrite app_nil_r|].
    intros _. rewrite Nat2Z.id.
    destruct (index_of_Some _ _ _ _ Hj) as (j' & -> & Hl). done.
  - destruct (_ <? _).
    + intros [= <- <-]. split; [done|]. simpl. split; [eauto|].
      intros _. rewrite Nat2Z.id. rewrite lookup_app_r by lia.
      by rewrite Nat.sub_diag.
    + intros [= <- <-]. split; [done|]. split; [exists []; by rewrite app_nil_r|].
      lia.
Qed.

(** *** The result of [bind] *)

(** Binding the final node keeps the graph well formed and the paths to that
    node. *)
Lemma store_bound par b f n n' b' :
  wf_par par b -> allocated b f -> load b f = Some n ->
  key n' = key n -> sibling n' = sibling n -> usage n' <> node_use_parent ->
  store b f n' = Some b' ->
  wf_par par b' /\ same_links (m_next_node b) b b' /\
  (forall r, r <> f -> load b' r = load b r) /\ load b' f = Some n'.
Proof.
  intros Hwf Hf Hn Hk Hs Hu Hst.
  destruct (store_fields _ _ _ _ Hst) as (Hnx & Hbk & Hlen).
  assert (Hoth : forall r, r <> f -> load b' r = load b r).
  { intros r Hr. by apply (load_store_ne _ _ _ _ _ Hst). }
  assert (Hlf : load b' f = Some n') by exact (load_store_eq _ _ _ _ Hst).
  assert (Hlinks : forall i x, i < m_next_node b -> m_nodes b !! i = Some x ->
            exists x', m_nodes b' !! i = Some x' /\ key x' = key x /\
                       sibling x' = sibling x).
  { intros i x Hi Hx. destruct (decide (arena_ref i = f)) as [<- | Hne].
    - exists n'. simpl in Hn. assert (x = n) as -> by congruence. done.
    - exists x. by rewrite <- load_arena, Hoth. }
  split; [|split; [|done]].
  - constructor.
    + rewrite Hlen. apply (wf_size _ _ Hwf).
    + rewrite Hnx. apply (wf_next _ _ Hwf).
    + intros p m Hp Hm Hum. unfold allocated in Hp. rewrite Hnx in *.
      destruct (decide (p = f)) as [-> | Hne]; [congruence|].
      rewrite Hoth in Hm by done. by apply (wf_parent _ _ Hwf p m).
    + intros i x Hi Hx. rewrite Hnx in Hi.
      destruct (lookup_lt_is_Some_2 (m_nodes b) i) as [x0 Hx0].
      { pose proof (wf_size _ _ Hwf). pose proof (wf_next _ _ Hwf). lia. }
      destruct (Hlinks i x0 Hi Hx0) as (x' & Hx' & _ & Hsx).
      assert (x' = x) as -> by congruence. rewrite Hsx.
      by apply (wf_node _ _ Hwf).
  - intros i Hi.
    destruct (lookup_lt_is_Some_2 (m_nodes b) i) as [x0 Hx0].
    { pose proof (wf_size _ _ Hwf). pose proof (wf_next _ _ Hwf). lia. }
    destruct (Hlinks i x0 Hi Hx0) as (x' & Hx' & ? & ?).
    exists x0, x'. done.
Qed.

Lemma wf_init garbage :
  Datatypes.length garbage = nodes_size -> wf (binder_init garbage).
Proof.
  intros Hlen. exists (fun _ => root_ref). constructor; simpl.
  - done.
  - lia.
  - intros p n Hp Hn Hu. unfold allocated in Hp. simpl in Hp.
    destruct p; simpl in *; [|lia]. injection Hn as <-. done.
  - intros i x Hi. lia.
Qed.

(** What [bind] leaves is well formed; when it returns [true], the keys of
    the chord lead from the root to a node bound to the backend and the id. *)
Lemma bind_inv b chord backend id r b' :
  wf b -> bind b chord backend id = Some (r, b') ->
  wf b' /\
  (r = true ->
   exists keys f n,
     Chord.translate chord = Some (Some keys) /\
     existsb (fun c => 128 <=? c)%Z chord = false /\
     allocated b' f /\ path b' root_ref keys f /\
     load b' f = Some n /\ usage n = node_use_bound /\
     id_or_child n = id /\ m_backends b' !! Binder.backend n = Some backend).
Proof.
  intros [par Hwf] Hbind. unfold bind in Hbind.
  destruct (existsb (fun c => (128 <=? c)%Z) chord) eqn:Hhigh.
  { injection Hbind as <- <-. split; [by exists par | done]. }
  destruct (Chord.translate chord) as [[keys|]|] eqn:Htr;
    cbn [mbind option_bind] in Hbind; [| |done].
  2:{ injection Hbind as <- <-. split; [by exists par | done]. }
  destruct (add_backend b backend) as [b1 index] eqn:Hab.
  destruct (add_backend_spec _ _ _ _ Hab) as (Hg & _ & Hidx).
  pose proof (wf_same_graph par b b1 Hg Hwf) as Hwf1.
  destruct (Z.ltb_spec index 0) as [Hneg | Hpos].
  { injection Hbind as <- <-. split; [by exists par | done]. }
  destruct (bind_loop_spec keys par b1 root_ref Hwf1)
    as (b2 & parent & Hloop & (par2 & Hwf2) & (Hnx & Hbk & _ & _) & Hpath).
  { unfold allocated. simpl. lia. }
  unfold get_root in Hbind. rewrite Hloop in Hbind.
  cbn [mbind option_bind] in Hbind.
  destruct parent as [f|].
  2:{ injection Hbind as <- <-. split; [by exists par2 | done]. }
  destruct (Hpath f eq_refl) as [Hf Hfp].
  destruct (load_allocated _ _ _ Hwf2 Hf) as [n Hn].
  rewrite Hn in Hbind. cbn [mbind option_bind] in Hbind.
  destruct (node_use_eqb (usage n) node_use_none) eqn:Hu; simpl in Hbind.
  2:{ injection Hbind as <- <-. split; [by exists par2 | done]. }
  match type of Hbind with
  | context [store b2 f ?n'] =>
      destruct (store b2 f n') as [b3|] eqn:Hst; [|done];
      destruct (store_bound par2 b2 f n n' b3 Hwf2 Hf Hn) as
        (Hwf3 & Hlinks & Hoth & Hlf); [done | done | done | done |]
  end.
  cbn [mbind option_bind] in Hbind. injection Hbind as <- <-.
  destruct (store_fields _ _ _ _ Hst) as (Hnx3 & Hbk3 & _).
  split; [by exists par2|]. intros _.
  eexists keys, f, _. split; [done|]. split; [done|]. split.
  { unfold allocated in *. by rewrite Hnx3. }
  split.
  { apply (path_frame par2 b2); [done | | done | | done].
    - unfold allocated. simpl. lia.
    - intros r0 _ Hlt. apply Hoth. intros ->. lia. }
  split; [exact Hlf|]. simpl. split; [done|]. split; [done|].
  rewrite Hbk3, Hbk. by apply Hidx.
Qed.

Lemma reachable_wf b : reachable b -> wf b.
Proof.
  induction 1 as [garbage Hlen | b chord backend id r b' _ IH Hbind].
  - by apply wf_init.
  - by destruct (bind_inv _ _ _ _ _ _ IH Hbind).
Qed.

(** [bind] returns whenever the translation of the chord stays inside its
    array. *)
Lemma bind_returns b chord backend id :
  wf b -> Chord.translate chord <> None ->
  is_Some (bind b chord backend id).
Proof.
  intros [par Hwf] Htr. unfold bind.
  destruct (existsb (fun c => (128 <=? c)%Z) chord); [eauto|].
  destruct (Chord.translate chord) as [[keys|]|]; [| |done];
    cbn [mbind option_bind]; [|eauto].
  destruct (add_backend b backend) as [b1 index] eqn:Hab.
  destruct (add_backend_spec _ _ _ _ Hab) as (Hg & _ & _).
  pose proof (wf_same_graph par b b1 Hg Hwf) as Hwf1.
  destruct (index <? 0)%Z; [eauto|].
  destruct (bind_loop_spec keys par b1 root_ref Hwf1)
    as (b2 & parent & Hloop & (par2 & Hwf2) & _ & Hpath).
  { unfold allocated. simpl. lia. }
  unfold get_root. rewrite Hloop. cbn [mbind option_bind].
  destruct parent as [f|]; [|eauto].
  destruct (Hpath f eq_refl) as [Hf _].
  destruct (load_allocated _ _ _ Hwf2 Hf) as [n Hn].
  rewrite Hn. cbn [mbind option_bind].
  destruct (negb _); [eauto|].
  match goal with
  | |- context [store b2 f ?n'] =>
      destruct (store_Some b2 f n') as [b3 Hst]
  end.
  { unfold allocated in Hf. pose proof (wf_size _ _ Hwf2).
    pose proof (wf_next _ _ Hwf2). lia. }
  rewrite Hst. cbn [mbind option_bind]. eauto.
Qed.

(** *** The resolver *)

Lemma current_at par b p r :
  wf_par par b -> allocated b p -> get_node_index r = index_at p ->
  (if (0 <=? get_node_index r)%Z
   then arena_ref <$> get_node (Z.to_nat (get_node_index r))
   else get_root) = Some p.
Proof.
  intros Hwf Hp ->. destruct p as [|i]; simpl; [done|].
  destruct (Z.leb_spec 0 (Z.of_nat i)); [|lia].
  rewrite Nat2Z.id, get_node_lt; [done|].
  unfold allocated in Hp. simpl in Hp.
  pose proof (wf_next _ _ Hwf). lia.
Qed.

(** A resolver walking from [p] along a path that ends in a bound node ends
    resolved to the backend and the id of that node. *)
Lemma advance_path par b keys : forall p r f n,
  wf_par par b -> allocated b p -> keys <> [] ->
  is_resolved r = false -> get_node_index r = index_at p ->
  path b p keys f -> load b f = Some n -> usage n = node_use_bound ->
  exists r',
    advance b keys r = Some r' /\ is_resolved r' = true /\
    Resolver.get_backend r' = m_backends b !! Binder.backend n /\
    get_id r' = Z.of_nat (id_or_child n).
Proof.
  induction keys as [|k keys IH]; intros p r f n Hwf Hp Hne Hres Hidx Hpath Hn Hu;
    [done|].
  destruct Hpath as (c & Hfind & Hpath).
  destruct (find_child_ord par b p k c Hwf Hp Hfind) as [_ Hc].
  destruct (load_allocated _ _ _ Hwf Hc) as [x Hx]. simpl in Hx.
  assert (Hstep : update_resolver b k r =
            Some (if node_use_eqb (usage x) node_use_parent
                  then set_node_index r (Z.of_nat c)
                  else if node_use_eqb (usage x) node_use_bound
                       then resolve r (Binder.get_backend b (Binder.backend x))
                                    (Z.of_nat (id_or_child x))
                       else r)).
  { unfold update_resolver. rewrite Hres.
    rewrite (current_at par b p r Hwf Hp Hidx). cbn [mbind option_bind].
    rewrite Hfind. cbn [mbind option_bind]. rewrite Hx. cbn [mbind option_bind].
    by repeat destruct (node_use_eqb _ _). }
  cbn [advance]. rewrite Hstep. cbn [mbind option_bind].
  destruct keys as [|k' keys].
  - simpl in Hpath. subst f. simpl in Hn. assert (x = n) as -> by congruence.
    rewrite Hu. simpl. eexists. split; [done|]. done.
  - pose proof Hpath as (c' & Hfind' & _).
    destruct (find_child_wf par b (arena_ref c) k' Hwf Hc) as (r0 & Hr0 & Hc0).
    rewrite Hfind' in Hr0. injection Hr0 as <-.
    destruct (Hc0 c' eq_refl) as (_ & _ & (m & Hm & Hum) & _).
    simpl in Hm. assert (x = m) as -> by congruence.
    rewrite Hum. simpl.
    apply (IH (arena_ref c) _ f n); try done.
Qed.

(** *** Binding below a node that is not a parent *)

Lemma find_child_leaf b p k n :
  load b p = Some n -> usage n <> node_use_parent ->
  find_child b p k = Some None.
Proof.
  intros Hn Hu. unfold find_child. rewrite Hn. cbn -[find_sibling].
  apply node_use_eqb_neq in Hu. by rewrite Hu.
Qed.

Lemma bind_loop_app_path b pre more : forall p f,
  path b p pre f ->
  bind_loop b (Some p) (pre ++ more) = bind_loop b (Some f) more.
Proof.
  induction pre as [|k pre IH]; intros p f Hpath; simpl in *.
  - by subst.
  - destruct Hpath as (c & Hfind & Hpath). unfold insert_child.
    rewrite Hfind. cbn [mbind option_bind fmap option_fmap option_map].
    by apply IH.
Qed.

(** Below a node that is not a parent every key gets a fresh node, whatever
    the node was used for; the node becomes a parent. *)
Lemma bind_loop_fresh keys : forall par b p n,
  wf_par par b -> allocated b p ->
  load b p = Some n -> usage n <> node_use_parent ->
  keys <> [] -> m_next_node b + Datatypes.length keys <= nodes_size ->
  exists b' f par',
    bind_loop b (Some p) keys = Some (b', Some f) /\
    wf_par par' b' /\
    m_next_node b' = m_next_node b + Datatypes.length keys /\
    m_backends b' = m_backends b /\
    same_links (m_next_node b) b b' /\
    (forall r, allocated b r -> r <> p -> load b' r = load b r) /\
    allocated b' f /\
    (exists n', load b' f = Some n' /\ usage n' = node_use_none) /\
    (exists m, load b' p = Some m /\ usage m = node_use_parent) /\
    path b' p keys f.
Proof.
  induction keys as [|k keys IH]; intros par b p n Hwf Hp Hn Hu Hne Hroom;
    [done|].
  simpl in Hroom.
  destruct (add_child_fresh par b p k Hwf Hp ltac:(lia))
    as (b1 & Hadd & Hwf1 & Hnx & Hbk & Hlinks & Hoth & (n1 & Hn1 & Hu1)
        & Hpar & Hfind).
  assert (Hins : insert_child b p k = Some (b1, Some (m_next_node b))).
  { unfold insert_child. rewrite (find_child_leaf b p k n Hn Hu). done. }
  assert (Hc1 : allocated b1 (arena_ref (m_next_node b))).
  { unfold allocated. simpl. lia. }
  assert (Hp1 : allocated b1 p) by (unfold allocated in *; lia).
  cbn [bind_loop]. rewrite Hins.
  cbn [mbind option_bind fmap option_fmap option_map].
  destruct keys as [|k' keys].
  - exists b1, (arena_ref (m_next_node b)), (par_add par (m_next_node b) p).
    simpl. split; [done|]. split; [done|]. split; [lia|]. split; [done|].
    split; [done|]. split; [done|]. split; [done|]. split; [eauto|].
    split; [done|]. eauto.
  - destruct (IH _ b1 (arena_ref (m_next_node b)) n1 Hwf1 Hc1 Hn1) as
      (b' & f & par' & Hloop & Hwf' & Hnx' & Hbk' & Hlinks' & Hoth' & Hf
       & Hfn & _ & Hpath); [congruence | done | simpl in *; lia |].
    assert (Hpne : p <> arena_ref (m_next_node b)).
    { intros ->. unfold allocated in Hp. simpl in Hp. lia. }
    exists b', f, par'. split; [done|]. split; [done|].
    split; [simpl in *; lia|]. split; [congruence|]. split.
    { apply (same_links_trans _ (m_next_node b1) b b1 b'); [lia | done | done]. }
    split.
    { intros r Hr Hrp. rewrite Hoth'.
      - by apply Hoth.
      - unfold allocated in *. lia.
      - intros ->. unfold allocated in Hr. simpl in Hr. lia. }
    split; [done|]. split; [done|]. split.
    { destruct Hpar as (m & Hm & Hum). exists m. split; [|done].
      by rewrite Hoth'. }
    exists (m_next_node b). split; [|done]. rewrite <- Hfind.
    apply (find_child_frame (par_add par (m_next_node b) p) b1);
      [exact Hwf1 | done | | done].
    by apply Hoth'.
Qed.

Lemma index_of_complete x l : forall i j,
  l !! j = Some x -> exists j', index_of x l i = Some j'.
Proof.
  induction l as [|y l IH]; intros i j Hj; [done|]. simpl.
  destruct (Nat.eqb_spec y x) as [Heq | Hne]; [eauto|].
  destruct j as [|j]; simpl in Hj.
  - congruence.
  - by apply (IH _ j).
Qed.

(** A backend of the table is found again. *)
Lemma add_backend_known b x j :
  m_backends b !! j = Some x ->
  exists i, add_backend b x = (b, Z.of_nat i).
Proof.
  intros Hj. unfold add_backend.
  destruct (index_of_complete x (m_backends b) 0 j Hj) as [i ->]. eauto.
Qed.

(** [bind] returns [true] for a chord that leaves the graph at a node that
    is not a parent, when there is room for the keys that remain: the node is
    made a parent, bound or not. *)
Lemma bind_below_leaf b chord backend id pre k rest f n b1 index :
  wf b ->
  existsb (fun c => 128 <=? c)%Z chord = false ->
  Chord.translate chord = Some (Some (pre ++ k :: rest)) ->
  add_backend b backend = (b1, index) -> (0 <= index)%Z ->
  path b root_ref pre f -> load b f = Some n ->
  usage n <> node_use_parent ->
  m_next_node b + S (Datatypes.length rest) <= nodes_size ->
  exists b',
    bind b chord backend id = Some (true, b') /\
    m_next_node b' = m_next_node b + S (Datatypes.length rest) /\
    path b' root_ref pre f /\
    exists m, load b' f = Some m /\ usage m = node_use_parent.
Proof.
  intros [par Hwf] Hhigh Htr Hab Hidx Hpath Hn Hu Hroom.
  destruct (add_backend_spec _ _ _ _ Hab) as (Hg & _ & _).
  pose proof (wf_same_graph par b b1 Hg Hwf) as Hwf1.
  pose proof Hg as (_ & _ & Hgn).
  assert (Hroot : allocated b root_ref) by (unfold allocated; simpl; lia).
  destruct (path_ord par b pre _ _ Hwf Hroot Hpath) as (_ & Hf & _).
  assert (Hf1 : allocated b1 f) by (unfold allocated in *; lia).
  destruct (bind_loop_fresh (k :: rest) par b1 f n Hwf1 Hf1)
    as (b2 & g & par2 & Hloop & Hwf2 & Hnx & Hbk & Hlinks & Hoth & Hga
        & (n2 & Hn2 & Hu2) & Hparent & Hpg);
    [by rewrite (load_same_graph b b1) | done | done | simpl; lia |].
  destruct (path_ord par2 b2 (k :: rest) f g Hwf2) as (_ & _ & Hfg);
    [unfold allocated in *; lia | done |].
  specialize (Hfg ltac:(done)).
  match goal with
  | |- context [bind b chord backend id] =>
      destruct (store_Some b2 g
                  {| key := key n2; sibling := sibling n2;
                     usage := node_use_bound; id_or_child := id;
                     Binder.backend := Z.to_nat index |}) as [b3 Hst]
  end.
  { unfold allocated in Hga. pose proof (wf_size _ _ Hwf2).
    pose proof (wf_next _ _ Hwf2). lia. }
  pose proof (fun Hk Hs Hnp =>
                store_bound par2 b2 g n2 _ b3 Hwf2 Hga Hn2 Hk Hs Hnp Hst)
    as Hsb.
  destruct (Hsb eq_refl eq_refl ltac:(done)) as (Hwf3 & Hlinks3 & Hoth3 & _).
  destruct (store_fields _ _ _ _ Hst) as (Hnx3 & _ & _).
  exists b3. split; [|split; [|split]].
  - unfold bind. rewrite Hhigh, Htr. cbn [mbind option_bind]. rewrite Hab.
    destruct (Z.ltb_spec index 0); [lia|]. unfold get_root.
    rewrite (bind_loop_app_path b1 pre (k :: rest) root_ref f)
      by (by apply (path_same_graph b b1)).
    rewrite Hloop. cbn [mbind option_bind]. rewrite Hn2.
    cbn [mbind option_bind]. rewrite Hu2. simpl. rewrite Hst. done.
  - rewrite Hnx3, Hnx, Hgn. simpl. lia.
  - apply (path_frame par2 b2); [done | | done | |].
    + unfold allocated. simpl. lia.
    + intros r _ Hlt. apply Hoth3. intros ->. lia.
    + apply (path_frame par b1); [done | | done | |].
      * unfold allocated. simpl. lia.
      * intros r Hr Hlt. apply Hoth; [done|]. intros ->. lia.
      * by apply (path_same_graph b b1).
  - destruct Hparent as (m & Hm & Hum). exists m. split; [|done].
    rewrite Hoth3; [done|]. intros ->. lia.
Qed.

(** A resolver walking from [p] along a path that ends in a parent is left
    walking, at that parent. *)
Lemma advance_walk par b keys : forall p r f m,
  wf_par par b -> allocated b p -> keys <> [] ->
  is_resolved r = false -> get_node_index r = index_at p ->
  path b p keys f -> load b f = Some m -> usage m = node_use_parent ->
  advance b keys r = Some (set_node_index r (index_at f)).
Proof.
  induction keys as [|k keys IH]; intros p r f m Hwf Hp Hne Hres Hidx Hpath Hm Hu;
    [done|].
  destruct Hpath as (c & Hfind & Hpath).
  destruct (find_child_ord par b p k c Hwf Hp Hfind) as [_ Hc].
  destruct (load_allocated _ _ _ Hwf Hc) as [x Hx]. simpl in Hx.
  assert (Hux : usage x = node_use_parent).
  { destruct keys as [|k' keys].
    - simpl in Hpath. subst f. simpl in Hm. congruence.
    - destruct Hpath as (c' & Hfind' & _).
      destruct (find_child_wf par b (arena_ref c) k' Hwf Hc) as (r0 & Hr0 & Hc0).
      rewrite Hfind' in Hr0. injection Hr0 as <-.
      destruct (Hc0 c' eq_refl) as (_ & _ & (y & Hy & Huy) & _).
      simpl in Hy. congruence. }
  assert (Hstep : update_resolver b k r = Some (set_node_index r (Z.of_nat c))).
  { unfold update_resolver. rewrite Hres.
    rewrite (current_at par b p r Hwf Hp Hidx). cbn [mbind option_bind].
    rewrite Hfind. cbn [mbind option_bind]. rewrite Hx. cbn [mbind option_bind].
    by rewrite Hux. }
  cbn [advance]. rewrite Hstep. cbn [mbind option_bind].
  destruct keys as [|k' keys].
  - simpl in Hpath. subst f. done.
  - rewrite (IH (arena_ref c) _ f m); try done.
Qed.

(** A byte that no child of the current node has as its key resolves the
    resolver to no backend and the id -1. *)
Lemma update_resolver_miss par b p r k :
  wf_par par b -> allocated b p ->
  is_resolved r = false -> get_node_index r = index_at p ->
  find_child b p k = Some None ->
  update_resolver b k r = Some (resolve r None (-1)).
Proof.
  intros Hwf Hp Hres Hidx Hfind. unfold update_resolver. rewrite Hres.
  rewrite (current_at par b p r Hwf Hp Hidx). cbn [mbind option_bind].
  by rewrite Hfind.
Qed.

(** The defect behind C2 and C4: a chord that extends a bound chord is
    accepted whenever there is room for its nodes, and the bound chord is
    then walked through instead of resolved. *)
Lemma bind_strict_extension b chord1 backend1 id1 b1 keys
    chord2 backend2 id2 k rest b1' index :
  wf b ->
  bind b chord1 backend1 id1 = Some (true, b1) ->
  Chord.translate chord1 = Some (Some keys) -> keys <> [] ->
  existsb (fun c => 128 <=? c)%Z chord2 = false ->
  Chord.translate chord2 = Some (Some (keys ++ k :: rest)) ->
  add_backend b1 backend2 = (b1', index) -> (0 <= index)%Z ->
  m_next_node b1 + S (Datatypes.length rest) <= nodes_size ->
  exists b2 r,
    bind b1 chord2 backend2 id2 = Some (true, b2) /\
    advance b2 keys reset = Some r /\ is_resolved r = false /\
    Resolver.get_backend r = None /\ get_id r = (-1)%Z.
Proof.
  intros Hwf Hbind1 Htr1 Hne Hhigh Htr2 Hab Hidx Hroom.
  destruct (bind_inv _ _ _ _ _ _ Hwf Hbind1) as [Hwf1 Hok].
  destruct (Hok eq_refl) as (keys' & f & n & Htr' & _ & Hf & Hpath & Hn & Hu & _).
  assert (keys' = keys) as -> by congruence.
  destruct (bind_below_leaf b1 chord2 backend2 id2 keys k rest f n b1' index
              Hwf1 Hhigh Htr2 Hab Hidx Hpath Hn ltac:(congruence) Hroom)
    as (b2 & Hbind2 & _ & Hpath2 & m & Hm & Hum).
  destruct (bind_inv _ _ _ _ _ _ Hwf1 Hbind2) as [[par2 Hwf2] _].
  exists b2, (set_node_index reset (index_at f)). split; [done|]. split; [|done].
  apply (advance_walk par2 b2 keys root_ref reset f m Hwf2); try done.
  unfold allocated. simpl. lia.
Qed.

(** The chords ["a"] and then ["ab"] bound in a new binder with room for two
    nodes and one backend. *)
Lemma bind_a_then_ab garbage backend id1 id2 :
  Datatypes.length garbage = nodes_size -> 2 <= nodes_size ->
  1 <= backends_capacity ->
  exists b1 b2 r1 r2,
    bind (binder_init garbage) (c_str "a") backend id1 = Some (true, b1) /\
    advance b1 (c_str "a") reset = Some r1 /\
    is_resolved r1 = true /\ Resolver.get_backend r1 = Some backend /\
    get_id r1 = Z.of_nat id1 /\
    bind b1 (c_str "ab") backend id2 = Some (true, b2) /\
    advance b2 (c_str "a") reset = Some r2 /\
    is_resolved r2 = false /\ Resolver.get_backend r2 = None /\
    get_id r2 = (-1)%Z.
Proof.
  intros Hlen Hnodes Hbk.
  pose proof (wf_init garbage Hlen) as Hwf0.
  assert (Hab0 : add_backend (binder_init garbage) backend =
                 ({| m_root := zero_node; m_nodes := garbage;
                     m_next_node := 0; m_backends := [backend] |}, 0%Z)).
  { unfold add_backend. simpl.
    destruct (Nat.ltb_spec 0 backends_capacity); [done | lia]. }
  destruct (bind_below_leaf (binder_init garbage) (c_str "a") backend id1
              [] 97%Z [] root_ref zero_node _ _ Hwf0 eq_refl eq_refl Hab0)
    as (b1 & Hbind1 & Hnx1 & _ & _); [lia | done | done | done | simpl; lia |].
  destruct (bind_inv _ _ _ _ _ _ Hwf0 Hbind1) as [[par1 Hwf1] Hok].
  destruct (Hok eq_refl) as (keys & f & n & Htr & _ & Hf & Hpath & Hn & Hu & Hid & Hbe).
  assert (keys = [97%Z]) as -> by (vm_compute in Htr; congruence).
  destruct (advance_path par1 b1 [97%Z] root_ref reset f n Hwf1)
    as (r1 & Hadv1 & Hres1 & Hbe1 & Hid1); try done.
  { unfold allocated. simpl. lia. }
  destruct (add_backend_known b1 backend _ Hbe) as [i Hab1].
  destruct (bind_strict_extension (binder_init garbage) (c_str "a") backend id1
              b1 [97%Z] (c_str "ab") backend id2 98%Z [] b1 (Z.of_nat i)
              Hwf0 Hbind1 eq_refl ltac:(done) eq_refl eq_refl Hab1)
    as (b2 & r2 & Hbind2 & Hadv2 & Hres2 & Hbe2 & Hid2);
    [lia | simpl in *; lia |].
  exists b1, b2, r1, r2.
  split; [done|]. split; [done|]. split; [done|].
  split; [by rewrite Hbe1|]. split; [by rewrite Hid1, Hid|]. done.
Qed.

(** C2 (the code departs from the claim): a chord can be bound through the
    final node of a bound chord.  In a new binder with room for two nodes and
    one backend, [bind("a", ..., 1)] returns [true] and then
    [bind("ab", ..., 2)] returns [true] as well, where the claim has it fail;
    the node of ["a"] is turned from bound into a parent, and a reset
    resolver advanced through ["a"] is no longer resolved. *)
Theorem bind_extends_through_bound_node garbage backend :
  Datatypes.length garbage = nodes_size -> 2 <= nodes_size ->
  1 <= backends_capacity ->
  exists b1 b2,
    bind (binder_init garbage) (c_str "a") backend 1 = Some (true, b1) /\
    bind b1 (c_str "ab") backend 2 = Some (true, b2) /\
    exists r, advance b2 (c_str "a") reset = Some r /\ is_resolved r = false.
Proof.
  intros Hlen Hnodes Hbk.
  destruct (bind_a_then_ab garbage backend 1 2 Hlen Hnodes Hbk)
    as (b1 & b2 & r1 & r2 & Hb1 & _ & _ & _ & _ & Hb2 & Hadv & Hres & _).
  exists b1, b2. split; [done|]. split; [done|]. by exists r2.
Qed.

(** C4 (the code departs from the claim): the exact bytes of a successfully
    bound chord do not always end in [resolved(backend, id)].  In a new
    binder with room for two nodes and one backend, after
    [bind("a", backend, 1)] a reset resolver advanced through ["a"] is
    resolved to [(backend, 1)]; after the further [bind("ab", backend, 2)],
    which returns [true], the same walk ends unresolved, with no backend and
    the id -1, waiting for a second byte. *)
Theorem resolver_walks_through_bound_chord garbage backend :
  Datatypes.length garbage = nodes_size -> 2 <= nodes_size ->
  1 <= backends_capacity ->
  exists b1 b2 r1 r2,
    bind (binder_init garbage) (c_str "a") backend 1 = Some (true, b1) /\
    advance b1 (c_str "a") reset = Some r1 /\
    is_resolved r1 = true /\ Resolver.get_backend r1 = Some backend /\
    get_id r1 = 1%Z /\
    bind b1 (c_str "ab") backend 2 = Some (true, b2) /\
    advance b2 (c_str "a") reset = Some r2 /\
    is_resolved r2 = false /\ Resolver.get_backend r2 = None /\
    get_id r2 = (-1)%Z.
Proof.
  intros Hlen Hnodes Hbk. exact (bind_a_then_ab garbage backend 1 2 Hlen Hnodes Hbk).
Qed.

(** *** Paths *)

Lemma path_app b pre more : forall p f,
  path b p (pre ++ more) f <-> exists m, path b p pre m /\ path b m more f.
Proof.
  induction pre as [|k pre IH]; intros p f; cbn [app path].
  - split; [intros Hp; by exists p | intros (m & -> & Hp); done].
  - split.
    + intros (c & Hfind & Hp). apply IH in Hp as (m & Hpre & Hmore).
      exists m. split; [by exists c | done].
    + intros (m & (c & Hfind & Hpre) & Hmore). exists c. split; [done|].
      apply IH. by exists m.
Qed.

(** A node that a key leads on from is a parent. *)
Lemma path_parent par b p k rest f :
  wf_par par b -> allocated b p -> path b p (k :: rest) f ->
  exists n, load b p = Some n /\ usage n = node_use_parent.
Proof.
  intros Hwf Hp (c & Hfind & _).
  destruct (find_child_wf par b p k Hwf Hp) as (r & Hr & Hc).
  rewrite Hfind in Hr. injection Hr as <-.
  by destruct (Hc c eq_refl) as (_ & _ & Hn & _).
Qed.

Lemma allocated_root b : allocated b root_ref.
Proof. unfold allocated. simpl. lia. Qed.

Lemma same_graph_refl b : same_graph b b.
Proof. done. Qed.

(** X6.  When [bind] returns [true] the chord is bound: its keys lead from
    the root to a bound node with the id and the backend of the call. *)
Theorem bind_true_binds b chord backend id b' keys :
  wf b -> bind b chord backend id = Some (true, b') ->
  Chord.translate chord = Some (Some keys) ->
  bound_to b' keys backend id.
Proof.
  intros Hwf Hbind Ht.
  destruct (bind_inv b chord backend id true b' Hwf Hbind) as [_ Hb].
  destruct (Hb eq_refl) as (keys' & f & n & Ht' & _ & _ & Hpath & Hn & Hu & Hid & Hbk).
  assert (keys' = keys) as -> by congruence.
  by exists f, n.
Qed.

(** X7.  A reset resolver advanced through the keys of a bound chord ends
    resolved to the backend and the id of the chord. *)
Theorem bound_chord_resolves b keys backend id :
  wf b -> keys <> [] -> bound_to b keys backend id ->
  exists r,
    advance b keys reset = Some r /\ is_resolved r = true /\
    Resolver.get_backend r = Some backend /\ get_id r = Z.of_nat id.
Proof.
  intros [par Hwf] Hne (f & n & Hpath & Hn & Hu & Hid & Hbk).
  destruct (advance_path par b keys root_ref reset f n Hwf (allocated_root b)
              Hne eq_refl eq_refl Hpath Hn Hu) as (r & Hadv & Hres & Hrb & Hrid).
  exists r. split; [done|]. split; [done|]. split; congruence.
Qed.

(** The end of a path of at least one key is a node of the arena. *)
Lemma path_arena par b p k ks f :
  wf_par par b -> allocated b p -> path b p (k :: ks) f ->
  exists i, f = arena_ref i.
Proof.
  intros Hwf Hp Hpath.
  destruct (path_ord par b (k :: ks) p f Hwf Hp Hpath) as (_ & _ & Hlt).
  specialize (Hlt ltac:(discriminate)).
  destruct f as [|i]; [simpl in Hlt; lia | by exists i].
Qed.

(** X8.  A reset resolver advanced through a strict prefix of the keys of a
    bound chord is left unresolved, holding the index of the node the prefix
    leads to, a node of the arena when the prefix has a key; advanced
    further through the keys that remain, it ends resolved to the backend
    and the id of the chord. *)
Theorem bound_chord_prefix_walks b pre k rest backend id :
  wf b -> bound_to b (pre ++ k :: rest) backend id ->
  exists m,
    path b root_ref pre m /\
    (pre <> [] -> exists i, m = arena_ref i) /\
    advance b pre reset =
      Some {| m_node_index := index_at m; m_resolved := false;
              m_backend := None; m_id := -1 |} /\
    exists r,
      advance b (k :: rest)
        {| m_node_index := index_at m; m_resolved := false;
           m_backend := None; m_id := -1 |} = Some r /\
      is_resolved r = true /\
      Resolver.get_backend r = Some backend /\ get_id r = Z.of_nat id.
Proof.
  intros [par Hwf] (f & n & Hpath & Hn & Hu & Hid & Hbk).
  apply path_app in Hpath as (m & Hpre & Hmore).
  destruct (path_ord par b pre root_ref m Hwf (allocated_root b) Hpre)
    as (_ & Hm & _).
  destruct (path_parent par b m k rest f Hwf Hm Hmore) as (x & Hx & Hux).
  exists m. split; [done|]. split.
  { destruct pre as [|k0 pre]; [done|]. intros _.
    apply (path_arena par b root_ref k0 pre m Hwf (allocated_root b) Hpre). }
  split.
  { destruct pre as [|k0 pre]; [cbn [path] in Hpre; by subst m|].
    apply (advance_walk par b (k0 :: pre) root_ref reset m x Hwf
             (allocated_root b) ltac:(discriminate) eq_refl eq_refl Hpre Hx Hux). }
  destruct (advance_path par b (k :: rest) m
              {| m_node_index := index_at m; m_resolved := false;
                 m_backend := None; m_id := -1 |} f n Hwf Hm
              ltac:(discriminate) eq_refl eq_refl Hmore Hn Hu)
    as (r & Hadv & Hres & Hrb & Hrid).
  exists r. split; [done|]. split; [done|]. split; congruence.
Qed.

(** X9.  [bind] of a chord whose keys are a strict prefix of the keys of a
    bound chord returns [false] and leaves the node graph as it is. *)
Theorem bind_prefix_of_bound_chord_fails b pre k rest backend id
    chord' backend' id' :
  wf b -> bound_to b (pre ++ k :: rest) backend id ->
  Chord.translate chord' = Some (Some pre) ->
  exists b', bind b chord' backend' id' = Some (false, b') /\ same_graph b b'.
Proof.
  intros [par Hwf] (f & n & Hpath & _) Ht.
  apply path_app in Hpath as (m & Hpre & Hmore).
  destruct (path_ord par b pre root_ref m Hwf (allocated_root b) Hpre)
    as (_ & Hm & _).
  destruct (path_parent par b m k rest f Hwf Hm Hmore) as (x & Hx & Hux).
  unfold bind.
  destruct (existsb (fun c => (128 <=? c)%Z) chord');
    [exists b; split; [done | apply same_graph_refl]|].
  rewrite Ht. cbn [mbind option_bind].
  destruct (add_backend b backend') as [b1 index] eqn:Hadd.
  destruct (add_backend_spec b backend' b1 index Hadd) as (Hg & _ & _).
  destruct (index <? 0)%Z; [by exists b1|].
  unfold get_root.
  rewrite (bind_loop_path b1 pre root_ref m)
    by (by apply (path_same_graph b b1)).
  cbn [mbind option_bind]. rewrite (load_same_graph b b1 m Hg), Hx.
  cbn [mbind option_bind]. rewrite Hux. cbn. by exists b1.
Qed.

(** *** The resolver *)

(** The state [update_resolver] starts from. *)
Lemma resolver_start b r :
  at_node b r ->
  exists p,
    is_resolved (if is_resolved r then reset else r) = false /\
    allocated b p /\
    get_node_index (if is_resolved r then reset else r) = index_at p.
Proof.
  intros Hr. destruct (is_resolved r) eqn:Hres.
  - exists root_ref. split; [done|]. split; [apply allocated_root | done].
  - destruct Hr as [Hr | (p & Hp & Hi)]; [congruence|]. by exists p.
Qed.

(** [update_resolver] returns from a resolver that is resolved or stands at
    a node, and leaves such a resolver. *)
Lemma update_resolver_at_node b k r :
  wf b -> at_node b r ->
  exists r', update_resolver b k r = Some r' /\ at_node b r'.
Proof.
  intros [par Hwf] Hr.
  destruct (resolver_start b r Hr) as (p & Hres0 & Hp & Hi).
  unfold update_resolver.
  set (r0 := if is_resolved r then reset else r) in *.
  rewrite (current_at par b p r0 Hwf Hp Hi). cbn [mbind option_bind].
  destruct (find_child_wf par b p k Hwf Hp) as (res & Hfind & Hc).
  rewrite Hfind. cbn [mbind option_bind].
  destruct res as [c|].
  - destruct (Hc c eq_refl) as (Hlt & _ & _ & x & Hx & _).
    rewrite Hx. cbn [mbind option_bind].
    destruct (node_use_eqb (usage x) node_use_parent).
    + eexists. split; [done|]. right. exists (arena_ref c).
      split; [unfold allocated; simpl; lia | done].
    + destruct (node_use_eqb (usage x) node_use_bound).
      * eexists. split; [done|]. by left.
      * exists r0. split; [done|]. right. by exists p.
  - eexists. split; [done|]. by left.
Qed.

(** X10.  [update_resolver] returns, for every key, from a resolver that is
    resolved or stands at the root or at an allocated node, and it leaves
    such a resolver. *)
Theorem update_resolver_returns b k r :
  wf b -> at_node b r ->
  exists r', update_resolver b k r = Some r' /\ at_node b r'.
Proof. apply update_resolver_at_node. Qed.

(** *** The exhausted arena *)

Lemma bind_loop_full par b keys : forall p,
  wf_par par b -> allocated b p -> m_next_node b = nodes_size ->
  exists r, bind_loop b (Some p) keys = Some (b, r) /\
            forall f, r = Some f -> path b p keys f.
Proof.
  induction keys as [|k keys IH]; intros p Hwf Hp Hfull.
  - exists (Some p). split; [done|]. by intros f [= <-].
  - cbn [bind_loop]. unfold insert_child.
    destruct (find_child_wf par b p k Hwf Hp) as (res & Hfind & Hc).
    rewrite Hfind. cbn [mbind option_bind]. destruct res as [c|].
    + cbn [fmap option_fmap option_map].
      destruct (find_child_ord par b p k c Hwf Hp Hfind) as [_ Hca].
      destruct (IH (arena_ref c) Hwf Hca Hfull) as (r & Hloop & Hpath).
      exists r. split; [done|]. intros f Hf. exists c. split; [done|].
      by apply Hpath.
    + rewrite add_child_full by lia. cbn [mbind option_bind].
      exists None. split; [by destruct keys|]. done.
Qed.

(** X11.  Once every node of the arena is allocated, [bind] of a chord whose
    keys do not lead to a node returns [false] and leaves the node graph as
    it is. *)
Theorem bind_fails_when_arena_full b chord keys backend id :
  wf b -> m_next_node b = nodes_size ->
  Chord.translate chord = Some (Some keys) ->
  (forall f, ~ path b root_ref keys f) ->
  exists b', bind b chord backend id = Some (false, b') /\ same_graph b b'.
Proof.
  intros [par Hwf] Hfull Ht Hnew. unfold bind.
  destruct (existsb (fun c => (128 <=? c)%Z) chord);
    [exists b; split; [done | apply same_graph_refl]|].
  rewrite Ht. cbn [mbind option_bind].
  destruct (add_backend b backend) as [b1 index] eqn:Hadd.
  destruct (add_backend_spec b backend b1 index Hadd) as (Hg & _ & _).
  destruct (index <? 0)%Z; [by exists b1|].
  pose proof (wf_same_graph par b b1 Hg Hwf) as Hwf1.
  destruct (bind_loop_full par b1 keys root_ref Hwf1 (allocated_root b1))
    as (r & Hloop & Hpath).
  { destruct Hg as (_ & _ & ->). done. }
  unfold get_root. rewrite Hloop. cbn [mbind option_bind].
  destruct r as [f|]; [|by exists b1].
  exfalso. apply (Hnew f).
  apply (path_same_graph b1 b); [|by apply Hpath].
  destruct Hg as (Hr & Hn & Hx). done.
Qed.

(** *** The backend table *)

Lemma index_of_app_new x l : forall i,
  index_of x l i = None -> index_of x (l ++ [x]) i = Some (i + Datatypes.length l).
Proof.
  induction l as [|y l IH]; intros i; simpl.
  - rewrite Nat.eqb_refl. intros _. f_equal. lia.
  - destruct (y =? x); [done|]. intros Hn. rewrite IH by done. f_equal. lia.
Qed.

(** X12.  [add_backend] is idempotent: a backend that got an index keeps it,
    the table is not changed by adding it again, and [get_backend] of the
    index is the backend. *)
Theorem add_backend_idempotent b x b1 index :
  add_backend b x = (b1, index) -> (0 <= index)%Z ->
  add_backend b1 x = (b1, index) /\
  Binder.get_backend b1 (Z.to_nat index) = Some x.
Proof.
  intros Hadd Hi.
  destruct (add_backend_spec b x b1 index Hadd) as (_ & _ & Hget).
  split; [|by apply Hget].
  revert Hadd. unfold add_backend.
  destruct (index_of x (m_backends b) 0) as [j|] eqn:Hj.
  - intros [= <- <-]. by rewrite Hj.
  - destruct (Datatypes.length (m_backends b) <? backends_capacity).
    + intros [= <- <-]. cbn [m_backends].
      by rewrite (index_of_app_new x (m_backends b) 0 Hj).
    + intros [= <- <-]. lia.
Qed.

(** X13.  [bind] returns for every chord text whose last byte is not a
    backslash: no store leaves an array, no null pointer is followed and
    every loop ends. *)
Theorem bind_returns_unless_trailing_backslash b chord backend id :
  wf b -> last chord <> Some ch_backslash ->
  is_Some (bind b chord backend id).
Proof.
  intros Hwf Hlast. apply bind_returns; [done|].
  by apply ChordMore.translate_defined.
Qed.

(** *** What a later [bind] leaves alone *)

(** The walk along a chain of siblings does not depend on the fuel left, as
    long as there is enough of it. *)
Lemma find_sibling_fuel par b k :
  wf_par par b ->
  forall fuel fuel' i, i < fuel -> i < fuel' -> i < m_next_node b ->
    find_sibling fuel b (Some i) k = find_sibling fuel' b (Some i) k.
Proof.
  intros Hwf. pose proof (wf_next _ _ Hwf) as Hnext.
  induction fuel as [|fuel IH]; intros fuel' i Hf Hf' Hi; [lia|].
  destruct fuel' as [|fuel']; [lia|].
  destruct (load_allocated par b (arena_ref i) Hwf) as [x Hx];
    [unfold allocated; simpl; lia|]. simpl in Hx.
  simpl. rewrite Hx. simpl.
  destruct (key x =? k)%Z; [done|].
  destruct (wf_node _ _ Hwf i x Hi Hx) as [_ [Hs | [Hlt _]]].
  - rewrite Hs, get_node_sentinal. by destruct fuel, fuel'.
  - rewrite get_node_lt by lia. apply IH; lia.
Qed.

Lemma find_sibling_step fuel b i k x :
  m_nodes b !! i = Some x ->
  find_sibling (S fuel) b (Some i) k =
  if (key x =? k)%Z then Some (Some i)
  else find_sibling fuel b (get_node (sibling x)) k.
Proof. intros Hx. simpl. by rewrite Hx. Qed.

(** The two nodes [add_child] writes. *)
Lemma add_child_loads par b p k n :
  wf_par par b -> allocated b p -> m_next_node b < nodes_size ->
  load b p = Some n ->
  exists b',
    add_child b p k = Some (b', Some (m_next_node b)) /\
    load b' p =
      Some {| key := key n; sibling := sibling n; usage := node_use_parent;
              id_or_child := m_next_node b; backend := backend n |} /\
    load b' (arena_ref (m_next_node b)) =
      Some {| key := k;
              sibling := if node_use_eqb (usage n) node_use_parent
                         then id_or_child n else sentinal;
              usage := node_use_none; id_or_child := 0; backend := 0 |}.
Proof.
  intros Hwf Hp Hlt Hn.
  pose proof (wf_size _ _ Hwf) as Hsize.
  remember (m_next_node b) as idx eqn:Hidx.
  pose (b1 := {| m_root := m_root b; m_nodes := m_nodes b;
                 m_next_node := S idx; m_backends := m_backends b |}).
  pose (new := {| key := k;
                  sibling := if node_use_eqb (usage n) node_use_parent
                             then id_or_child n else sentinal;
                  usage := node_use_none; id_or_child := 0; backend := 0 |}).
  pose (p' := {| key := key n; sibling := sibling n;
                 usage := node_use_parent; id_or_child := idx;
                 backend := backend n |}).
  assert (Hn1 : load b1 p = Some n) by (destruct p; exact Hn).
  destruct (store_Some b1 (arena_ref idx) new) as [b2 Hb2]; [simpl; lia|].
  assert (Hpne : p <> arena_ref idx).
  { intros ->. unfold allocated in Hp. simpl in Hp. lia. }
  assert (Hn2 : load b2 p = Some n).
  { by rewrite (load_store_ne _ _ _ _ _ Hb2 Hpne). }
  destruct (store_fields _ _ _ _ Hb2) as (Hnx2 & Hbk2 & Hlen2).
  destruct (store_Some b2 p p') as [b3 Hb3].
  { rewrite Hlen2. simpl. unfold allocated in Hp. lia. }
  exists b3. split; [|split].
  - unfold add_child, alloc_node. rewrite <- Hidx.
    destruct (Nat.ltb_spec idx nodes_size); [|lia].
    destruct (Nat.eqb_spec idx sentinal); [lia|].
    fold b1. rewrite Hn1. cbn [mbind option_bind].
    rewrite get_node_lt by lia. cbn [mbind option_bind].
    fold new. rewrite Hb2. cbn [mbind option_bind].
    rewrite Hn2. cbn [mbind option_bind].
    fold p'. rewrite Hb3. done.
  - exact (load_store_eq _ _ _ _ Hb3).
  - rewrite (load_store_ne _ _ _ _ _ Hb3) by congruence.
    exact (load_store_eq _ _ _ _ Hb2).
Qed.

(** A new child is put before the children its parent has: they are still
    found, each under its key. *)
Lemma add_child_other_key par b p k k1 b' c :
  wf_par par b -> allocated b p ->
  add_child b p k = Some (b', Some c) -> k1 <> k ->
  find_child b' p k1 = find_child b p k1.
Proof.
  intros Hwf Hp Hadd Hk.
  destruct (Nat.lt_ge_cases (m_next_node b) nodes_size) as [Hlt | Hge];
    [|by rewrite add_child_full in Hadd by done].
  destruct (load_allocated _ _ _ Hwf Hp) as [n Hn].
  destruct (add_child_loads par b p k n Hwf Hp Hlt Hn)
    as (b0 & Hadd0 & Hlp & Hlnew).
  rewrite Hadd in Hadd0. injection Hadd0 as <- ->.
  destruct (add_child_fresh par b p k Hwf Hp Hlt)
    as (b0 & Hadd0 & _ & _ & _ & Hlinks & _).
  rewrite Hadd in Hadd0. injection Hadd0 as <-.
  pose proof (wf_next _ _ Hwf) as Hnext.
  unfold find_child. rewrite Hlp, Hn. cbn -[find_sibling].
  rewrite get_node_lt by lia.
  rewrite (find_sibling_step sentinal b' (m_next_node b) k1 _ Hlnew).
  cbn [key sibling].
  destruct (Z.eqb_spec k k1) as [Hkk | _]; [congruence|].
  destruct (node_use_eqb (usage n) node_use_parent) eqn:Hu.
  - apply node_use_eqb_eq in Hu.
    destruct (wf_parent _ _ Hwf p n Hp Hn Hu) as [Hc _].
    rewrite get_node_lt by lia.
    rewrite (find_sibling_frame (m_next_node b) b b' k1) by
      (done || lia || by apply (wf_chained par)).
    apply (find_sibling_fuel par b k1 Hwf); lia.
  - rewrite get_node_sentinal. by destruct sentinal.
Qed.

(** What the loop of [bind] changes in the graph of [b]: the keys [pre] it
    finds lead to a node [m]; if keys remain, [m] gets a new first child and
    its children are still found; every other node is left as it is. *)
Lemma bind_loop_frame keys2 : forall par b p b' r,
  wf_par par b -> allocated b p ->
  bind_loop b (Some p) keys2 = Some (b', r) ->
  exists pre rest m,
    keys2 = pre ++ rest /\ path b p pre m /\
    same_links (m_next_node b) b b' /\
    (forall q, allocated b q -> q <> m -> load b' q = load b q) /\
    (rest = [] -> load b' m = load b m) /\
    (forall k1 c1, find_child b m k1 = Some (Some c1) ->
                   find_child b' m k1 = Some (Some c1)).
Proof.
  induction keys2 as [|k keys2 IH]; intros par b p b' r Hwf Hp Hloop.
  - injection Hloop as <- <-. exists [], [], p.
    split; [done|]. split; [done|].
    split; [apply (same_links_refl par b Hwf)|]. done.
  - cbn [bind_loop] in Hloop.
    destruct (insert_child_spec par b p k Hwf Hp)
      as (b1 & r1 & Hins & Hnone & Hsome).
    rewrite Hins in Hloop. cbn [mbind option_bind] in Hloop.
    destruct r1 as [c|]; cbn [fmap option_fmap option_map] in Hloop.
    + destruct (Hsome c eq_refl)
        as ((par1 & Hwf1) & Hc & Hord & Hfind1 & Hnx & Hbk & Hlinks & Hoth).
      destruct (find_child_wf par b p k Hwf Hp) as (res & Hfind & _).
      unfold insert_child in Hins. rewrite Hfind in Hins.
      cbn [mbind option_bind] in Hins. destruct res as [c0|].
      * injection Hins as <- ->.
        destruct (IH par b (arena_ref c) b' r Hwf Hc Hloop)
          as (pre & rest & m & -> & Hpath & Hframe).
        exists (k :: pre), rest, m. split; [done|]. split; [|done].
        by exists c.
      * destruct (bind_loop_spec keys2 par1 b1 (arena_ref c) Hwf1 Hc)
          as (b0 & r0 & Hloop0 & _ & (Hnx' & _ & Hlinks' & Hbefore) & _).
        rewrite Hloop in Hloop0. injection Hloop0 as <- <-.
        assert (Hpa1 : allocated b1 p) by (unfold allocated in *; lia).
        exists [], (k :: keys2), p.
        split; [done|]. split; [done|]. split.
        { by apply (same_links_trans _ (m_next_node b1) b b1 b'). }
        split.
        { intros q Hq Hqp. rewrite Hbefore.
          - by apply Hoth.
          - unfold allocated in *. lia.
          - destruct (Nat.lt_ge_cases (m_next_node b) nodes_size) as [Hlt | Hge];
              [|by rewrite add_child_full in Hins by done].
            destruct (add_child_fresh par b p k Hwf Hp Hlt)
              as (bF & HaddF & _).
            rewrite Hins in HaddF. injection HaddF as _ ->.
            unfold allocated in Hq. simpl. lia. }
        split; [done|].
        intros k1 c1 Hk1.
        assert (Hne : k1 <> k) by (intros ->; congruence).
        rewrite <- Hk1, <- (add_child_other_key par b p k k1 b1 c Hwf Hp Hins Hne).
        apply (find_child_frame par1); [done | done | | done].
        apply Hbefore; [done | done].
    + rewrite (Hnone eq_refl) in Hloop.
      assert (b' = b) as -> by (destruct keys2; simpl in Hloop; congruence).
      exists [], (k :: keys2), p. split; [done|]. split; [done|].
      split; [apply (same_links_refl par b Hwf)|]. done.
Qed.

(** A path is kept by a change of one node that keeps the children of the
    node. *)
Lemma path_kept par b b' m ks : forall q f,
  wf_par par b -> allocated b q ->
  same_links (m_next_node b) b b' ->
  (forall q, allocated b q -> q <> m -> load b' q = load b q) ->
  (forall k1 c1, find_child b m k1 = Some (Some c1) ->
                 find_child b' m k1 = Some (Some c1)) ->
  path b q ks f -> path b' q ks f.
Proof.
  induction ks as [|k ks IH]; intros q f Hwf Hq Hlinks Hoth Hch Hpath;
    cbn [path] in *; [done|].
  destruct Hpath as (c & Hfind & Hpath).
  destruct (find_child_ord par b q k c Hwf Hq Hfind) as [_ Hc].
  exists c. split; [|by apply IH].
  destruct (decide (q = m)) as [-> | Hne]; [by apply Hch|].
  rewrite <- Hfind. apply (find_child_frame par); [done | done | | done].
  by apply Hoth.
Qed.

(** The graph is a tree: the keys that lead from a node to another one are
    determined by the two nodes. *)
Lemma path_unique par b p :
  wf_par par b -> allocated b p ->
  forall ks ks' m, path b p ks m -> path b p ks' m -> ks = ks'.
Proof.
  intros Hwf Hp.
  induction ks as [|k ks IH] using rev_ind; intros ks' m H1 H2.
  - cbn [path] in H1. subst m. destruct ks' as [|k' ks']; [done|].
    destruct (path_ord par b (k' :: ks') p p Hwf Hp H2) as (_ & _ & Hlt).
    specialize (Hlt ltac:(discriminate)). lia.
  - apply path_app in H1 as (m0 & Hks & (c & Hfind & Hc)).
    cbn [path] in Hc. subst m.
    destruct (path_ord par b ks p m0 Hwf Hp Hks) as (_ & Hm0 & _).
    destruct ks' as [|k' ks' _] using rev_ind.
    { cbn [path] in H2. subst p.
      destruct (find_child_ord par b m0 k c Hwf Hm0 Hfind) as [Hlt _].
      destruct (path_ord par b ks _ m0 Hwf Hp Hks) as (Hle & _). lia. }
    apply path_app in H2 as (m0' & Hks' & (c' & Hfind' & Hc')).
    cbn [path] in Hc'. injection Hc' as ->.
    destruct (path_ord par b ks' p m0' Hwf Hp Hks') as (_ & Hm0' & _).
    destruct (find_child_wf par b m0 k Hwf Hm0) as (res & Hres & Hprop).
    rewrite Hfind in Hres. injection Hres as <-.
    destruct (Hprop c eq_refl) as (_ & Hpar & _ & x & Hx & Hkx).
    destruct (find_child_wf par b m0' k' Hwf Hm0') as (res' & Hres' & Hprop').
    rewrite Hfind' in Hres'. injection Hres' as <-.
    destruct (Hprop' c eq_refl) as (_ & Hpar' & _ & x' & Hx' & Hkx').
    assert (m0' = m0) as -> by congruence.
    assert (k' = k) as -> by congruence.
    f_equal. by apply (IH ks' m0).
Qed.

(** X14.  A later [bind] keeps every binding there is, unless the keys of its
    chord go on from the keys of the bound chord: whatever it returns, the
    keys still lead to a node bound to the same backend and id. *)
Theorem later_bind_keeps_binding b keys1 backend1 id1 chord backend id res b' :
  wf b -> bound_to b keys1 backend1 id1 ->
  bind b chord backend id = Some (res, b') ->
  (forall k more,
     Chord.translate chord <> Some (Some (keys1 ++ k :: more))) ->
  bound_to b' keys1 backend1 id1.
Proof.
  intros [par Hwf] (f1 & n1 & Hpath & Hn1 & Hu1 & Hid1 & Hbk1) Hbind Hext.
  assert (Hkeep : bound_to b keys1 backend1 id1) by (by exists f1, n1).
  unfold bind in Hbind.
  destruct (existsb (fun c => (128 <=? c)%Z) chord); [congruence|].
  destruct (Chord.translate chord) as [[keys2|]|];
    cbn [mbind option_bind] in Hbind; [|congruence|done].
  destruct (add_backend b backend) as [b1 index] eqn:Hadd.
  destruct (add_backend_spec b backend b1 index Hadd) as (Hg & (tail & Htail) & _).
  pose proof (wf_same_graph par b b1 Hg Hwf) as Hwf1.
  assert (Hpath1 : path b1 root_ref keys1 f1) by (by apply (path_same_graph b b1)).
  assert (Hn1' : load b1 f1 = Some n1) by (by rewrite (load_same_graph b b1 f1 Hg)).
  assert (Hbk1' : m_backends b1 !! Binder.backend n1 = Some backend1).
  { rewrite Htail. by apply lookup_app_l_Some. }
  clear Hkeep.
  destruct (index <? 0)%Z.
  { injection Hbind as _ <-. by exists f1, n1. }
  destruct (bind_loop_spec keys2 par b1 root_ref Hwf1 (allocated_root b1))
    as (b2 & r2 & Hloop & (par2 & Hwf2) & (_ & Hbk2 & _) & Hr2).
  unfold get_root in Hbind. rewrite Hloop in Hbind.
  cbn [mbind option_bind] in Hbind.
  destruct (bind_loop_frame keys2 par b1 root_ref b2 r2 Hwf1
              (allocated_root b1) Hloop)
    as (pre & rest & m & Hkeys & Hpre & Hlinks & Hoth & Hsame & Hch).
  destruct (path_ord par b1 keys1 root_ref f1 Hwf1 (allocated_root b1) Hpath1)
    as (_ & Hf1 & _).
  assert (Hpath2 : path b2 root_ref keys1 f1).
  { by apply (path_kept par b1 b2 m keys1 root_ref f1 Hwf1 (allocated_root b1)). }
  assert (Hn2 : load b2 f1 = Some n1).
  { destruct (decide (f1 = m)) as [-> | Hne]; [|by rewrite Hoth].
    pose proof (path_unique par b1 root_ref Hwf1 (allocated_root b1)
                  keys1 pre m Hpath1 Hpre) as ->.
    destruct rest as [|k more]; [by rewrite Hsame|].
    exfalso. apply (Hext k more). by rewrite Hkeys. }
  assert (Hbound2 : bound_to b2 keys1 backend1 id1).
  { exists f1, n1. rewrite Hbk2. done. }
  destruct r2 as [p2|]; [|by injection Hbind as _ <-].
  destruct (Hr2 p2 eq_refl) as [Hp2 _].
  destruct (load b2 p2) as [n2|] eqn:Hl2; cbn [mbind option_bind] in Hbind;
    [|done].
  destruct (node_use_eqb (usage n2) node_use_none) eqn:Hu2;
    cbn [negb] in Hbind; [|by injection Hbind as _ <-].
  apply node_use_eqb_eq in Hu2.
  destruct (store b2 p2 _) as [b3|] eqn:Hst; cbn [mbind option_bind] in Hbind;
    [|done].
  injection Hbind as _ <-.
  pose proof (fun Hk Hs Hnp => store_bound par2 b2 p2 n2 _ b3 Hwf2 Hp2 Hl2
                                 Hk Hs Hnp Hst) as Hsb.
  destruct (Hsb eq_refl eq_refl ltac:(done)) as (_ & Hlinks3 & Hoth3 & _).
  assert (Hne : f1 <> p2) by (intros ->; congruence).
  destruct (store_fields _ _ _ _ Hst) as (_ & Hbk3 & _).
  exists f1, n1. split; [|split; [|split; [done|split; [done|]]]].
  - apply (path_kept par2 b2 b3 p2 keys1 root_ref f1 Hwf2 (allocated_root b2));
      [done | by intros; apply Hoth3 | | done].
    intros k1 c1 Hfind.
    rewrite (find_child_leaf b2 p2 k1 n2 Hl2) in Hfind by congruence. done.
  - by rewrite Hoth3.
  - by rewrite Hbk3, Hbk2.
Qed.

(** *** The keys of the graph *)

Lemma ascii_same_graph b b' : same_graph b b' -> ascii_keys b -> ascii_keys b'.
Proof.
  intros (_ & Hn & Hx) Hb i x Hi Hl. rewrite Hx in Hi. rewrite Hn in Hl.
  by apply (Hb i x).
Qed.

Lemma ascii_same_links b b' :
  m_next_node b' = m_next_node b -> same_links (m_next_node b) b b' ->
  ascii_keys b -> ascii_keys b'.
Proof.
  intros Hx Hlinks Hb i x Hi Hl. rewrite Hx in Hi.
  destruct (Hlinks i Hi) as (x0 & x' & Hx0 & Hx' & Hk & _).
  assert (x' = x) as -> by congruence. rewrite Hk. by apply (Hb i x0).
Qed.

Lemma insert_child_ascii par b p k b' r :
  wf_par par b -> allocated b p -> ascii_keys b -> (k < 128)%Z ->
  insert_child b p k = Some (b', r) -> ascii_keys b'.
Proof.
  intros Hwf Hp Hb Hk Hins. unfold insert_child in Hins.
  destruct (find_child_wf par b p k Hwf Hp) as (res & Hfind & _).
  rewrite Hfind in Hins. cbn [mbind option_bind] in Hins.
  destruct res as [c0|]; [by injection Hins as <- _|].
  destruct (Nat.lt_ge_cases (m_next_node b) nodes_size) as [Hlt | Hge];
    [|rewrite add_child_full in Hins by done; by injection Hins as <- _].
  destruct (add_child_fresh par b p k Hwf Hp Hlt)
    as (b0 & Hadd & Hwf' & Hnx & _ & Hlinks & _ & _ & _ & Hfind').
  rewrite Hins in Hadd. injection Hadd as <- _.
  intros i x Hi Hl. rewrite Hnx in Hi.
  destruct (Nat.eq_dec i (m_next_node b)) as [-> | Hne].
  - destruct (find_child_wf _ b' p k Hwf') as (res & Hres & Hprop).
    { unfold allocated in *. lia. }
    rewrite Hfind' in Hres. injection Hres as <-.
    destruct (Hprop _ eq_refl) as (_ & _ & _ & x' & Hx' & Hkx').
    assert (x' = x) as -> by congruence. lia.
  - destruct (Hlinks i ltac:(lia)) as (x0 & x' & Hx0 & Hx' & Hkx & _).
    assert (x' = x) as -> by congruence. rewrite Hkx.
    apply (Hb i x0); [lia | done].
Qed.

Lemma bind_loop_ascii keys : forall par b p b' r,
  wf_par par b -> allocated b p -> ascii_keys b ->
  Forall Chord.ascii_byte keys ->
  bind_loop b (Some p) keys = Some (b', r) -> ascii_keys b'.
Proof.
  induction keys as [|k keys IH]; intros par b p b' r Hwf Hp Hb Hks Hloop.
  - by injection Hloop as <- _.
  - inversion Hks as [|? ? Hk Hks']; subst. cbn [bind_loop] in Hloop.
    destruct (insert_child_spec par b p k Hwf Hp)
      as (b1 & r1 & Hins & Hnone & Hsome).
    rewrite Hins in Hloop. cbn [mbind option_bind] in Hloop.
    pose proof (insert_child_ascii par b p k b1 r1 Hwf Hp Hb Hk Hins) as Hb1.
    destruct r1 as [c|]; cbn [fmap option_fmap option_map] in Hloop.
    + destruct (Hsome c eq_refl) as ((par1 & Hwf1) & Hc & _).
      by apply (IH par1 b1 (arena_ref c) b' r).
    + assert (b' = b1) as -> by (destruct keys; simpl in Hloop; congruence).
      done.
Qed.

Lemma existsb_ascii chord :
  existsb (fun c => (128 <=? c)%Z) chord = false ->
  Forall Chord.ascii_byte chord.
Proof.
  induction chord as [|c chord IH]; simpl; [done|].
  intros [Hc Hrest]%orb_false_elim.
  constructor; [|by apply IH]. unfold Chord.ascii_byte.
  by apply Z.leb_gt in Hc.
Qed.

Lemma bind_ascii b chord backend id res b' :
  wf b -> ascii_keys b -> bind b chord backend id = Some (res, b') ->
  ascii_keys b'.
Proof.
  intros [par Hwf] Hb Hbind. unfold bind in Hbind.
  destruct (existsb (fun c => (128 <=? c)%Z) chord) eqn:Hchk;
    [by injection Hbind as _ <-|].
  destruct (Chord.translate chord) as [[keys|]|] eqn:Ht;
    cbn [mbind option_bind] in Hbind; [|by injection Hbind as _ <-|done].
  pose proof (ChordMore.translate_ascii chord keys Ht (existsb_ascii _ Hchk))
    as Hks.
  destruct (add_backend b backend) as [b1 index] eqn:Hadd.
  destruct (add_backend_spec b backend b1 index Hadd) as (Hg & _ & _).
  pose proof (wf_same_graph par b b1 Hg Hwf) as Hwf1.
  pose proof (ascii_same_graph b b1 Hg Hb) as Hb1.
  destruct (index <? 0)%Z; [by injection Hbind as _ <-|].
  destruct (bind_loop_spec keys par b1 root_ref Hwf1 (allocated_root b1))
    as (b2 & r2 & Hloop & (par2 & Hwf2) & _ & Hr2).
  unfold get_root in Hbind. rewrite Hloop in Hbind.
  cbn [mbind option_bind] in Hbind.
  pose proof (bind_loop_ascii keys par b1 root_ref b2 r2 Hwf1
                (allocated_root b1) Hb1 Hks Hloop) as Hb2.
  destruct r2 as [p2|]; [|by injection Hbind as _ <-].
  destruct (Hr2 p2 eq_refl) as [Hp2 _].
  destruct (load b2 p2) as [n2|] eqn:Hl2; cbn [mbind option_bind] in Hbind;
    [|done].
  destruct (negb (node_use_eqb (usage n2) node_use_none));
    [by injection Hbind as _ <-|].
  destruct (store b2 p2 _) as [b3|] eqn:Hst; cbn [mbind option_bind] in Hbind;
    [|done].
  injection Hbind as _ <-.
  pose proof (fun Hk Hs Hnp => store_bound par2 b2 p2 n2 _ b3 Hwf2 Hp2 Hl2
                                 Hk Hs Hnp Hst) as Hsb.
  destruct (Hsb eq_refl eq_refl ltac:(done)) as (_ & Hlinks3 & _).
  destruct (store_fields _ _ _ _ Hst) as (Hnx3 & _ & _).
  by apply (ascii_same_links b2 b3).
Qed.

Lemma reachable_ascii b : reachable b -> ascii_keys b.
Proof.
  induction 1 as [garbage Hlen | b chord backend id res b' Hreach IH Hbind].
  - intros i x Hi. simpl in Hi. lia.
  - by apply (bind_ascii b chord backend id res b' (reachable_wf b Hreach)).
Qed.

(** X15.  A byte of 128 or more never matches a key: in a binder built by
    calls of [bind], [update_resolver] resolves it to no backend and the
    id -1. *)
Theorem non_ascii_key_never_matches b k r :
  reachable b -> at_node b r -> (128 <= k)%Z ->
  exists r',
    update_resolver b k r = Some r' /\ is_resolved r' = true /\
    Resolver.get_backend r' = None /\ get_id r' = (-1)%Z.
Proof.
  intros Hreach Hr Hk.
  pose proof (reachable_ascii b Hreach) as Hb.
  destruct (reachable_wf b Hreach) as [par Hwf].
  destruct (resolver_start b r Hr) as (p & Hres0 & Hp & Hi).
  unfold update_resolver.
  rewrite (current_at par b p _ Hwf Hp Hi). cbn [mbind option_bind].
  destruct (find_child_wf par b p k Hwf Hp) as (res & Hfind & Hc).
  rewrite Hfind. cbn [mbind option_bind].
  destruct res as [c|]; [|by eexists].
  destruct (Hc c eq_refl) as (Hlt & _ & _ & x & Hx & Hkx).
  pose proof (Hb c x Hlt Hx). lia.
Qed.


(** *** The allocation counter *)

Lemma bind_next_mono b chord backend id res b' :
  wf b -> bind b chord backend id = Some (res, b') ->
  m_next_node b <= m_next_node b'.
Proof.
  intros [par Hwf] Hbind. unfold bind in Hbind.
  destruct (existsb (fun c => (128 <=? c)%Z) chord);
    [by injection Hbind as _ <-|].
  destruct (Chord.translate chord) as [[keys|]|];
    cbn [mbind option_bind] in Hbind; [|by injection Hbind as _ <-|done].
  destruct (add_backend b backend) as [b1 index] eqn:Hadd.
  destruct (add_backend_spec b backend b1 index Hadd) as ((_ & _ & Hx) & _ & _).
  pose proof (wf_same_graph par b b1) as Hwf1.
  destruct (add_backend_spec b backend b1 index Hadd) as (Hg & _ & _).
  specialize (Hwf1 Hg Hwf).
  destruct (index <? 0)%Z; [injection Hbind as _ <-; lia|].
  destruct (bind_loop_spec keys par b1 root_ref Hwf1 (allocated_root b1))
    as (b2 & r2 & Hloop & _ & (Hnx & _) & _).
  unfold get_root in Hbind. rewrite Hloop in Hbind.
  cbn [mbind option_bind] in Hbind.
  destruct r2 as [p2|]; [|injection Hbind as _ <-; lia].
  destruct (load b2 p2) as [n2|]; cbn [mbind option_bind] in Hbind; [|done].
  destruct (negb _); [injection Hbind as _ <-; lia|].
  destruct (store b2 p2 _) as [b3|] eqn:Hst; cbn [mbind option_bind] in Hbind;
    [|done].
  injection Hbind as _ <-.
  destruct (store_fields _ _ _ _ Hst) as (Hnx3 & _ & _). lia.
Qed.

Lemma at_node_mono b b' r :
  m_next_node b <= m_next_node b' -> at_node b r -> at_node b' r.
Proof.
  intros Hle [Hr | (p & Hp & Hi)]; [by left|].
  right. exists p. split; [|done]. unfold allocated in *. lia.
Qed.

End Graph.
End BinderFacts.

(** * Properties of the line editor *)

Module LineEditorFacts.
Import Binder Resolver BinderResolve LineEditor.

Section Words.
Context `{collaborators} `{config} (m_desc : desc).
Local Open Scope nat_scope.

Lemma last_map {A B} (f : A -> B) (l : list A) :
  last (List.map f l) = f <$> last l.
Proof.
  induction l as [|x l IH]; [done|]. destruct l as [|y l]; [done|].
  cbn [List.map] in *. by rewrite !last_cons_cons.
Qed.

Lemma push_back_nonempty ws : 1 <= words_capacity -> push_back ws <> [].
Proof.
  intros Hcap. unfold push_back. destruct ws as [|w ws].
  - simpl. destruct (Nat.ltb_spec 0 words_capacity); [done | lia].
  - by destruct (_ <? _).
Qed.

Lemma assign_back_Some ws w :
  ws <> [] -> assign_back ws w = Some (removelast ws ++ [w]).
Proof. by destruct ws. Qed.

Lemma assign_back_last ws w ws' :
  assign_back ws w = Some ws' -> last ws' = Some w.
Proof.
  destruct ws; [done|]. intros [= <-]. apply last_snoc.
Qed.

Lemma add_words_Some toks : forall ws,
  1 <= words_capacity -> is_Some (add_words ws toks).
Proof.
  induction toks as [|t toks IH]; intros ws Hcap; simpl; [eauto|].
  rewrite assign_back_Some by (by apply push_back_nonempty).
  simpl. by apply IH.
Qed.

(** The last word after the loop that adds the words is the word of the last
    token, also when the array is full and the words overwrite one
    another. *)
Lemma add_words_last toks : forall ws ws',
  1 <= words_capacity -> add_words ws toks = Some ws' ->
  last ws' = match last toks with
             | Some t => Some (token_word t)
             | None => last ws
             end.
Proof.
  induction toks as [|t toks IH]; intros ws ws' Hcap; cbn [add_words].
  - by intros [= <-].
  - rewrite assign_back_Some by (by apply push_back_nonempty).
    cbn [mbind option_bind]. intros Hadd.
    rewrite (IH _ _ Hcap Hadd), last_snoc.
    destruct toks as [|t' toks]; [done|]. rewrite last_cons_cons.
    destruct (proj2 (last_is_Some (t' :: toks)) ltac:(done)) as [t0 ->].
    done.
Qed.

Lemma u16z_lt z : (Z.of_nat (u16z z) < 2 ^ 16)%Z.
Proof.
  unfold u16z. pose proof (Z.mod_pos_bound z (2 ^ 16) ltac:(lia)). lia.
Qed.

Lemma u16_small n : (Z.of_nat n < 2 ^ 16)%Z -> u16 n = n.
Proof.
  intros Hn. unfold u16, u16z. rewrite Z.mod_small by lia. apply Nat2Z.id.
Qed.

Lemma adjust_quotes_lt line w :
  (Z.of_nat (offset w) < 2 ^ 16)%Z -> (Z.of_nat (length w) < 2 ^ 16)%Z ->
  (Z.of_nat (offset (adjust_quotes m_desc line w)) < 2 ^ 16)%Z /\
  (Z.of_nat (length (adjust_quotes m_desc line w)) < 2 ^ 16)%Z.
Proof.
  intros Ho Hl. unfold adjust_quotes.
  destruct (length w =? 0); [done|]. cbn [offset length].
  split; apply u16z_lt.
Qed.

Lemma uncut_end_word_lt e :
  (Z.of_nat (offset (uncut_end_word m_desc e)) < 2 ^ 16)%Z /\
  (Z.of_nat (length (uncut_end_word m_desc e)) < 2 ^ 16)%Z.
Proof.
  unfold uncut_end_word.
  destruct (find_command_bounds m_desc e) as [cs cl].
  apply adjust_quotes_lt;
    (destruct (last _) as [t|]; [destruct (_ <? _)|]);
    cbn [offset length token_word cursor_word]; try apply u16z_lt; done.
Qed.

(** What the loop over the end word finds: a position inside the word,
    nothing or the position after a byte that [strchr] finds in
    [partial_delims], with no such byte from there to the end of the
    word. *)
Lemma partial_scan_spec line off j1 :
  partial_scan m_desc line off j1 <= j1 /\
  (partial_scan m_desc line off j1 = 0 \/
   strchr_found (partial_delims m_desc)
     (char_at line (off + (partial_scan m_desc line off j1 - 1))) = true) /\
  forall j, partial_scan m_desc line off j1 <= j < j1 ->
    strchr_found (partial_delims m_desc) (char_at line (off + j)) = false.
Proof.
  induction j1 as [|j1 IH]; cbn [partial_scan].
  - split; [lia|]. split; [by left|]. intros j Hj. lia.
  - destruct (strchr_found _ (char_at line (off + j1))) eqn:Hf.
    + split; [lia|]. split.
      * right. by replace (S j1 - 1) with j1 by lia.
      * intros j Hj. lia.
    + destruct IH as (Hle & Hend & Hnone). split; [lia|]. split; [done|].
      intros j Hj. destruct (Nat.eq_dec j j1) as [-> | Hne]; [done|].
      apply Hnone. lia.
Qed.

(** The end word [collect_words] leaves: the end word of the loops that add
    and adjust the words, cut by the scan for a partial delimiter. *)
Lemma collect_words_end_word e :
  1 <= words_capacity ->
  exists e',
    collect_words m_desc e = Some e' /\ m_words e' <> [] /\
    last (m_words e') =
      Some {| offset := offset (uncut_end_word m_desc e);
              length := u16 (partial_scan m_desc (text (m_buffer e))
                               (offset (uncut_end_word m_desc e))
                               (length (uncut_end_word m_desc e)));
              quoted := quoted (uncut_end_word m_desc e);
              delim := delim (uncut_end_word m_desc e) |}.
Proof.
  intros Hcap. unfold collect_words, uncut_end_word.
  destruct (find_command_bounds m_desc e) as [command_start command_length].
  match goal with
  | |- context [add_words [] ?toks] =>
      destruct (add_words_Some toks [] Hcap) as [ws Hws];
      pose proof (add_words_last toks [] ws Hcap Hws) as Hlast;
      rewrite Hws
  end.
  cbn [mbind option_bind].
  set (toks := tokenise _ _ _ _ _) in *.
  set (w0 := match last toks with
             | Some t =>
                 if offset (token_word t) + length (token_word t)
                    <? cursor (m_buffer e)
                 then cursor_word (cursor (m_buffer e)) else token_word t
             | None => cursor_word (cursor (m_buffer e))
             end).
  assert (Hstep : exists ws1,
            match last ws with
            | Some end_word =>
                if offset end_word + length end_word <? cursor (m_buffer e)
                then assign_back (push_back ws)
                       (cursor_word (cursor (m_buffer e)))
                else Some ws
            | None =>
                assign_back (push_back ws) (cursor_word (cursor (m_buffer e)))
            end = Some ws1 /\ last ws1 = Some w0).
  { unfold w0. rewrite Hlast. destruct (last toks) as [t|]; cbn [last].
    - destruct (_ <? _).
      + rewrite assign_back_Some by (by apply push_back_nonempty).
        eexists. split; [done|]. apply last_snoc.
      + exists ws. split; [done|]. rewrite Hlast. done.
    - rewrite assign_back_Some by (by apply push_back_nonempty).
      eexists. split; [done|]. apply last_snoc. }
  destruct Hstep as (ws1 & -> & Hlast1). cbn [mbind option_bind].
  rewrite last_map, Hlast1. cbn [fmap option_fmap option_map mbind option_bind].
  rewrite assign_back_Some.
  2:{ intros Hnil. apply (f_equal last) in Hnil.
      rewrite last_map, Hlast1 in Hnil. done. }
  cbn [mbind option_bind]. eexists. split; [done|].
  cbn [m_words with_words].
  split; [by destruct (removelast _) | apply last_snoc].
Qed.

Lemma collect_words_Some e :
  1 <= words_capacity ->
  exists e' end_word,
    collect_words m_desc e = Some e' /\
    m_words e' <> [] /\ last (m_words e') = Some end_word.
Proof.
  intros Hcap.
  destruct (collect_words_end_word e Hcap) as (e' & He' & Hne & Hlast).
  eauto.
Qed.

(** C10: after every call of [collect_words] the word list is not empty.
    With room for one word in [m_words], [collect_words] returns and leaves
    a last word in the list, the end word that [update_internal] and
    [accept_match] read without a check; its offset and its length are
    16-bit values, as the word fields hold them. *)
Theorem collect_words_leaves_end_word e :
  1 <= words_capacity ->
  exists e' end_word,
    collect_words m_desc e = Some e' /\
    m_words e' <> [] /\ last (m_words e') = Some end_word /\
    (Z.of_nat (offset end_word) < 2 ^ 16)%Z /\
    (Z.of_nat (length end_word) < 2 ^ 16)%Z.
Proof.
  intros Hcap.
  destruct (collect_words_end_word e Hcap) as (e' & He' & Hne & Hlast).
  eexists _, _. split; [done|]. split; [done|]. split; [done|].
  cbn [offset length]. split; [apply uncut_end_word_lt | apply u16z_lt].
Qed.
End Words.

Section Accept.
Context `{collaborators} `{config} (m_desc : desc).
Local Open Scope nat_scope.

Lemma buffer_insert_split (P D s : list char) :
  buffer_insert {| text := P ++ D; cursor := Datatypes.length P |} s =
  {| text := (P ++ s) ++ D; cursor := Datatypes.length (P ++ s) |}.
Proof.
  unfold buffer_insert. simpl.
  rewrite take_app_length, drop_app_length, length_app.
  by rewrite <- app_assoc.
Qed.

Lemma buffer_replace_word (b : line_buffer) ws wd :
  ws <= Datatypes.length (text b) ->
  buffer_insert
    (buffer_set_cursor (buffer_remove b ws (cursor b)) ws) wd =
  {| text := (take ws (text b) ++ wd) ++ drop (cursor b) (text b);
     cursor := Datatypes.length (take ws (text b) ++ wd) |}.
Proof.
  intros Hws. unfold buffer_set_cursor, buffer_remove. simpl.
  rewrite <- buffer_insert_split. f_equal. f_equal.
  rewrite length_take. lia.
Qed.

Lemma strchr_found_In s c :
  c <> 0%Z -> strchr_found s c = true <-> In c s.
Proof.
  intros Hc. unfold strchr_found.
  destruct (Z.eqb_spec c 0) as [|_]; [done|]. simpl.
  rewrite existsb_exists. split.
  - intros (x & Hx & Heq). apply Z.eqb_eq in Heq. by subst.
  - intros Hin. exists c. split; [done | apply Z.eqb_refl].
Qed.

(** The closing quote for the opening byte of a two-byte quote pair is the
    closing byte; for a one-byte pair it is that byte. *)
Lemma closing_quote_pair o c :
  quote_pair m_desc = [o; c] -> o <> 0%Z -> c <> 0%Z ->
  closing_quote m_desc o = Some [c].
Proof.
  intros Hq Ho Hc. unfold closing_quote. rewrite Hq. simpl.
  rewrite Z.eqb_refl. simpl. change (char_at [o; c] 1) with c.
  destruct (Z.eqb_spec c 0); done.
Qed.

Lemma closing_quote_single o :
  quote_pair m_desc = [o] -> o <> 0%Z -> closing_quote m_desc o = Some [o].
Proof.
  intros Hq Ho. unfold closing_quote. rewrite Hq. simpl.
  by rewrite Z.eqb_refl.
Qed.

(** C7: the trailing space of [accept_match].  For an accepted match [mtch]
    that is not empty, with [w] the end word: when the last byte of [mtch]
    is not in [partial_delims], the buffer becomes the text before the end
    word, the applied word, the closing quote for the byte before the end
    word (the closing byte of the pair when that byte is its opening byte),
    one space, and the text from the cursor on; when the last byte is in
    [partial_delims], the applied word is followed directly by the text from
    the cursor on: no space is inserted.  The calls made on the buffer say
    the same without a model of the buffer: after the insertion of the
    applied word come the insertion of the closing quote, if there is one,
    and one insertion of a space, or no call at all. *)
Theorem accept_match_trailing_space e index (mtch : list char) w :
  m_matches e !! index = Some mtch -> mtch <> [] ->
  List.last mtch 0%Z <> 0%Z ->
  last (m_words e) = Some w ->
  offset w <= Datatypes.length (text (m_buffer e)) ->
  exists e',
    accept_match m_desc e index = Some e' /\
    let before := take (offset w) (text (m_buffer e)) in
    let after := drop (cursor (m_buffer e)) (text (m_buffer e)) in
    let wd := applied_word e w mtch in
    let quote := closing_before m_desc e w in
    (~ In (List.last mtch 0%Z) (partial_delims m_desc) ->
     text (m_buffer e') = before ++ wd ++ quote ++ [32%Z] ++ after /\
     cursor (m_buffer e') =
       offset w + Datatypes.length wd + Datatypes.length quote + 1) /\
    (In (List.last mtch 0%Z) (partial_delims m_desc) ->
     text (m_buffer e') = before ++ wd ++ after /\
     cursor (m_buffer e') = offset w + Datatypes.length wd) /\
    m_trace e' =
      m_trace e
      ++ [ev_remove (offset w) (cursor (m_buffer e));
          ev_set_cursor (offset w); ev_insert wd]
      ++ (if strchr_found (partial_delims m_desc) (List.last mtch 0%Z)
          then []
          else match closing_insert m_desc e w with
               | Some q => [ev_insert q]
               | None => []
               end ++ [ev_insert [32%Z]]) /\
    (forall o c,
       quote_pair m_desc = [o; c] -> o <> 0%Z -> c <> 0%Z ->
       0 < offset w ->
       char_at (text (m_buffer e)) (offset w - 1) = o -> quote = [c]) /\
    (forall o,
       quote_pair m_desc = [o] -> o <> 0%Z -> 0 < offset w ->
       char_at (text (m_buffer e)) (offset w - 1) = o -> quote = [o]).
Proof.
  intros Hm Hne Hlastc Hw Hoff.
  pose proof (lookup_lt_Some _ _ _ Hm) as Hidx.
  unfold accept_match.
  destruct (Nat.leb_spec (Datatypes.length (m_matches e)) index); [lia|].
  rewrite Hm. destruct mtch as [|m0 m']; [done|].
  rewrite Hw. cbn [mbind option_bind].
  fold (applied_word e w (m0 :: m')).
  rewrite (buffer_replace_word (m_buffer e) (offset w) _ Hoff).
  set (before := take (offset w) (text (m_buffer e))).
  set (after := drop (cursor (m_buffer e)) (text (m_buffer e))).
  set (wd := applied_word e w (m0 :: m')).
  assert (Hbefore : Datatypes.length before = offset w).
  { unfold before. rewrite length_take. lia. }
  set (B := {| text := (before ++ wd) ++ after;
               cursor := Datatypes.length (before ++ wd) |}).
  set (calls := [ev_remove (offset w) (cursor (m_buffer e));
                 ev_set_cursor (offset w); ev_insert wd]).
  assert (Hquote :
    (if (0 <=? Z.of_nat (offset w) - 1)%Z
     then match closing_quote m_desc
                  (char_at (text (m_buffer e))
                           (Z.to_nat (Z.of_nat (offset w) - 1))) with
          | Some q => (buffer_insert B q, calls ++ [ev_insert q])
          | None => (B, calls)
          end
     else (B, calls)) =
    ({| text := ((before ++ wd) ++ closing_before m_desc e w) ++ after;
        cursor := Datatypes.length
                    ((before ++ wd) ++ closing_before m_desc e w) |},
     calls ++ match closing_insert m_desc e w with
              | Some q => [ev_insert q]
              | None => []
              end)).
  { unfold closing_before, closing_insert.
    destruct (Nat.eqb_spec (offset w) 0) as [Hz | Hz].
    - destruct (Z.leb_spec 0 (Z.of_nat (offset w) - 1)); [lia|].
      simpl. by rewrite !app_nil_r.
    - destruct (Z.leb_spec 0 (Z.of_nat (offset w) - 1)); [|lia].
      replace (Z.to_nat (Z.of_nat (offset w) - 1)) with (offset w - 1) by lia.
      destruct (closing_quote m_desc _) as [q|]; simpl.
      + unfold B. by rewrite buffer_insert_split.
      + by rewrite !app_nil_r. }
  assert (Hfound : strchr_found (partial_delims m_desc) (List.last (m0 :: m') 0%Z)
                   = true <-> In (List.last (m0 :: m') 0%Z) (partial_delims m_desc))
    by (by apply strchr_found_In).
  destruct (strchr_found (partial_delims m_desc) (List.last (m0 :: m') 0%Z));
    cbn [negb].
  - eexists. split; [done|]. cbn zeta. simpl.
    split; [intros Hnot; destruct Hnot; by apply Hfound|].
    split.
    { intros _. split.
      - by rewrite <- app_assoc.
      - by rewrite length_app, Hbefore. }
    split; [done|]. split.
    + intros o c Hq Ho Hc Hpos Hchar. unfold closing_before, closing_insert.
      destruct (Nat.eqb_spec (offset w) 0); [lia|].
      rewrite Hchar. by rewrite (closing_quote_pair o c).
    + intros o Hq Ho Hpos Hchar. unfold closing_before, closing_insert.
      destruct (Nat.eqb_spec (offset w) 0); [lia|].
      rewrite Hchar. by rewrite (closing_quote_single o).
  - rewrite Hquote. eexists. split; [done|]. cbn zeta.
    rewrite buffer_insert_split. simpl.
    split.
    { intros _. split.
      - by rewrite <- !app_assoc.
      - rewrite !length_app, Hbefore. simpl. lia. }
    split; [intros Hin; apply Hfound in Hin; done|].
    split; [unfold calls; by rewrite <- ?app_assoc|]. split.
    + intros o c Hq Ho Hc Hpos Hchar. unfold closing_before, closing_insert.
      destruct (Nat.eqb_spec (offset w) 0); [lia|].
      rewrite Hchar. by rewrite (closing_quote_pair o c).
    + intros o Hq Ho Hpos Hchar. unfold closing_before, closing_insert.
      destruct (Nat.eqb_spec (offset w) 0); [lia|].
      rewrite Hchar. by rewrite (closing_quote_single o).
Qed.
End Accept.

Section Refresh.
Context `{collaborators} `{config} (m_desc : desc).

(** *** What the steps leave alone *)

Lemma for_backends_fields hook line backends : forall e,
  let e' := for_backends hook line backends e in
  m_prev_key e' = m_prev_key e /\ m_trace e' = m_trace e /\
  m_flags e' = m_flags e /\ m_words e' = m_words e /\
  m_bind_resolver e' = m_bind_resolver e /\ m_binder e' = m_binder e.
Proof.
  unfold for_backends.
  induction backends as [|backend backends IH]; intros e; simpl; [done|].
  destruct (hook backend (get_context e line) (m_world e)) as [buf w].
  destruct (IH (with_world (with_buffer e buf) w)) as (? & ? & ? & ? & ? & ?).
  done.
Qed.

Lemma collect_words_fields e e' :
  collect_words m_desc e = Some e' ->
  m_prev_key e' = m_prev_key e /\ m_trace e' = m_trace e /\
  m_flags e' = m_flags e /\ m_buffer e' = m_buffer e /\
  m_bind_resolver e' = m_bind_resolver e /\ m_binder e' = m_binder e.
Proof.
  unfold collect_words.
  destruct (find_command_bounds m_desc e) as [command_start command_length].
  destruct (add_words _ _) as [ws|]; [|done]. cbn [mbind option_bind].
  match goal with |- context [?x ≫= _] => destruct x as [ws1|]; [|done] end.
  cbn [mbind option_bind].
  destruct (last _) as [end_word|]; [|done]. cbn [mbind option_bind].
  destruct (assign_back _ _) as [ws2|]; [|done]. cbn [mbind option_bind].
  intros [= <-]. done.
Qed.

(** *** The key of the match refresh *)

Ltac key_arith :=
  unfold set_cursor_pos, get_cursor_pos, key_value;
  change (2 ^ 11) with 2048; change (2 ^ 10) with 1024;
  change (2 ^ 21) with 2097152; Z.div_mod_to_equations; lia.

Lemma set_cursor_pos_key o l c0 c :
  set_cursor_pos (key_value o l c0) c = key_value o l c.
Proof. key_arith. Qed.

Lemma key_value_eq_iff o l o' l' c' :
  key_value o l 0 = set_cursor_pos (key_value o' l' c') 0 <->
  o mod 2 ^ 11 = o' mod 2 ^ 11 /\ l mod 2 ^ 10 = l' mod 2 ^ 10.
Proof. key_arith. Qed.

(** *** One run of the match refresh *)

Lemma refresh_matches_spec e w :
  let e' := refresh_matches e w in
  m_prev_key e' =
    key_value (Z.of_nat (offset w)) (Z.of_nat (length w))
              (Z.of_nat (cursor (m_buffer e))) /\
  m_words e' = m_words e /\ m_flags e' = m_flags e /\
  exists line tail,
    m_trace e' =
      m_trace e
      ++ (if key_changed e w then [ev_reset; ev_generate line; ev_fill_info]
          else [])
      ++ tail /\
    (tail = [] \/
     exists needle, tail = [ev_select needle; ev_sort; ev_matches_changed]).
Proof.
  unfold refresh_matches, key_changed.
  set (k0 := key_value (Z.of_nat (offset w)) (Z.of_nat (length w)) 0).
  set (changed := negb (k0 =? set_cursor_pos (m_prev_key e) 0)).
  set (line := get_linestate e).
  set (e1 := if changed
             then log (with_matches e (pipeline_generate line (m_generators e)))
                      [ev_reset; ev_generate line; ev_fill_info]
             else e).
  assert (He1 : m_prev_key e1 = m_prev_key e /\ m_buffer e1 = m_buffer e /\
                m_words e1 = m_words e /\ m_flags e1 = m_flags e /\
                m_trace e1 =
                  m_trace e ++ (if changed
                                then [ev_reset; ev_generate line; ev_fill_info]
                                else [])).
  { unfold e1. destruct changed; simpl; [done|]. by rewrite app_nil_r. }
  destruct He1 as (Hp1 & Hb1 & Hw1 & Hf1 & Ht1).
  rewrite Hb1, Hp1.
  set (k1 := set_cursor_pos k0 (Z.of_nat (cursor (m_buffer e)))).
  assert (Hk1 : k1 = key_value (Z.of_nat (offset w)) (Z.of_nat (length w))
                               (Z.of_nat (cursor (m_buffer e)))).
  { unfold k1, k0. apply set_cursor_pos_key. }
  destruct (Z.eqb_spec k1 (m_prev_key e)) as [Heq | Hneq]; cbn [negb].
  - rewrite Hp1, Hw1, Hf1, Ht1, <- Heq. split; [done|]. split; [done|].
    split; [done|]. exists line, []. rewrite app_nil_r. split; [done|]. by left.
  - match goal with
    | |- context [for_backends ?hook ?l ?bs ?x] =>
        destruct (for_backends_fields hook l bs x) as (Hp & Ht & Hf & Hw & _)
    end.
    rewrite Hp, Ht, Hf, Hw. simpl. rewrite Hw1, Hf1, Ht1.
    split; [done|]. split; [done|]. split; [done|].
    eexists line, _. split; [by rewrite <- !app_assoc|]. right. eauto.
Qed.

Lemma update_internal_inv e e' :
  update_internal m_desc e = Some e' ->
  exists ec w,
    collect_words m_desc e = Some ec /\ last (m_words ec) = Some w /\
    e' = refresh_matches ec w /\ last (m_words e') = Some w.
Proof.
  unfold update_internal.
  destruct (collect_words m_desc e) as [ec|] eqn:Hc; [|done].
  cbn [mbind option_bind].
  destruct (last (m_words ec)) as [w|] eqn:Hw; [|done].
  cbn [mbind option_bind]. intros [= <-]. exists ec, w.
  destruct (refresh_matches_spec ec w) as (_ & Hws & _).
  split; [done|]. split; [done|]. split; [done|]. by rewrite Hws.
Qed.

Lemma generated_iff e e' w :
  update_internal m_desc e = Some e' -> last (m_words e') = Some w ->
  exists ec, collect_words m_desc e = Some ec /\
             generated e e' = key_changed ec w /\
             m_prev_key e' =
               key_value (Z.of_nat (offset w)) (Z.of_nat (length w))
                         (Z.of_nat (cursor (m_buffer ec))).
Proof.
  intros Hup Hlast.
  destruct (update_internal_inv e e' Hup) as (ec & w' & Hc & _ & -> & Hw').
  assert (w' = w) as -> by congruence.
  destruct (collect_words_fields e ec Hc) as (_ & Htc & _).
  destruct (refresh_matches_spec ec w) as (Hp & _ & _ & line & tail & Ht & Htail).
  exists ec. split; [done|]. split; [|done].
  unfold generated. rewrite Ht, Htc, drop_app_length, existsb_app.
  assert (Hno : existsb (fun ev => match ev with
                                   | ev_generate _ => true
                                   | _ => false
                                   end) tail = false).
  { destruct Htail as [-> | [needle ->]]; done. }
  rewrite Hno, orb_false_r. by destruct (key_changed ec w).
Qed.

(** C6, as amended: across two consecutive runs of the match refresh, the
    second starting with the previous key the first has left, the generators
    are invoked again exactly when the offset of the end word modulo 2^11 or
    its length modulo 2^10 has changed; the cursor position plays no part. *)
Theorem generators_rerun_iff_key_fields_change e1 e1' e2 e2' w1 w2 :
  update_internal m_desc e1 = Some e1' -> last (m_words e1') = Some w1 ->
  m_prev_key e2 = m_prev_key e1' ->
  update_internal m_desc e2 = Some e2' -> last (m_words e2') = Some w2 ->
  generated e2 e2' = true <->
  ~ (Z.of_nat (offset w2) mod 2 ^ 11 = Z.of_nat (offset w1) mod 2 ^ 11 /\
     Z.of_nat (length w2) mod 2 ^ 10 = Z.of_nat (length w1) mod 2 ^ 10).
Proof.
  intros Hup1 Hw1 Hprev Hup2 Hw2.
  destruct (generated_iff e1 e1' w1 Hup1 Hw1) as (ec1 & _ & _ & Hkey1).
  destruct (generated_iff e2 e2' w2 Hup2 Hw2) as (ec2 & Hc2 & -> & _).
  destruct (collect_words_fields e2 ec2 Hc2) as (Hp2 & _).
  unfold key_changed. rewrite Hp2, Hprev, Hkey1.
  rewrite negb_true_iff, Z.eqb_neq, key_value_eq_iff. done.
Qed.

(** The part of C6 that stands as it is written: when the end word has the
    offset and the length it had in the previous run, the generators are not
    invoked again, wherever the cursor is. *)
Corollary generators_not_rerun_same_end_word e1 e1' e2 e2' w1 w2 :
  update_internal m_desc e1 = Some e1' -> last (m_words e1') = Some w1 ->
  m_prev_key e2 = m_prev_key e1' ->
  update_internal m_desc e2 = Some e2' -> last (m_words e2') = Some w2 ->
  offset w2 = offset w1 -> length w2 = length w1 ->
  generated e2 e2' = false.
Proof.
  intros Hup1 Hw1 Hprev Hup2 Hw2 Ho Hl.
  destruct (generated_iff e1 e1' w1 Hup1 Hw1) as (ec1 & _ & _ & Hkey1).
  destruct (generated_iff e2 e2' w2 Hup2 Hw2) as (ec2 & Hc2 & -> & _).
  destruct (collect_words_fields e2 ec2 Hc2) as (Hp2 & _).
  unfold key_changed. rewrite Hp2, Hprev, Hkey1, Ho, Hl.
  rewrite negb_false_iff, Z.eqb_eq, key_value_eq_iff. done.
Qed.
End Refresh.

Section Flags.
Context `{collaborators} `{config} (m_desc : desc).

(** *** Bits of the flags *)

Lemma to_uchar_bits z n :
  0 <= n -> Z.testbit (to_uchar z) n = Z.testbit z n && (n <? 8).
Proof.
  intros Hn. unfold to_uchar. rewrite Z.land_spec.
  change 255 with (Z.ones 8). by rewrite Z.testbit_ones_nonneg by lia.
Qed.

Lemma byte_high_bits g n : 0 <= g < 256 -> 8 <= n -> Z.testbit g n = false.
Proof.
  intros Hg Hn. destruct (Z.eq_dec g 0) as [-> | Hne]; [apply Z.bits_0|].
  apply Z.bits_above_log2; [lia|].
  assert (Z.log2 g < 8); [|lia]. apply Z.log2_lt_pow2; lia.
Qed.

Lemma land_zero_bits f g n :
  Z.land f g = 0 -> Z.testbit f n && Z.testbit g n = false.
Proof. intros Hfg. rewrite <- Z.land_spec, Hfg. apply Z.bits_0. Qed.

Ltac flag_bits :=
  apply Z.bits_inj'; intros n Hn;
  repeat first [ rewrite Z.land_spec | rewrite Z.lor_spec
               | rewrite to_uchar_bits by lia | rewrite Z.lnot_spec by lia
               | rewrite Z.bits_0 ].

Lemma set_flag_bits m f :
  0 <= f < 256 -> Z.land (to_uchar (Z.lor m (to_uchar f))) (to_uchar f) = f.
Proof.
  intros Hf. flag_bits.
  destruct (Z.ltb_spec n 8); [|rewrite (byte_high_bits f n) by lia];
    destruct (Z.testbit m n), (Z.testbit f n); done.
Qed.

Lemma set_flag_other_bits m f g :
  Z.land f g = 0 ->
  Z.land (to_uchar (Z.lor m (to_uchar f))) (to_uchar g) =
  Z.land m (to_uchar g).
Proof.
  intros Hfg. flag_bits. pose proof (land_zero_bits f g n Hfg).
  destruct (n <? 8), (Z.testbit m n), (Z.testbit f n), (Z.testbit g n); done.
Qed.

Lemma clear_flag_bits m f :
  Z.land (to_uchar (Z.land m (Z.lnot (to_uchar f)))) (to_uchar f) = 0.
Proof.
  flag_bits.
  destruct (n <? 8), (Z.testbit m n), (Z.testbit f n); done.
Qed.

Lemma clear_flag_other_bits m f g :
  Z.land f g = 0 ->
  Z.land (to_uchar (Z.land m (Z.lnot (to_uchar f)))) (to_uchar g) =
  Z.land m (to_uchar g).
Proof.
  intros Hfg. flag_bits. pose proof (land_zero_bits f g n Hfg).
  destruct (n <? 8), (Z.testbit m n), (Z.testbit f n), (Z.testbit g n); done.
Qed.

(** [clear_flag(~f)] keeps [f] and clears every flag that shares no bit
    with it. *)
Lemma clear_not_flag_bits m f :
  Z.land (to_uchar (Z.land m (Z.lnot (to_uchar (Z.lnot f))))) (to_uchar f) =
  Z.land m (to_uchar f).
Proof.
  flag_bits.
  destruct (n <? 8), (Z.testbit m n), (Z.testbit f n); done.
Qed.

Lemma clear_not_flag_other_bits m f g :
  Z.land f g = 0 ->
  Z.land (to_uchar (Z.land m (Z.lnot (to_uchar (Z.lnot f))))) (to_uchar g) = 0.
Proof.
  intros Hfg. flag_bits. pose proof (land_zero_bits f g n Hfg).
  destruct (n <? 8), (Z.testbit m n), (Z.testbit f n), (Z.testbit g n); done.
Qed.

(** *** Setting, clearing and checking a flag *)

Lemma check_flag_ext e e' flag :
  m_flags e' = m_flags e -> check_flag e' flag = check_flag e flag.
Proof. intros Hf. unfold check_flag. by rewrite Hf. Qed.

Lemma check_set_flag e f : 0 < f < 256 -> check_flag (set_flag e f) f = true.
Proof.
  intros Hf. unfold check_flag, set_flag. simpl.
  rewrite set_flag_bits by lia. destruct (Z.eqb_spec f 0); [lia | done].
Qed.

Lemma check_set_flag_other e f g :
  Z.land f g = 0 -> check_flag (set_flag e f) g = check_flag e g.
Proof.
  intros Hfg. unfold check_flag, set_flag. simpl.
  by rewrite set_flag_other_bits.
Qed.

Lemma check_clear_flag e f : check_flag (clear_flag e f) f = false.
Proof. unfold check_flag, clear_flag. simpl. by rewrite clear_flag_bits. Qed.

Lemma check_clear_flag_other e f g :
  Z.land f g = 0 -> check_flag (clear_flag e f) g = check_flag e g.
Proof.
  intros Hfg. unfold check_flag, clear_flag. simpl.
  by rewrite clear_flag_other_bits.
Qed.

Lemma check_clear_not_flag e f :
  check_flag (clear_flag e (Z.lnot f)) f = check_flag e f.
Proof.
  unfold check_flag, clear_flag. simpl. by rewrite clear_not_flag_bits.
Qed.

Lemma check_clear_not_flag_other e f g :
  Z.land f g = 0 -> check_flag (clear_flag e (Z.lnot f)) g = false.
Proof.
  intros Hfg. unfold check_flag, clear_flag. simpl.
  by rewrite clear_not_flag_other_bits.
Qed.

(** *** The flags along the driver *)

Lemma read_key_flags e e1 : read_key e = Some e1 -> m_flags e1 = m_flags e.
Proof.
  unfold read_key. destruct (terminal_read (m_world e)) as [k w].
  assert (Hrec : forall x, m_flags (record_input x (to_uchar k)) = m_flags x).
  { intros x. unfold record_input. by destruct (_ <? _)%nat. }
  destruct (negb _).
  - destruct (update_resolver _ _ _) as [r|]; [|done].
    cbn [mbind option_bind]. intros [= <-]. simpl. by rewrite Hrec.
  - intros [= <-]. by rewrite Hrec.
Qed.

Lemma call_backend_flags e :
  m_flags (snd (call_backend e)) = m_flags e.
Proof.
  unfold call_backend. by destruct (on_input _ _ _ _ _) as [[result buf] w].
Qed.

Lemma end_line_flags e : m_flags (end_line e) = m_flags (clear_flag e flag_editing).
Proof. reflexivity. Qed.

Lemma begin_line_flags e :
  m_flags (begin_line m_desc e) =
  m_flags (set_flag (clear_flag e (Z.lnot flag_init)) flag_editing).
Proof.
  unfold begin_line.
  match goal with
  | |- context [for_backends ?hook ?l ?bs ?x] =>
      destruct (for_backends_fields hook l bs x) as (_ & _ & -> & _)
  end.
  reflexivity.
Qed.

Lemma update_internal_flags e e' :
  update_internal m_desc e = Some e' -> m_flags e' = m_flags e.
Proof.
  intros Hup.
  destruct (update_internal_inv m_desc e e' Hup) as (ec & w & Hc & _ & -> & _).
  destruct (collect_words_fields m_desc e ec Hc) as (_ & _ & <- & _).
  by destruct (refresh_matches_spec ec w) as (_ & _ & -> & _).
Qed.

Lemma update_internal_Some e :
  (1 <= words_capacity)%nat -> is_Some (update_internal m_desc e).
Proof.
  intros Hcap. unfold update_internal.
  destruct (collect_words_Some m_desc e Hcap)
    as (ec & w & -> & _ & Hw).
  cbn [mbind option_bind]. rewrite Hw. cbn [mbind option_bind]. eauto.
Qed.

(** C8, as amended: once a backend's [on_input] has returned the eof result
    during [edit], the eof flag is set and the editing flag cleared; that
    call of [edit] returns [false] and so does a [get_line] that follows.
    The flag is not latched beyond that: the next [update], the first of a
    later [edit], begins a new line, which clears the eof flag and sets the
    editing flag again. *)
Theorem eof_result_ends_edit e e1 :
  flags_ok -> (1 <= words_capacity)%nat ->
  check_flag e flag_init = true -> check_flag e flag_editing = true ->
  read_key e = Some e1 -> is_resolved (m_bind_resolver e1) = true ->
  to_uchar (Z.land (fst (call_backend e1)) 255) = result_eof ->
  exists e',
    update m_desc e = Some (false, e') /\
    check_flag e' flag_eof = true /\ check_flag e' flag_editing = false /\
    (forall fuel out_size,
       edit m_desc (S fuel) e out_size = Some (e', false, [])) /\
    (forall out_size, get_line e' out_size = (e', false, [])) /\
    exists e'',
      update m_desc e' = Some (true, e'') /\
      check_flag e'' flag_editing = true /\ check_flag e'' flag_eof = false.
Proof.
  intros (Hi & Hed & Heof & Hie & Hif & Hef) Hcap Hinit Hediting Hread Hres Hcall.
  destruct (call_backend e1) as [result e2] eqn:Hcb. simpl in Hcall.
  pose proof (call_backend_flags e1) as Hf2. rewrite Hcb in Hf2. simpl in Hf2.
  pose proof (read_key_flags e e1 Hread) as Hf1.
  set (e' := end_line (set_flag e2 flag_eof)).
  assert (Hdisp : dispatch m_desc e1 = Some e').
  { unfold dispatch. rewrite Hres, Hcb. cbn [negb].
    rewrite Hcall, Z.eqb_refl. done. }
  assert (Heof' : check_flag e' flag_eof = true).
  { unfold e'. rewrite (check_flag_ext _ _ _ (end_line_flags _)).
    rewrite check_clear_flag_other by done. by apply check_set_flag. }
  assert (Hed' : check_flag e' flag_editing = false).
  { unfold e'. rewrite (check_flag_ext _ _ _ (end_line_flags _)).
    apply check_clear_flag. }
  assert (Hinit' : check_flag e' flag_init = true).
  { unfold e'. rewrite (check_flag_ext _ _ _ (end_line_flags _)).
    rewrite check_clear_flag_other by (by rewrite Z.land_comm).
    rewrite check_set_flag_other by (by rewrite Z.land_comm).
    rewrite (check_flag_ext e e2) by congruence. done. }
  assert (Hup : update m_desc e = Some (false, e')).
  { unfold update. rewrite Hinit. cbn [negb mbind option_bind].
    rewrite Hediting. cbn [negb]. rewrite Hread. cbn [mbind option_bind].
    rewrite Hdisp. cbn [mbind option_bind]. by rewrite Hed'. }
  assert (Hget : forall out_size, get_line e' out_size = (e', false, [])).
  { intros out_size. unfold get_line. by rewrite Hed', Heof'. }
  exists e'. split; [done|]. split; [done|]. split; [done|]. split.
  { intros fuel out_size. unfold edit. cbn [edit_loop]. rewrite Hup.
    cbn [mbind option_bind]. by rewrite Hget. }
  split; [done|].
  destruct (update_internal_Some (begin_line m_desc e') Hcap) as [e'' Hui].
  pose proof (update_internal_flags _ _ Hui) as Hf''.
  exists e''. split.
  { unfold update. rewrite Hinit'. cbn [negb mbind option_bind].
    rewrite Hed'. cbn [negb]. by rewrite Hui. }
  rewrite !(check_flag_ext _ _ _ Hf''), !(check_flag_ext _ _ _ (begin_line_flags _)).
  split.
  - by apply check_set_flag.
  - rewrite check_set_flag_other by done.
    by apply check_clear_not_flag_other.
Qed.

(** *** The end word along the driver *)

Lemma read_key_words e e1 : read_key e = Some e1 -> m_words e1 = m_words e.
Proof.
  unfold read_key. destruct (terminal_read (m_world e)) as [k w].
  assert (Hrec : forall x, m_words (record_input x (to_uchar k)) = m_words x).
  { intros x. unfold record_input. by destruct (_ <? _)%nat. }
  destruct (negb _).
  - destruct (update_resolver _ _ _) as [r|]; [|done].
    cbn [mbind option_bind]. intros [= <-]. simpl. by rewrite Hrec.
  - intros [= <-]. by rewrite Hrec.
Qed.

Lemma call_backend_words e : m_words (snd (call_backend e)) = m_words e.
Proof.
  unfold call_backend. by destruct (on_input _ _ _ _ _) as [[result buf] w].
Qed.

Lemma accept_match_fields e index e' :
  accept_match m_desc e index = Some e' ->
  m_words e' = m_words e /\ m_flags e' = m_flags e.
Proof.
  unfold accept_match. destruct (_ <=? _)%nat; [by intros [= <-]|].
  destruct (m_matches e !! index) as [[|m0 m']|]; try by intros [= <-].
  destruct (last (m_words e)) as [w|]; [|done]. cbn [mbind option_bind].
  destruct (negb _).
  - destruct (0 <=? _); [destruct (closing_quote _ _)|]; by intros [= <-].
  - by intros [= <-].
Qed.

(** With an end word in the list [accept_match] returns. *)
Lemma accept_match_Some e index :
  m_words e <> [] -> is_Some (accept_match m_desc e index).
Proof.
  intros Hw. apply last_is_Some in Hw as [w Hw].
  unfold accept_match. destruct (_ <=? _)%nat; [eauto|].
  destruct (m_matches e !! index) as [[|m0 m']|]; eauto.
  rewrite Hw. cbn [mbind option_bind].
  destruct (negb _); [|eauto].
  destruct (0 <=? _); [destruct (closing_quote _ _)|]; eauto.
Qed.

(** What [dispatch] leaves still has the words it found, and the flags too
    unless it has ended the line. *)
Lemma dispatch_fields e e' :
  dispatch m_desc e = Some e' ->
  m_words e' = m_words e /\
  (m_flags e' = m_flags e \/ check_flag e' flag_editing = false).
Proof.
  unfold dispatch. destruct (negb _); [by intros [= <-]; auto|].
  pose proof (call_backend_words e) as Hw. pose proof (call_backend_flags e) as Hf.
  destruct (call_backend e) as [result e2]. simpl in Hw, Hf.
  destruct (_ =? result_eof).
  { intros [= <-]. split; [done|]. right.
    rewrite (check_flag_ext _ _ _ (end_line_flags _)). apply check_clear_flag. }
  destruct (_ =? result_done).
  { intros [= <-]. split; [done|]. right.
    rewrite (check_flag_ext _ _ _ (end_line_flags _)). apply check_clear_flag. }
  destruct (_ =? result_accept_match).
  { destruct (accept_match m_desc e2 _) as [e3|] eqn:Hacc; [|done].
    cbn [mbind option_bind]. intros [= <-].
    destruct (accept_match_fields _ _ _ Hacc) as [Hw3 Hf3]. simpl.
    split; [congruence|]. left. congruence. }
  destruct (_ =? result_redraw); [intros [= <-]; simpl; by auto|].
  destruct (_ =? result_next); [intros [= <-]; simpl; by auto|].
  destruct (_ =? result_more_input); intros [= <-]; simpl; by auto.
Qed.

Lemma initialise_fields e e' :
  Z.land flag_init flag_editing = 0 ->
  initialise e = Some e' ->
  m_words e' = m_words e /\
  check_flag e' flag_editing = check_flag e flag_editing.
Proof.
  intros Hie. unfold initialise. destruct (check_flag e flag_init).
  { by intros [= <-]. }
  destruct (bind_backends _ _) as [b|]; [|done]. cbn [mbind option_bind].
  intros [= <-]. split; [done|].
  by rewrite check_set_flag_other.
Qed.

(** The constructor leaves no flag set, and [update] keeps an end word in
    the list while a line is edited: the end word [accept_match] reads is
    there whenever [dispatch] calls it. *)
Lemma update_keeps_end_word e more e' :
  Z.land flag_init flag_editing = 0 ->
  has_end_word e -> update m_desc e = Some (more, e') -> has_end_word e'.
Proof.
  intros Hie Hinv. unfold update.
  destruct (if negb (check_flag e flag_init) then initialise e else Some e)
    as [e0|] eqn:Hinit; [|done].
  assert (Hw0 : m_words e0 = m_words e /\
                check_flag e0 flag_editing = check_flag e flag_editing).
  { destruct (negb (check_flag e flag_init)).
    - by apply initialise_fields.
    - by injection Hinit as <-. }
  destruct Hw0 as [Hw0 He0]. cbn [mbind option_bind].
  destruct (check_flag e0 flag_editing) eqn:Hed0; cbn [negb].
  - destruct (read_key e0) as [e1|] eqn:Hread; [|done].
    cbn [mbind option_bind].
    destruct (dispatch m_desc e1) as [e2|] eqn:Hdisp; [|done].
    cbn [mbind option_bind].
    destruct (dispatch_fields _ _ Hdisp) as [Hw2 _].
    destruct (check_flag e2 flag_editing) eqn:Hed2; cbn [negb].
    + destruct (negb (is_resolved (m_bind_resolver e2))).
      * destruct (update_internal m_desc e2) as [e3|] eqn:Hui; [|done].
        cbn [mbind option_bind]. intros [= _ <-] _.
        destruct (update_internal_inv m_desc _ _ Hui) as (_ & w & _ & _ & _ & Hl).
        apply last_is_Some. eauto.
      * cbn [mbind option_bind]. intros [= _ <-] _.
        rewrite Hw2, (read_key_words _ _ Hread), Hw0. apply Hinv. congruence.
    + intros [= _ <-] Hed. congruence.
  - destruct (update_internal m_desc (begin_line m_desc e0)) as [e3|] eqn:Hui;
      [|done].
    cbn [mbind option_bind]. intros [= _ <-] _.
    destruct (update_internal_inv m_desc _ _ Hui) as (_ & w & _ & _ & _ & Hl).
    apply last_is_Some. eauto.
Qed.
End Flags.
End LineEditorFacts.

(** * More on the line editor *)

Module LineEditorMore.
Import Binder Resolver BinderResolve LineEditor LineEditorFacts.

Section Words.
Context `{collaborators} `{config} (m_desc : desc).
Local Open Scope nat_scope.



(** X17.  The end word [collect_words] leaves is the end word of the loops
    that add the words and adjust them for quotes, cut after its last
    partial delimiter: it has the same offset; it is empty or its last byte
    is one that [strchr] finds in [partial_delims]; and no byte of the uncut
    word behind it is one. *)
Theorem end_word_cut_after_last_partial_delimiter e e' w :
  1 <= words_capacity ->
  collect_words m_desc e = Some e' -> last (m_words e') = Some w ->
  offset w = offset (uncut_end_word m_desc e) /\
  quoted w = quoted (uncut_end_word m_desc e) /\
  delim w = delim (uncut_end_word m_desc e) /\
  length w <= length (uncut_end_word m_desc e) /\
  (length w = 0 \/
   strchr_found (partial_delims m_desc)
     (char_at (text (m_buffer e)) (offset w + (length w - 1))) = true) /\
  forall j, length w <= j < length (uncut_end_word m_desc e) ->
    strchr_found (partial_delims m_desc)
      (char_at (text (m_buffer e)) (offset w + j)) = false.
Proof.
  intros Hcap Hc Hw.
  destruct (collect_words_end_word m_desc e Hcap) as (e0 & He0 & _ & Hlast).
  rewrite Hc in He0. injection He0 as <-.
  rewrite Hw in Hlast. injection Hlast as ->. cbn [offset length quoted delim].
  set (ew := uncut_end_word m_desc e).
  destruct (partial_scan_spec m_desc (text (m_buffer e)) (offset ew) (length ew))
    as (Hle & Hend & Hnone).
  destruct (uncut_end_word_lt m_desc e) as [_ Hlen]. fold ew in Hlen.
  rewrite u16_small by lia. done.
Qed.
End Words.

Section Driver.
Context `{collaborators} `{config} (m_desc : desc).

Lemma land_comm_zero f g : Z.land f g = 0 -> Z.land g f = 0.
Proof. by rewrite Z.land_comm. Qed.

(** X18.  [get_line] leaves the editor with no line being edited, and it
    returns [true] exactly when the eof flag is not set. *)
Theorem get_line_ends_line e out_size :
  Z.land flag_editing flag_eof = 0 ->
  let r := get_line e out_size in
  check_flag (fst (fst r)) flag_editing = false /\
  snd (fst r) = negb (check_flag e flag_eof).
Proof.
  intros Hee. cbv zeta. unfold get_line.
  destruct (check_flag e flag_editing) eqn:Hed.
  - assert (Heof : check_flag (end_line e) flag_eof = check_flag e flag_eof).
    { rewrite (check_flag_ext _ _ _ (end_line_flags e)).
      by apply check_clear_flag_other. }
    assert (Hoff : check_flag (end_line e) flag_editing = false).
    { rewrite (check_flag_ext _ _ _ (end_line_flags e)).
      apply check_clear_flag. }
    rewrite Heof. by destruct (check_flag e flag_eof).
  - by destruct (check_flag e flag_eof).
Qed.

Lemma dispatch_init_flag e e' :
  flags_ok -> dispatch m_desc e = Some e' ->
  check_flag e' flag_init = check_flag e flag_init.
Proof.
  intros (_ & _ & _ & Hie & Hif & Hee). unfold dispatch.
  destruct (negb _); [by intros [= <-]|].
  pose proof (call_backend_flags e) as Hf.
  destruct (call_backend e) as [result e2]. simpl in Hf.
  assert (Hend : forall x,
            check_flag (end_line x) flag_init = check_flag x flag_init).
  { intros x. rewrite (check_flag_ext _ _ _ (end_line_flags x)).
    by apply check_clear_flag_other, land_comm_zero. }
  destruct (_ =? result_eof).
  { intros [= <-]. rewrite Hend.
    rewrite check_set_flag_other by (by apply land_comm_zero).
    by apply check_flag_ext. }
  destruct (_ =? result_done).
  { intros [= <-]. rewrite Hend. by apply check_flag_ext. }
  destruct (_ =? result_accept_match).
  { destruct (accept_match m_desc e2 _) as [e3|] eqn:Hacc; [|done].
    cbn [mbind option_bind]. intros [= <-].
    destruct (accept_match_fields _ _ _ _ Hacc) as [_ Hf3].
    apply check_flag_ext. simpl. congruence. }
  destruct (_ =? result_redraw); [intros [= <-]; by apply check_flag_ext|].
  destruct (_ =? result_next); [intros [= <-]; by apply check_flag_ext|].
  destruct (_ =? result_more_input); intros [= <-]; by apply check_flag_ext.
Qed.

(** X19.  [update] returns whether a line is still being edited, and the
    editor is initialised after it. *)
Theorem update_returns_editing e more e' :
  flags_ok -> update m_desc e = Some (more, e') ->
  check_flag e' flag_editing = more /\ check_flag e' flag_init = true.
Proof.
  intros Hok. pose proof Hok as (Hi & He & _ & Hie & Hif & Hee).
  unfold update.
  destruct (if negb (check_flag e flag_init) then initialise e else Some e)
    as [e0|] eqn:Hinit; [|done].
  assert (Hi0 : check_flag e0 flag_init = true).
  { destruct (check_flag e flag_init) eqn:Hfi; cbn [negb] in Hinit.
    - by injection Hinit as <-.
    - unfold initialise in Hinit. rewrite Hfi in Hinit.
      destruct (bind_backends _ _) as [b|]; [|done].
      injection Hinit as <-. by apply check_set_flag. }
  cbn [mbind option_bind].
  destruct (check_flag e0 flag_editing) eqn:Hed0; cbn [negb].
  - destruct (read_key e0) as [e1|] eqn:Hread; [|done].
    cbn [mbind option_bind].
    destruct (dispatch m_desc e1) as [e2|] eqn:Hdisp; [|done].
    cbn [mbind option_bind].
    assert (Hi2 : check_flag e2 flag_init = true).
    { rewrite (dispatch_init_flag e1 e2 Hok Hdisp).
      by rewrite (check_flag_ext _ _ _ (read_key_flags _ _ Hread)). }
    destruct (check_flag e2 flag_editing) eqn:Hed2; cbn [negb].
    + destruct (negb (is_resolved (m_bind_resolver e2))).
      * destruct (update_internal m_desc e2) as [e3|] eqn:Hui; [|done].
        cbn [mbind option_bind]. intros [= <- <-].
        by rewrite !(check_flag_ext _ _ _ (update_internal_flags _ _ _ Hui)).
      * cbn [mbind option_bind]. by intros [= <- <-].
    + by intros [= <- <-].
  - destruct (update_internal m_desc (begin_line m_desc e0)) as [e3|] eqn:Hui;
      [|done].
    cbn [mbind option_bind]. intros [= <- <-].
    rewrite !(check_flag_ext _ _ _ (update_internal_flags _ _ _ Hui)).
    rewrite !(check_flag_ext _ _ _ (begin_line_flags _ e0)).
    split; [by apply check_set_flag|].
    rewrite check_set_flag_other by (by apply land_comm_zero).
    by rewrite check_clear_not_flag.
Qed.

(** [update] keeps the eof flag clear while a line is edited. *)
Lemma editing_implies_no_eof e more e' :
  flags_ok ->
  (check_flag e flag_editing = true -> check_flag e flag_eof = false) ->
  update m_desc e = Some (more, e') ->
  check_flag e' flag_editing = true -> check_flag e' flag_eof = false.
Proof.
  intros Hok Hinv. pose proof Hok as (Hi & He & _ & Hie & Hif & Hee).
  unfold update.
  destruct (if negb (check_flag e flag_init) then initialise e else Some e)
    as [e0|] eqn:Hinit; [|done].
  assert (Hf0 : check_flag e0 flag_editing = check_flag e flag_editing /\
                check_flag e0 flag_eof = check_flag e flag_eof).
  { destruct (check_flag e flag_init) eqn:Hfi; cbn [negb] in Hinit.
    - by injection Hinit as <-.
    - unfold initialise in Hinit. rewrite Hfi in Hinit.
      destruct (bind_backends _ _) as [b|]; [|done].
      injection Hinit as <-. by rewrite !check_set_flag_other. }
  destruct Hf0 as [Hed0 Heof0]. cbn [mbind option_bind].
  destruct (check_flag e0 flag_editing) eqn:Hed; cbn [negb].
  - destruct (read_key e0) as [e1|] eqn:Hread; [|done].
    cbn [mbind option_bind].
    destruct (dispatch m_desc e1) as [e2|] eqn:Hdisp; [|done].
    cbn [mbind option_bind].
    destruct (check_flag e2 flag_editing) eqn:Hed2; cbn [negb];
      [|intros [= <- <-]; congruence].
    assert (Heof2 : check_flag e2 flag_eof = false).
    { destruct (dispatch_fields _ _ _ Hdisp) as [_ [Hf | Hoff]]; [|congruence].
      rewrite (check_flag_ext _ _ _ Hf).
      rewrite (check_flag_ext _ _ _ (read_key_flags _ _ Hread)).
      rewrite Heof0. apply Hinv. congruence. }
    destruct (negb (is_resolved (m_bind_resolver e2))).
    + destruct (update_internal m_desc e2) as [e3|] eqn:Hui; [|done].
      cbn [mbind option_bind]. intros [= <- <-] _.
      by rewrite (check_flag_ext _ _ _ (update_internal_flags _ _ _ Hui)).
    + cbn [mbind option_bind]. by intros [= <- <-] _.
  - destruct (update_internal m_desc (begin_line m_desc e0)) as [e3|] eqn:Hui;
      [|done].
    cbn [mbind option_bind]. intros [= <- <-] _.
    rewrite (check_flag_ext _ _ _ (update_internal_flags _ _ _ Hui)).
    rewrite (check_flag_ext _ _ _ (begin_line_flags _ e0)).
    rewrite check_set_flag_other by done.
    by apply check_clear_not_flag_other.
Qed.

(** X20.  The editing flag and the eof flag are never set together: [update]
    keeps it so, from the constructor on.  [begin_line] clears the eof flag
    when it sets the editing flag, and [dispatch] sets the eof flag only
    when it ends the line. *)
Theorem no_eof_while_editing e more e' :
  flags_ok ->
  check_flag e flag_editing && check_flag e flag_eof = false ->
  update m_desc e = Some (more, e') ->
  check_flag e' flag_editing && check_flag e' flag_eof = false.
Proof.
  intros Hok Hinv Hup.
  destruct (check_flag e' flag_editing) eqn:Hed'; [|done]. cbn [andb].
  apply (editing_implies_no_eof e more e' Hok); [|done | done].
  intros Hed. by rewrite Hed in Hinv.
Qed.

(** X21.  Once a backend's [on_input] has returned the done result during
    [edit], with the eof flag clear, that call of [edit] returns [true] with
    the line of the buffer, cut to the size of [out]. *)
Theorem done_result_returns_line e e1 :
  flags_ok ->
  check_flag e flag_init = true -> check_flag e flag_editing = true ->
  check_flag e flag_eof = false ->
  read_key e = Some e1 -> is_resolved (m_bind_resolver e1) = true ->
  to_uchar (Z.land (fst (call_backend e1)) 255) = result_done ->
  result_done <> result_eof ->
  exists e',
    update m_desc e = Some (false, e') /\
    m_buffer e' = buffer_end_line (m_buffer (snd (call_backend e1))) /\
    forall fuel out_size,
      edit m_desc (S fuel) e out_size =
      Some (e', true, take (out_size - 1) (text (m_buffer e'))).
Proof.
  intros (Hi & Hed & Heof & Hie & Hif & Hef) Hinit Hediting Hnoeof Hread Hres
    Hcall Hne.
  destruct (call_backend e1) as [result e2] eqn:Hcb. cbn [fst snd] in *.
  pose proof (call_backend_flags e1) as Hf2. rewrite Hcb in Hf2. simpl in Hf2.
  pose proof (read_key_flags e e1 Hread) as Hf1.
  set (e' := end_line e2).
  assert (Hdisp : dispatch m_desc e1 = Some e').
  { unfold dispatch. rewrite Hres, Hcb. cbn [negb]. rewrite Hcall.
    destruct (Z.eqb_spec result_done result_eof); [done|].
    by rewrite Z.eqb_refl. }
  assert (Heof' : check_flag e' flag_eof = false).
  { unfold e'. rewrite (check_flag_ext _ _ _ (end_line_flags _)).
    rewrite check_clear_flag_other by done.
    rewrite (check_flag_ext e e2) by congruence. done. }
  assert (Hed' : check_flag e' flag_editing = false).
  { unfold e'. rewrite (check_flag_ext _ _ _ (end_line_flags _)).
    apply check_clear_flag. }
  assert (Hup : update m_desc e = Some (false, e')).
  { unfold update. rewrite Hinit. cbn [negb mbind option_bind].
    rewrite Hediting. cbn [negb]. rewrite Hread. cbn [mbind option_bind].
    rewrite Hdisp. cbn [mbind option_bind]. by rewrite Hed'. }
  exists e'. split; [done|]. split; [done|].
  intros fuel out_size. unfold edit. cbn [edit_loop]. rewrite Hup.
  cbn [mbind option_bind]. unfold get_line. by rewrite Hed', Heof'.
Qed.

(** *** What the driver leaves alone *)

Lemma for_backends_keys hook line backends : forall e,
  m_keys (for_backends hook line backends e) = m_keys e.
Proof.
  unfold for_backends.
  induction backends as [|backend backends IH]; intros e; simpl; [done|].
  destruct (hook backend (get_context e line) (m_world e)) as [buf w].
  by rewrite IH.
Qed.

Lemma for_backends_binder hook line backends e :
  m_binder (for_backends hook line backends e) = m_binder e.
Proof.
  by destruct (for_backends_fields hook line backends e) as (_ & _ & _ & _ & _ & ?).
Qed.

Lemma collect_words_keys e e' :
  collect_words m_desc e = Some e' -> m_keys e' = m_keys e.
Proof.
  unfold collect_words.
  destruct (find_command_bounds m_desc e) as [command_start command_length].
  destruct (add_words _ _) as [ws|]; [|done]. cbn [mbind option_bind].
  match goal with |- context [?x ≫= _] => destruct x as [ws1|]; [|done] end.
  cbn [mbind option_bind].
  destruct (last _) as [end_word|]; [|done]. cbn [mbind option_bind].
  destruct (assign_back _ _) as [ws2|]; [|done]. cbn [mbind option_bind].
  intros [= <-]. done.
Qed.

Lemma refresh_matches_keeps e w :
  m_binder (refresh_matches e w) = m_binder e /\
  m_keys (refresh_matches e w) = m_keys e.
Proof.
  unfold refresh_matches.
  destruct (negb (key_value _ _ 0 =? _)); cbv zeta;
    (destruct (negb (set_cursor_pos _ _ =? _));
       [rewrite for_backends_binder, for_backends_keys | ]; done).
Qed.

Lemma update_internal_keeps e e' :
  update_internal m_desc e = Some e' ->
  m_binder e' = m_binder e /\ m_keys e' = m_keys e.
Proof.
  intros Hup.
  destruct (update_internal_inv m_desc e e' Hup) as (ec & w & Hc & _ & -> & _).
  destruct (collect_words_fields m_desc e ec Hc) as (_ & _ & _ & _ & _ & <-).
  rewrite <- (collect_words_keys e ec Hc). apply refresh_matches_keeps.
Qed.

Lemma begin_line_keeps e :
  m_binder (begin_line m_desc e) = m_binder e /\
  m_keys (begin_line m_desc e) = [].
Proof.
  unfold begin_line. by rewrite for_backends_binder, for_backends_keys.
Qed.

Lemma accept_match_keeps e index e' :
  accept_match m_desc e index = Some e' ->
  m_binder e' = m_binder e /\ m_keys e' = m_keys e /\
  m_bind_resolver e' = m_bind_resolver e.
Proof.
  unfold accept_match. destruct (_ <=? _)%nat; [by intros [= <-]|].
  destruct (m_matches e !! index) as [[|m0 m']|]; try by intros [= <-].
  destruct (last (m_words e)) as [w|]; [|done]. cbn [mbind option_bind].
  destruct (negb _).
  - destruct (0 <=? _); [destruct (closing_quote _ _)|]; by intros [= <-].
  - by intros [= <-].
Qed.

Lemma call_backend_keeps e :
  m_binder (snd (call_backend e)) = m_binder e /\
  m_keys (snd (call_backend e)) = [] /\
  m_bind_resolver (snd (call_backend e)) = m_bind_resolver e.
Proof.
  unfold call_backend. by destruct (on_input _ _ _ _ _) as [[result buf] w].
Qed.

Lemma dispatch_keeps e e' :
  dispatch m_desc e = Some e' ->
  m_binder e' = m_binder e /\ (m_keys e' = m_keys e \/ m_keys e' = []).
Proof.
  unfold dispatch. destruct (negb _); [by intros [= <-]; auto|].
  destruct (call_backend_keeps e) as (Hb & Hk & _).
  destruct (call_backend e) as [result e2]. simpl in Hb, Hk.
  destruct (_ =? result_eof); [intros [= <-]; simpl; by auto|].
  destruct (_ =? result_done); [intros [= <-]; simpl; by auto|].
  destruct (_ =? result_accept_match).
  { destruct (accept_match m_desc e2 _) as [e3|] eqn:Hacc; [|done].
    cbn [mbind option_bind]. intros [= <-].
    destruct (accept_match_keeps _ _ _ Hacc) as (Hb3 & Hk3 & _). simpl.
    split; [congruence|]. right. congruence. }
  destruct (_ =? result_redraw); [intros [= <-]; simpl; by auto|].
  destruct (_ =? result_next); [intros [= <-]; simpl; by auto|].
  destruct (_ =? result_more_input); intros [= <-]; simpl; by auto.
Qed.

Lemma record_input_keeps e k :
  (List.length (m_keys e) <= keys_size - 1)%nat ->
  (List.length (m_keys (record_input e k)) <= keys_size - 1)%nat /\
  m_binder (record_input e k) = m_binder e.
Proof.
  intros Hlen. unfold record_input.
  destruct (Nat.ltb_spec (List.length (m_keys e)) (keys_size - 1)); [|done].
  simpl. rewrite length_app. simpl. split; [lia | done].
Qed.

Lemma read_key_keeps e e1 :
  (List.length (m_keys e) <= keys_size - 1)%nat ->
  read_key e = Some e1 ->
  (List.length (m_keys e1) <= keys_size - 1)%nat /\ m_binder e1 = m_binder e.
Proof.
  intros Hlen. unfold read_key.
  destruct (terminal_read (m_world e)) as [k w].
  destruct (record_input_keeps (with_world e w) (to_uchar k) Hlen) as [Hk Hb].
  destruct (negb _).
  - destruct (update_resolver _ _ _) as [r|]; [|done].
    cbn [mbind option_bind]. by intros [= <-].
  - by intros [= <-].
Qed.

Lemma read_key_binder e e1 : read_key e = Some e1 -> m_binder e1 = m_binder e.
Proof.
  unfold read_key. destruct (terminal_read (m_world e)) as [k w].
  assert (Hrec : forall x, m_binder (record_input x (to_uchar k)) = m_binder x).
  { intros x. unfold record_input. by destruct (_ <? _)%nat. }
  destruct (negb _).
  - destruct (update_resolver _ _ _) as [r|]; [|done].
    cbn [mbind option_bind]. intros [= <-]. simpl. by rewrite Hrec.
  - intros [= <-]. by rewrite Hrec.
Qed.

(** X22.  The recorded keys stay inside [m_keys], with room for the
    terminator [dispatch] stores after them: [update] keeps their number
    below the size of the array. *)
Theorem recorded_keys_stay_in_array e more e' :
  (List.length (m_keys e) <= keys_size - 1)%nat ->
  update m_desc e = Some (more, e') ->
  (List.length (m_keys e') <= keys_size - 1)%nat.
Proof.
  intros Hlen. unfold update.
  destruct (if negb (check_flag e flag_init) then initialise e else Some e)
    as [e0|] eqn:Hinit; [|done].
  assert (Hk0 : m_keys e0 = m_keys e).
  { destruct (negb (check_flag e flag_init)); [|by injection Hinit as <-].
    unfold initialise in Hinit. destruct (check_flag e flag_init);
      [by injection Hinit as <-|].
    destruct (bind_backends _ _) as [b|]; [|done]. by injection Hinit as <-. }
  cbn [mbind option_bind].
  destruct (negb (check_flag e0 flag_editing)).
  - destruct (update_internal m_desc (begin_line m_desc e0)) as [e3|] eqn:Hui;
      [|done].
    cbn [mbind option_bind]. intros [= _ <-].
    destruct (update_internal_keeps _ _ Hui) as [_ ->].
    destruct (begin_line_keeps e0) as [_ ->]. simpl. lia.
  - destruct (read_key e0) as [e1|] eqn:Hread; [|done].
    cbn [mbind option_bind].
    destruct (read_key_keeps e0 e1 ltac:(by rewrite Hk0) Hread) as [Hk1 _].
    destruct (dispatch m_desc e1) as [e2|] eqn:Hdisp; [|done].
    cbn [mbind option_bind].
    assert (Hk2 : (List.length (m_keys e2) <= keys_size - 1)%nat).
    { destruct (dispatch_keeps _ _ Hdisp) as [_ [-> | ->]]; [done | simpl; lia]. }
    destruct (negb (check_flag e2 flag_editing)); [by intros [= _ <-]|].
    destruct (negb (is_resolved (m_bind_resolver e2))).
    + destruct (update_internal m_desc e2) as [e3|] eqn:Hui; [|done].
      cbn [mbind option_bind]. intros [= _ <-].
      by destruct (update_internal_keeps _ _ Hui) as [_ ->].
    + cbn [mbind option_bind]. by intros [= _ <-].
Qed.

(** X23.  Chords are bound once: after [initialise] has run, [update] leaves
    the binder as it is. *)
Theorem binder_fixed_once_initialised e more e' :
  check_flag e flag_init = true ->
  update m_desc e = Some (more, e') -> m_binder e' = m_binder e.
Proof.
  intros Hinit. unfold update. rewrite Hinit. cbn [negb mbind option_bind].
  destruct (negb (check_flag e flag_editing)).
  - destruct (update_internal m_desc (begin_line m_desc e)) as [e3|] eqn:Hui;
      [|done].
    cbn [mbind option_bind]. intros [= _ <-].
    destruct (update_internal_keeps _ _ Hui) as [-> _].
    by destruct (begin_line_keeps e) as [-> _].
  - destruct (read_key e) as [e1|] eqn:Hread; [|done].
    cbn [mbind option_bind].
    destruct (dispatch m_desc e1) as [e2|] eqn:Hdisp; [|done].
    cbn [mbind option_bind].
    assert (Hb2 : m_binder e2 = m_binder e).
    { destruct (dispatch_keeps _ _ Hdisp) as [-> _].
      by apply read_key_binder. }
    destruct (negb (check_flag e2 flag_editing)); [by intros [= _ <-]|].
    destruct (negb (is_resolved (m_bind_resolver e2))).
    + destruct (update_internal m_desc e2) as [e3|] eqn:Hui; [|done].
      cbn [mbind option_bind]. intros [= _ <-].
      by destruct (update_internal_keeps _ _ Hui) as [-> _].
    + cbn [mbind option_bind]. by intros [= _ <-].
Qed.

(** X24.  The result [more_input] keeps the resolver resolved to the same
    backend, with the id the backend has chosen; the next key read is then
    recorded without a look at the binder. *)
Theorem more_input_keeps_backend e e' :
  is_resolved (m_bind_resolver e) = true ->
  to_uchar (Z.land (fst (call_backend e)) 255) = result_more_input ->
  result_more_input <> result_eof -> result_more_input <> result_done ->
  result_more_input <> result_accept_match ->
  result_more_input <> result_redraw -> result_more_input <> result_next ->
  dispatch m_desc e = Some e' ->
  m_bind_resolver e' =
    set_id (m_bind_resolver e)
           (Z.land (Z.shiftr (fst (call_backend e)) 8) 255) /\
  is_resolved (m_bind_resolver e') = true /\
  exists e1, read_key e' = Some e1 /\ m_bind_resolver e1 = m_bind_resolver e'.
Proof.
  intros Hres Hval Heof Hdone Hacc Hred Hnext. unfold dispatch.
  rewrite Hres. cbn [negb].
  destruct (call_backend_keeps e) as (_ & _ & Hr).
  destruct (call_backend e) as [result e2]. cbn [fst snd] in *.
  rewrite Hval.
  destruct (Z.eqb_spec result_more_input result_eof); [done|].
  destruct (Z.eqb_spec result_more_input result_done); [done|].
  destruct (Z.eqb_spec result_more_input result_accept_match); [done|].
  destruct (Z.eqb_spec result_more_input result_redraw); [done|].
  destruct (Z.eqb_spec result_more_input result_next); [done|].
  rewrite Z.eqb_refl. intros [= <-].
  cbn [m_bind_resolver with_resolver]. rewrite Hr.
  split; [done|]. split; [done|].
  unfold read_key. destruct (terminal_read _) as [k w].
  assert (Hrec : forall x, m_bind_resolver (record_input x (to_uchar k))
                           = m_bind_resolver x).
  { intros x. unfold record_input. by destruct (_ <? _)%nat. }
  rewrite Hrec. cbn [m_bind_resolver with_world with_resolver].
  change (is_resolved (set_id (m_bind_resolver e) _))
    with (is_resolved (m_bind_resolver e)).
  rewrite Hres. cbn [negb]. eexists. split; [done|]. by rewrite Hrec.
Qed.

(** *** A refresh that finds nothing new *)

(** The words [collect_words] finds depend on the buffer alone. *)
Lemma collect_words_buffer e1 e2 :
  m_buffer e2 = m_buffer e1 ->
  collect_words m_desc e2 =
  (fun e' => with_words (with_command_offset (with_words e2 [])
                                             (m_command_offset e'))
                        (m_words e'))
  <$> collect_words m_desc e1.
Proof.
  intros Hbuf. unfold collect_words, find_command_bounds. rewrite Hbuf.
  destruct (command_delims m_desc) as [delims|].
  - destruct (match last _ with Some t => _ | None => _ end) as [start len].
    destruct (negb _);
      (destruct (add_words _ _) as [ws|]; [|done]; cbn [mbind option_bind];
       match goal with |- context [?x ≫= _] => destruct x as [ws1|]; [|done] end;
       cbn [mbind option_bind];
       destruct (last _) as [end_word|]; [|done]; cbn [mbind option_bind];
       destruct (assign_back _ _) as [ws2|]; done).
  - destruct (add_words _ _) as [ws|]; [|done]. cbn [mbind option_bind].
    match goal with |- context [?x ≫= _] => destruct x as [ws1|]; [|done] end.
    cbn [mbind option_bind].
    destruct (last _) as [end_word|]; [|done]. cbn [mbind option_bind].
    destruct (assign_back _ _) as [ws2|]; done.
Qed.

(** X25.  A match refresh that follows another one with the buffer
    unchanged does nothing: the pipeline is not called, no backend is
    notified and the matches are those there were. *)
Theorem second_refresh_is_idle e e1 e2 :
  update_internal m_desc e = Some e1 -> m_buffer e1 = m_buffer e ->
  update_internal m_desc e1 = Some e2 ->
  m_trace e2 = m_trace e1 /\ m_matches e2 = m_matches e1 /\
  m_world e2 = m_world e1 /\ m_buffer e2 = m_buffer e1 /\
  m_prev_key e2 = m_prev_key e1.
Proof.
  intros Hup1 Hbuf Hup2.
  destruct (update_internal_inv m_desc e e1 Hup1)
    as (ec & w & Hc & Hw & He1 & Hw1).
  destruct (collect_words_fields m_desc e ec Hc) as (_ & _ & _ & Hbc & _).
  destruct (refresh_matches_spec ec w) as (Hprev & _).
  cbv zeta in Hprev. rewrite <- He1, Hbc, <- Hbuf in Hprev.
  destruct (update_internal_inv m_desc e1 e2 Hup2)
    as (ec2 & w2 & Hc2 & Hw2 & He2 & _).
  rewrite (collect_words_buffer e e1 Hbuf), Hc in Hc2.
  cbn [fmap option_fmap option_map] in Hc2. injection Hc2 as <-.
  cbn [m_words with_words] in Hw2. rewrite Hw in Hw2. injection Hw2 as <-.
  assert (He2' : e2 = with_words (with_command_offset (with_words e1 [])
                                    (m_command_offset ec)) (m_words ec)).
  { rewrite He2. unfold refresh_matches.
    cbn [m_prev_key m_buffer with_words with_command_offset].
    rewrite Hprev, !set_cursor_pos_key, !Z.eqb_refl. cbn [negb].
    cbn [m_prev_key m_buffer with_words with_command_offset].
    by rewrite Hprev, Z.eqb_refl. }
  by rewrite He2'.
Qed.
End Driver.

Section Returns.
Context `{collaborators} `{config} (m_desc : desc).
Hypothesis sentinal_outside : (nodes_size <= sentinal)%nat.

Lemma bind_chords_ok backend chords : forall b,
  wf b ->
  (forall chord id, In (chord, id) chords -> last chord <> Some ch_backslash) ->
  exists b',
    bind_chords b backend chords = Some b' /\ wf b' /\
    (m_next_node b <= m_next_node b')%nat.
Proof.
  induction chords as [|[chord id] chords IH]; intros b Hwf Hok.
  - exists b. split; [done|]. split; [done | lia].
  - cbn [bind_chords].
    destruct (BinderFacts.bind_returns sentinal_outside b chord backend id Hwf)
      as [[res b1] Hbind].
    { apply ChordMore.translate_defined. apply (Hok chord id). by left. }
    rewrite Hbind. cbn [mbind option_bind].
    destruct (BinderFacts.bind_inv sentinal_outside b chord backend id res b1
                Hwf Hbind) as [Hwf1 _].
    pose proof (BinderFacts.bind_next_mono sentinal_outside b chord backend id
                  res b1 Hwf Hbind) as Hle.
    destruct (IH b1 Hwf1) as (b' & Hb' & Hwf' & Hle').
    { intros c i Hin. apply (Hok c i). by right. }
    exists b'. split; [done|]. split; [done | lia].
Qed.

Lemma bind_backends_ok backends : forall b,
  wf b -> chords_ok ->
  exists b',
    bind_backends b backends = Some b' /\ wf b' /\
    (m_next_node b <= m_next_node b')%nat.
Proof.
  induction backends as [|backend backends IH]; intros b Hwf Hok.
  - exists b. split; [done|]. split; [done | lia].
  - cbn [bind_backends].
    destruct (bind_chords_ok backend (bind_input backend) b Hwf)
      as (b1 & Hb1 & Hwf1 & Hle1).
    { intros chord id. apply Hok. }
    rewrite Hb1. cbn [mbind option_bind].
    destruct (IH b1 Hwf1 Hok) as (b' & Hb' & Hwf' & Hle').
    exists b'. split; [done|]. split; [done | lia].
Qed.

Lemma refresh_matches_resolver e w :
  m_bind_resolver (refresh_matches e w) = m_bind_resolver e.
Proof.
  unfold refresh_matches.
  destruct (negb (key_value _ _ 0 =? _)); cbv zeta;
    (destruct (negb (set_cursor_pos _ _ =? _)); [|done];
     match goal with
     | |- context [for_backends ?hook ?l ?bs ?x] =>
         by destruct (for_backends_fields hook l bs x) as (_ & _ & _ & _ & -> & _)
     end).
Qed.

Lemma update_internal_resolver e e' :
  update_internal m_desc e = Some e' ->
  m_bind_resolver e' = m_bind_resolver e.
Proof.
  intros Hup.
  destruct (update_internal_inv m_desc e e' Hup) as (ec & w & Hc & _ & -> & _).
  destruct (collect_words_fields m_desc e ec Hc) as (_ & _ & _ & _ & <- & _).
  apply refresh_matches_resolver.
Qed.

Lemma begin_line_resolver e : m_bind_resolver (begin_line m_desc e) = reset.
Proof.
  unfold begin_line.
  match goal with
  | |- context [for_backends ?hook ?l ?bs ?x] =>
      by destruct (for_backends_fields hook l bs x) as (_ & _ & _ & _ & -> & _)
  end.
Qed.

Lemma at_node_reset b : at_node b reset.
Proof.
  right. exists root_ref. split; [unfold allocated; simpl; lia | done].
Qed.

(** [read_key] returns and leaves the binder, the words and a resolver at a
    node. *)
Lemma read_key_ok e :
  wf (m_binder e) -> at_node (m_binder e) (m_bind_resolver e) ->
  exists e1,
    read_key e = Some e1 /\ m_binder e1 = m_binder e /\
    at_node (m_binder e1) (m_bind_resolver e1).
Proof.
  intros Hwf Hat. unfold read_key.
  destruct (terminal_read (m_world e)) as [k w].
  assert (Hrec : forall x,
            m_bind_resolver (record_input x (to_uchar k)) = m_bind_resolver x /\
            m_binder (record_input x (to_uchar k)) = m_binder x).
  { intros x. unfold record_input. by destruct (_ <? _)%nat. }
  destruct (Hrec (with_world e w)) as [Hr Hb]. rewrite Hr, Hb.
  cbn [m_bind_resolver m_binder with_world].
  destruct (negb (is_resolved (m_bind_resolver e))).
  - destruct (BinderFacts.update_resolver_at_node sentinal_outside (m_binder e)
                (to_uchar k) (m_bind_resolver e) Hwf Hat) as (r' & -> & Hat').
    cbn [mbind option_bind]. eexists. split; [done|].
    cbn [m_binder m_bind_resolver with_resolver]. by rewrite Hb.
  - eexists. split; [done|]. by rewrite Hr, Hb.
Qed.

(** [dispatch] returns when there is an end word, and leaves the binder and
    a resolver at a node. *)
Lemma dispatch_ok e :
  m_words e <> [] -> at_node (m_binder e) (m_bind_resolver e) ->
  exists e',
    dispatch m_desc e = Some e' /\ m_binder e' = m_binder e /\
    at_node (m_binder e') (m_bind_resolver e').
Proof.
  intros Hw Hat. unfold dispatch.
  destruct (negb _); [by exists e|].
  destruct (call_backend_keeps e) as (Hb & _ & Hr).
  pose proof (call_backend_words e) as Hw2.
  destruct (call_backend e) as [result e2]. cbn [fst snd] in *.
  assert (Hat2 : at_node (m_binder e2) (m_bind_resolver e2))
    by (by rewrite Hb, Hr).
  destruct (_ =? result_eof).
  { eexists. split; [done|]. by cbn. }
  destruct (_ =? result_done).
  { eexists. split; [done|]. by cbn. }
  destruct (_ =? result_accept_match).
  { destruct (accept_match_Some m_desc e2 (Z.to_nat (Z.land (Z.shiftr result 8) 65535)))
      as [e3 Hacc]; [congruence|].
    rewrite Hacc. cbn [mbind option_bind].
    destruct (accept_match_keeps m_desc _ _ _ Hacc) as (Hb3 & _ & _).
    eexists. split; [done|]. cbn [m_binder m_bind_resolver with_resolver].
    split; [congruence | apply at_node_reset]. }
  destruct (_ =? result_redraw).
  { eexists. split; [done|]. cbn [m_binder m_bind_resolver with_resolver].
    split; [done | apply at_node_reset]. }
  destruct (_ =? result_next).
  { eexists. split; [done|]. cbn [m_binder m_bind_resolver with_resolver].
    split; [done | apply at_node_reset]. }
  destruct (_ =? result_more_input); eexists; (split; [done|]);
    cbn [m_binder m_bind_resolver with_resolver]; (split; [done|]); [|done].
  rewrite Hb, Hr. destruct Hat as [Hres | (p & Hp & Hi)]; [by left|].
  right. by exists p.
Qed.

(** X26.  [update] returns: with room for one word in [m_words] and no chord
    of a backend ending in a backslash, from an editor whose binder is well
    formed, whose resolver is resolved or stands at a node, and which has an
    end word while a line is edited, [update] yields a result and leaves
    such an editor.  No call of it follows a null pointer, reads the word
    list when it is empty or walks the node graph without end. *)
Theorem update_returns e :
  Z.land flag_init flag_editing = 0 -> (1 <= words_capacity)%nat ->
  chords_ok -> editor_ok e ->
  exists more e', update m_desc e = Some (more, e') /\ editor_ok e'.
Proof.
  intros Hie Hcap Hchords (Hwf & Hat & Hend).
  assert (Hinit : exists e0,
            (if negb (check_flag e flag_init) then initialise e else Some e)
              = Some e0 /\
            wf (m_binder e0) /\ at_node (m_binder e0) (m_bind_resolver e0) /\
            m_words e0 = m_words e /\
            check_flag e0 flag_editing = check_flag e flag_editing).
  { destruct (check_flag e flag_init) eqn:Hfi; cbn [negb]; [by exists e|].
    unfold initialise. rewrite Hfi.
    destruct (bind_backends_ok (m_backends e) (m_binder e) Hwf Hchords)
      as (b & -> & Hwfb & Hle).
    cbn [mbind option_bind]. eexists. split; [done|].
    cbn [m_binder m_bind_resolver m_words set_flag with_flags with_binder].
    split; [done|]. split; [by apply (BinderFacts.at_node_mono sentinal_outside (m_binder e))|].
    split; [done|]. by rewrite check_set_flag_other. }
  destruct Hinit as (e0 & Hinit & Hwf0 & Hat0 & Hw0 & Hed0).
  assert (Hresult : exists more e',
            update m_desc e = Some (more, e') /\
            wf (m_binder e') /\ at_node (m_binder e') (m_bind_resolver e')).
  { unfold update. rewrite Hinit. cbn [mbind option_bind].
    destruct (check_flag e0 flag_editing) eqn:Hed; cbn [negb].
    - destruct (read_key_ok e0 Hwf0 Hat0) as (e1 & Hread & Hb1 & Hat1).
      rewrite Hread. cbn [mbind option_bind].
      destruct (dispatch_ok e1) as (e2 & Hdisp & Hb2 & Hat2); [|done|].
      { rewrite (read_key_words _ _ Hread), Hw0. apply Hend. congruence. }
      rewrite Hdisp. cbn [mbind option_bind].
      assert (Hwf2 : wf (m_binder e2)) by (by rewrite Hb2, Hb1).
      destruct (negb (check_flag e2 flag_editing)); [by exists false, e2|].
      destruct (negb (is_resolved (m_bind_resolver e2))).
      + destruct (update_internal_Some m_desc e2 Hcap) as [e3 Hui].
        rewrite Hui. cbn [mbind option_bind]. exists true, e3.
        destruct (update_internal_keeps m_desc _ _ Hui) as [Hb3 _].
        by rewrite (update_internal_resolver _ _ Hui), Hb3.
      + cbn [mbind option_bind]. by exists true, e2.
    - destruct (update_internal_Some m_desc (begin_line m_desc e0) Hcap)
        as [e3 Hui].
      rewrite Hui. cbn [mbind option_bind]. exists true, e3.
      destruct (update_internal_keeps m_desc _ _ Hui) as [Hb3 _].
      destruct (begin_line_keeps m_desc e0) as [Hb _].
      rewrite (update_internal_resolver _ _ Hui), begin_line_resolver, Hb3, Hb.
      split; [done|]. split; [done | apply at_node_reset]. }
  destruct Hresult as (more & e' & Hup & Hwf' & Hat').
  exists more, e'. split; [done|]. split; [done|]. split; [done|].
  by apply (update_keeps_end_word m_desc e more e').
Qed.
End Returns.

End LineEditorMore.

(** * Checks on an instance *)

Module Checks.
Import Binder Resolver BinderResolve LineEditor Demo.

(** ** The binder *)

Example demo_bound_resolves :
  @advance demo_config demo_bound (c_str "a") reset =
  Some {| m_node_index := -1; m_resolved := true; m_backend := Some 10%nat;
          m_id := 7 |}.
Proof. vm_compute. reflexivity. Qed.

(** The escape [\0] makes the keys of a chord stop: [bind] of ["\0"] binds
    the root itself, which no key leads to. *)
Example bind_nul_escape_binds_root :
  usage (m_root (snd (get (false, demo_binder)
                        (@bind demo_config demo_binder (c_str "\0")
                               10%nat 7%nat)))) = node_use_bound.
Proof. vm_compute. reflexivity. Qed.

Lemma bind_extends_through_bound_node_witness :
  (@nodes_size demo_config <= @sentinal demo_config)%nat /\
  exists b1 b2,
    @bind demo_config demo_binder (c_str "a") 10%nat 1%nat = Some (true, b1) /\
    @bind demo_config b1 (c_str "ab") 10%nat 2%nat = Some (true, b2) /\
    exists r, @advance demo_config b2 (c_str "a") reset = Some r /\
              is_resolved r = false.
Proof.
  split; [simpl; lia|].
  apply (@BinderFacts.bind_extends_through_bound_node demo_config);
    [simpl; lia | reflexivity | simpl; lia | simpl; lia].
Defined.

Lemma resolver_walks_through_bound_chord_witness :
  (@nodes_size demo_config <= @sentinal demo_config)%nat /\
  exists b1 b2 r1 r2,
    @bind demo_config demo_binder (c_str "a") 10%nat 1%nat = Some (true, b1) /\
    @advance demo_config b1 (c_str "a") reset = Some r1 /\
    is_resolved r1 = true /\ Resolver.get_backend r1 = Some 10%nat /\
    get_id r1 = 1 /\
    @bind demo_config b1 (c_str "ab") 10%nat 2%nat = Some (true, b2) /\
    @advance demo_config b2 (c_str "a") reset = Some r2 /\
    is_resolved r2 = false /\ Resolver.get_backend r2 = None /\
    get_id r2 = -1.
Proof.
  split; [simpl; lia|].
  apply (@BinderFacts.resolver_walks_through_bound_chord demo_config);
    [simpl; lia | reflexivity | simpl; lia | simpl; lia].
Defined.



(** ** The words and the matches *)

Lemma collect_words_leaves_end_word_witness :
  (1 <= @words_capacity demo_collaborators)%nat /\
  exists e' end_word,
    @collect_words demo_collaborators demo_desc (demo_editing (c_str "dir fo"))
      = Some e' /\
    m_words e' <> [] /\ last (m_words e') = Some end_word /\
    Z.of_nat (offset end_word) < 2 ^ 16 /\
    Z.of_nat (length end_word) < 2 ^ 16.
Proof.
  split; [simpl; lia|].
  apply (@LineEditorFacts.collect_words_leaves_end_word demo_collaborators).
  simpl. lia.
Defined.

(** The word fields hold 16 bits: on a line of 65540 spaces and ["a/b"],
    with the cursor at its end, the word of the token at 65540 is stored
    with the offset 4; it ends before the cursor, so that the empty word at
    the cursor follows it, stored with the offset 7. *)
Example collect_words_long_line :
  m_words <$> @collect_words demo_collaborators demo_desc
                (demo_editing (replicate (Z.to_nat 65540) 32 ++ c_str "a/b"))
  = Some [{| offset := 4; length := 3; quoted := false; delim := 0 |};
          {| offset := 7; length := 0; quoted := false; delim := 0 |}].
Proof. vm_compute. reflexivity. Qed.

(** The first scenario of the specification: accepting ["foobar"] for
    ["foo"] gives ["foobar "], with the cursor at 7. *)
Example accept_foobar :
  m_buffer <$> @accept_match demo_collaborators demo_desc demo_foo 0
  = Some {| text := c_str "foobar "; cursor := 7 |}.
Proof. vm_compute. reflexivity. Qed.

(** The second scenario: the end word of ["c:/usr/loc"] is cut after its
    last partial delimiter, and accepting ["local/"], which ends in one,
    adds no space. *)
Example accept_partial_path :
  last (m_words demo_path)
    = Some {| offset := 0; length := 7; quoted := false; delim := 0 |} /\
  m_buffer <$> @accept_match demo_collaborators demo_desc demo_path 0
    = Some {| text := c_str "c:/usr/local/"; cursor := 13 |}.
Proof. split; vm_compute; reflexivity. Qed.

(** After an opening quote the closing quote comes before the space. *)
Example accept_quoted :
  last (m_words demo_quoted)
    = Some {| offset := 1; length := 0; quoted := true; delim := 0 |} /\
  m_buffer <$> @accept_match demo_collaborators demo_desc demo_quoted 0
    = Some {| text := 34 :: c_str "foo bar" ++ [34; 32]; cursor := 10 |}.
Proof. split; vm_compute; reflexivity. Qed.

Lemma accept_match_trailing_space_witness :
  let e := demo_foo in
  let w := {| offset := 0; length := 0; quoted := false; delim := 0 |} in
  let mtch := c_str "foobar" in
  exists e',
    @accept_match demo_collaborators demo_desc e 0 = Some e' /\
    let before := take (offset w) (text (m_buffer e)) in
    let after := drop (cursor (m_buffer e)) (text (m_buffer e)) in
    let wd := applied_word e w mtch in
    let quote := closing_before demo_desc e w in
    (~ In (List.last mtch 0) (partial_delims demo_desc) ->
     text (m_buffer e') = before ++ wd ++ quote ++ [32] ++ after /\
     cursor (m_buffer e') =
       (offset w + List.length wd + List.length quote + 1)%nat) /\
    (In (List.last mtch 0) (partial_delims demo_desc) ->
     text (m_buffer e') = before ++ wd ++ after /\
     cursor (m_buffer e') = (offset w + List.length wd)%nat) /\
    m_trace e' =
      m_trace e
      ++ [ev_remove (offset w) (cursor (m_buffer e));
          ev_set_cursor (offset w); ev_insert wd]
      ++ (if strchr_found (partial_delims demo_desc) (List.last mtch 0)
          then []
          else match closing_insert demo_desc e w with
               | Some q => [ev_insert q]
               | None => []
               end ++ [ev_insert [32]]) /\
    (forall o c,
       quote_pair demo_desc = [o; c] -> o <> 0 -> c <> 0 ->
       (0 < offset w)%nat ->
       char_at (text (m_buffer e)) (offset w - 1) = o -> quote = [c]) /\
    (forall o,
       quote_pair demo_desc = [o] -> o <> 0 -> (0 < offset w)%nat ->
       char_at (text (m_buffer e)) (offset w - 1) = o -> quote = [o]).
Proof.
  apply (@LineEditorFacts.accept_match_trailing_space demo_collaborators
           demo_desc demo_foo 0 (c_str "foobar")).
  - vm_compute. reflexivity.
  - discriminate.
  - vm_compute. discriminate.
  - vm_compute. reflexivity.
  - vm_compute. lia.
Defined.

(** C6 as it is written does not hold: the offset of the end word goes from
    0, on the empty line, to 2048, on a line of 2048 spaces with the cursor
    at its end, and the generators are not invoked again. *)
Lemma regeneration_key_counterexample :
  let w1 := {| offset := 0; length := 0; quoted := false; delim := 0 |} in
  let w2 := {| offset := 2048; length := 0; quoted := false; delim := 0 |} in
  @update_internal demo_collaborators demo_desc (demo_editing [])
    = Some demo_run1 /\
  last (m_words demo_run1) = Some w1 /\
  m_prev_key demo_before_run2 = m_prev_key demo_run1 /\
  @update_internal demo_collaborators demo_desc demo_before_run2
    = Some demo_run2 /\
  last (m_words demo_run2) = Some w2 /\
  offset w2 <> offset w1 /\
  generated demo_before_run2 demo_run2 = false.
Proof.
  cbv zeta. split; [vm_compute; reflexivity|].
  split; [vm_compute; reflexivity|]. split; [vm_compute; reflexivity|].
  split; [vm_compute; reflexivity|]. split; [vm_compute; reflexivity|].
  split; [vm_compute; discriminate|]. vm_compute. reflexivity.
Qed.

Lemma generators_rerun_iff_key_fields_change_witness :
  let w1 := {| offset := 0; length := 0; quoted := false; delim := 0 |} in
  let w2 := {| offset := 2048; length := 0; quoted := false; delim := 0 |} in
  generated demo_before_run2 demo_run2 = true <->
  ~ (Z.of_nat (offset w2) mod 2 ^ 11 = Z.of_nat (offset w1) mod 2 ^ 11 /\
     Z.of_nat (length w2) mod 2 ^ 10 = Z.of_nat (length w1) mod 2 ^ 10).
Proof.
  cbv zeta.
  refine (@LineEditorFacts.generators_rerun_iff_key_fields_change
            demo_collaborators demo_desc (demo_editing []) demo_run1
            demo_before_run2 demo_run2
            {| offset := 0; length := 0; quoted := false; delim := 0 |}
            {| offset := 2048; length := 0; quoted := false; delim := 0 |}
            _ _ _ _ _).
  - vm_compute. reflexivity.
  - vm_compute. reflexivity.
  - vm_compute. reflexivity.
  - vm_compute. reflexivity.
  - vm_compute. reflexivity.
Defined.

(** ** The driver *)

(** C8 as it is written does not hold: after the [edit] that ended with eof
    and returned [false], a second [edit] begins a new line, reads a key,
    hands it to the backend and returns [true], with the eof flag
    cleared. *)
Lemma eof_not_latched_counterexample :
  exists e1 e2 line,
    @edit demo_collaborators demo_config demo_desc 3 demo_editor 64
      = Some (e1, false, []) /\
    @check_flag demo_collaborators e1 4 = true /\
    @get_line demo_collaborators e1 64 = (e1, false, []) /\
    @edit demo_collaborators demo_config demo_desc 3 e1 64
      = Some (e2, true, line) /\
    @check_flag demo_collaborators e2 4 = false /\
    m_world e2 = 2%nat.
Proof.
  eexists _, _, _. split; [vm_compute; reflexivity|].
  split; [vm_compute; reflexivity|]. split; [vm_compute; reflexivity|].
  split; [vm_compute; reflexivity|]. split; vm_compute; reflexivity.
Qed.

Lemma eof_result_ends_edit_witness :
  @flags_ok demo_collaborators /\
  exists e',
    @update demo_collaborators demo_config demo_desc demo_started
      = Some (false, e') /\
    @check_flag demo_collaborators e' 4 = true /\
    @check_flag demo_collaborators e' 2 = false /\
    (forall fuel out_size,
       @edit demo_collaborators demo_config demo_desc (S fuel) demo_started
             out_size = Some (e', false, [])) /\
    (forall out_size,
       @get_line demo_collaborators e' out_size = (e', false, [])) /\
    exists e'',
      @update demo_collaborators demo_config demo_desc e' = Some (true, e'') /\
      @check_flag demo_collaborators e'' 2 = true /\
      @check_flag demo_collaborators e'' 4 = false.
Proof.
  assert (Hflags : @flags_ok demo_collaborators)
    by (unfold flags_ok; simpl; repeat split; lia).
  split; [exact Hflags|].
  apply (@LineEditorFacts.eof_result_ends_edit demo_collaborators demo_config
           demo_desc demo_started
           (get demo_started (@read_key demo_collaborators demo_config
                                        demo_started))).
  - exact Hflags.
  - simpl. lia.
  - vm_compute. reflexivity.
  - vm_compute. reflexivity.
  - vm_compute. reflexivity.
  - vm_compute. reflexivity.
  - vm_compute. reflexivity.
Defined.
End Checks.

(** * More checks on the instance *)

Module ChecksMore.
Import Binder Resolver BinderResolve LineEditor Demo.

(** ** The binder *)

Lemma demo_outside : (@nodes_size demo_config <= @sentinal demo_config)%nat.
Proof. simpl. lia. Defined.

Lemma small_outside : (@nodes_size small_config <= @sentinal small_config)%nat.
Proof. simpl. lia. Defined.

Lemma demo_binder_reachable : @reachable demo_config demo_binder.
Proof. apply (@reachable_init demo_config). reflexivity. Qed.

Lemma demo_bound_reachable : @reachable demo_config demo_bound.
Proof.
  apply (@reachable_bind demo_config demo_binder (c_str "a") 10%nat 7%nat
           true demo_bound demo_binder_reachable).
  vm_compute. reflexivity.
Qed.

Lemma demo_ab_reachable : @reachable demo_config demo_ab.
Proof.
  apply (@reachable_bind demo_config demo_binder (c_str "ab") 10%nat 7%nat
           true demo_ab demo_binder_reachable).
  vm_compute. reflexivity.
Qed.

Lemma demo_full_reachable : @reachable small_config demo_full.
Proof.
  apply (@reachable_bind small_config (@binder_init small_config [zero_node])
           (c_str "a") 10%nat 7%nat true demo_full).
  - apply (@reachable_init small_config). reflexivity.
  - vm_compute. reflexivity.
Qed.

Lemma demo_bound_is_bound : @bound_to demo_config demo_bound [97] 10%nat 7%nat.
Proof.
  exists (arena_ref 0),
         {| key := 97; sibling := 127; usage := node_use_bound;
            id_or_child := 7; backend := 0 |}.
  split; [exists 0%nat; split; [vm_compute; reflexivity | reflexivity]|].
  split; [vm_compute; reflexivity|]. split; [reflexivity|].
  split; [reflexivity|]. vm_compute. reflexivity.
Qed.

Lemma demo_ab_is_bound : @bound_to demo_config demo_ab [97; 98] 10%nat 7%nat.
Proof.
  exists (arena_ref 1),
         {| key := 98; sibling := 127; usage := node_use_bound;
            id_or_child := 7; backend := 0 |}.
  split.
  { exists 0%nat. split; [vm_compute; reflexivity|].
    exists 1%nat. split; [vm_compute; reflexivity | reflexivity]. }
  split; [vm_compute; reflexivity|]. split; [reflexivity|].
  split; [reflexivity|]. vm_compute. reflexivity.
Qed.

Lemma bind_true_binds_witness :
  @bound_to demo_config demo_bound [97] 10%nat 7%nat.
Proof.
  apply (@BinderFacts.bind_true_binds demo_config demo_outside demo_binder
           (c_str "a") 10%nat 7%nat demo_bound [97]).
  - apply (@BinderFacts.reachable_wf demo_config demo_outside).
    exact demo_binder_reachable.
  - vm_compute. reflexivity.
  - reflexivity.
Defined.

Lemma bound_chord_resolves_witness :
  exists r,
    @advance demo_config demo_bound [97] reset = Some r /\
    is_resolved r = true /\
    Resolver.get_backend r = Some 10%nat /\ get_id r = 7.
Proof.
  apply (@BinderFacts.bound_chord_resolves demo_config demo_outside demo_bound
           [97] 10%nat 7%nat).
  - apply (@BinderFacts.reachable_wf demo_config demo_outside).
    exact demo_bound_reachable.
  - discriminate.
  - exact demo_bound_is_bound.
Defined.

(** After the key ['a'] of the chord ["ab"] the resolver holds the index 0,
    the one of the node of ['a']. *)
Example demo_ab_prefix_index :
  @advance demo_config demo_ab [97] reset =
  Some {| m_node_index := 0; m_resolved := false; m_backend := None;
          m_id := -1 |}.
Proof. vm_compute. reflexivity. Qed.

Lemma bound_chord_prefix_walks_witness :
  exists m,
    @path demo_config demo_ab root_ref [97] m /\
    ([97] <> [] -> exists i, m = arena_ref i) /\
    @advance demo_config demo_ab [97] reset =
      Some {| m_node_index := index_at m; m_resolved := false;
              m_backend := None; m_id := -1 |} /\
    exists r,
      @advance demo_config demo_ab [98]
        {| m_node_index := index_at m; m_resolved := false;
           m_backend := None; m_id := -1 |} = Some r /\
      is_resolved r = true /\
      Resolver.get_backend r = Some 10%nat /\ get_id r = 7.
Proof.
  apply (@BinderFacts.bound_chord_prefix_walks demo_config demo_outside
           demo_ab [97] 98 [] 10%nat 7%nat).
  - apply (@BinderFacts.reachable_wf demo_config demo_outside).
    exact demo_ab_reachable.
  - exact demo_ab_is_bound.
Defined.

Lemma bind_prefix_of_bound_chord_fails_witness :
  exists b',
    @bind demo_config demo_ab (c_str "a") 11%nat 8%nat = Some (false, b') /\
    same_graph demo_ab b'.
Proof.
  apply (@BinderFacts.bind_prefix_of_bound_chord_fails demo_config
           demo_outside demo_ab [97] 98 [] 10%nat 7%nat (c_str "a")
           11%nat 8%nat).
  - apply (@BinderFacts.reachable_wf demo_config demo_outside).
    exact demo_ab_reachable.
  - exact demo_ab_is_bound.
  - reflexivity.
Defined.

Lemma update_resolver_returns_witness :
  exists r',
    @update_resolver demo_config demo_bound 98 reset = Some r' /\
    at_node demo_bound r'.
Proof.
  apply (@BinderFacts.update_resolver_returns demo_config demo_outside
           demo_bound 98 reset).
  - apply (@BinderFacts.reachable_wf demo_config demo_outside).
    exact demo_bound_reachable.
  - right. exists root_ref. split; [unfold allocated; simpl; lia | reflexivity].
Defined.

Lemma bind_fails_when_arena_full_witness :
  exists b',
    @bind small_config demo_full (c_str "b") 10%nat 8%nat = Some (false, b') /\
    same_graph demo_full b'.
Proof.
  apply (@BinderFacts.bind_fails_when_arena_full small_config small_outside
           demo_full (c_str "b") [98] 10%nat 8%nat).
  - apply (@BinderFacts.reachable_wf small_config small_outside).
    exact demo_full_reachable.
  - reflexivity.
  - reflexivity.
  - intros f (c & Hfind & _). vm_compute in Hfind. discriminate.
Defined.

Lemma add_backend_idempotent_witness :
  let b1 := fst (@add_backend demo_config demo_binder 11%nat) in
  @add_backend demo_config b1 11%nat = (b1, 0) /\
  Binder.get_backend b1 (Z.to_nat 0) = Some 11%nat.
Proof.
  cbv zeta.
  apply (@BinderFacts.add_backend_idempotent demo_config demo_outside
           demo_binder 11%nat
           (fst (@add_backend demo_config demo_binder 11%nat)) 0).
  - vm_compute. reflexivity.
  - lia.
Defined.

Lemma bind_returns_unless_trailing_backslash_witness :
  is_Some (@bind demo_config demo_bound (c_str "\e[A") 10%nat 3%nat).
Proof.
  apply (@BinderFacts.bind_returns_unless_trailing_backslash demo_config
           demo_outside demo_bound (c_str "\e[A") 10%nat 3%nat).
  - apply (@BinderFacts.reachable_wf demo_config demo_outside).
    exact demo_bound_reachable.
  - vm_compute. discriminate.
Defined.

Lemma later_bind_keeps_binding_witness :
  @bound_to demo_config
    (snd (get (false, demo_bound)
            (@bind demo_config demo_bound (c_str "b") 11%nat 8%nat)))
    [97] 10%nat 7%nat.
Proof.
  apply (@BinderFacts.later_bind_keeps_binding demo_config demo_outside
           demo_bound [97] 10%nat 7%nat (c_str "b") 11%nat 8%nat true).
  - apply (@BinderFacts.reachable_wf demo_config demo_outside).
    exact demo_bound_reachable.
  - exact demo_bound_is_bound.
  - vm_compute. reflexivity.
  - intros k more Ht. vm_compute in Ht. discriminate.
Defined.

Lemma non_ascii_key_never_matches_witness :
  exists r',
    @update_resolver demo_config demo_bound 200 reset = Some r' /\
    is_resolved r' = true /\
    Resolver.get_backend r' = None /\ get_id r' = -1.
Proof.
  apply (@BinderFacts.non_ascii_key_never_matches demo_config demo_outside
           demo_bound 200 reset).
  - exact demo_bound_reachable.
  - right. exists root_ref. split; [unfold allocated; simpl; lia | reflexivity].
  - lia.
Defined.

(** ** The line editor *)


(** When the last token ends at the cursor it is the command. *)
Example command_is_last_token :
  @find_command_bounds demo_collaborators demo_cmd_desc
    (demo_editing (c_str "foo&bar")) = (4%nat, 3%nat).
Proof. vm_compute. reflexivity. Qed.

(** The second scenario of the specification: the last word of
    ["c:/usr/loc"] is cut to ["c:/usr/"], after the last of its partial
    delimiters. *)
Lemma end_word_cut_after_last_partial_delimiter_witness :
  let e := demo_editing (c_str "c:/usr/loc") in
  let w := {| offset := 0; length := 7; quoted := false; delim := 0 |} in
  let ew := @uncut_end_word demo_collaborators demo_desc e in
  offset w = offset ew /\ quoted w = quoted ew /\ delim w = delim ew /\
  (length w <= length ew)%nat /\
  (length w = 0%nat \/
   strchr_found (partial_delims demo_desc)
     (char_at (text (m_buffer e)) (offset w + (length w - 1))) = true) /\
  forall j, (length w <= j < length ew)%nat ->
    strchr_found (partial_delims demo_desc)
      (char_at (text (m_buffer e)) (offset w + j)) = false.
Proof.
  cbv zeta.
  apply (@LineEditorMore.end_word_cut_after_last_partial_delimiter
           demo_collaborators demo_desc (demo_editing (c_str "c:/usr/loc"))
           (get demo_editor
              (@collect_words demo_collaborators demo_desc
                 (demo_editing (c_str "c:/usr/loc"))))
           {| offset := 0; length := 7; quoted := false; delim := 0 |}).
  - simpl. lia.
  - vm_compute. reflexivity.
  - vm_compute. reflexivity.
Defined.

Example uncut_end_word_of_path :
  @uncut_end_word demo_collaborators demo_desc
    (demo_editing (c_str "c:/usr/loc"))
  = {| offset := 0; length := 10; quoted := false; delim := 0 |}.
Proof. vm_compute. reflexivity. Qed.

Lemma get_line_ends_line_witness :
  let r := @get_line demo_collaborators demo_started 64 in
  @check_flag demo_collaborators (fst (fst r)) 2 = false /\
  snd (fst r) = negb (@check_flag demo_collaborators demo_started 4).
Proof.
  apply (@LineEditorMore.get_line_ends_line demo_collaborators demo_started 64).
  reflexivity.
Defined.

Lemma update_returns_editing_witness :
  @check_flag demo_collaborators demo_started 2 = true /\
  @check_flag demo_collaborators demo_started 1 = true.
Proof.
  apply (@LineEditorMore.update_returns_editing demo_collaborators demo_config
           demo_desc demo_editor true demo_started).
  - unfold flags_ok. simpl. repeat split; lia.
  - vm_compute. reflexivity.
Defined.

(** The flags along the driver: the first [update] sets the editing flag;
    the second, which reads a key that the backend answers with eof, sets
    the eof flag and clears the editing flag; the third begins a new line,
    which clears the eof flag and sets the editing flag. *)
Example flags_along_edit :
  (@check_flag demo_collaborators demo_started 2,
   @check_flag demo_collaborators demo_started 4) = (true, false) /\
  (@check_flag demo_collaborators demo_eof_ended 2,
   @check_flag demo_collaborators demo_eof_ended 4) = (false, true) /\
  (@check_flag demo_collaborators demo_second_line 2,
   @check_flag demo_collaborators demo_second_line 4) = (true, false).
Proof. split; [|split]; vm_compute; reflexivity. Qed.

Lemma no_eof_while_editing_witness :
  (* dispatch sets the eof flag and ends the line *)
  @check_flag demo_collaborators demo_eof_ended 2
    && @check_flag demo_collaborators demo_eof_ended 4 = false /\
  (* begin_line clears the eof flag and sets the editing flag *)
  @check_flag demo_collaborators demo_second_line 2
    && @check_flag demo_collaborators demo_second_line 4 = false /\
  (* a key is read and dispatched, and the line goes on *)
  (let e' := snd (get (false, demo_latched)
                    (@update demo_more_collaborators demo_config demo_desc
                             demo_latched)) in
   @check_flag demo_more_collaborators e' 2
     && @check_flag demo_more_collaborators e' 4 = false).
Proof.
  assert (Hflags : @flags_ok demo_collaborators)
    by (unfold flags_ok; simpl; repeat split; lia).
  assert (Hflags' : @flags_ok demo_more_collaborators)
    by (unfold flags_ok; simpl; repeat split; lia).
  split; [|split].
  - apply (@LineEditorMore.no_eof_while_editing demo_collaborators demo_config
             demo_desc demo_started false demo_eof_ended Hflags).
    + vm_compute. reflexivity.
    + vm_compute. reflexivity.
  - apply (@LineEditorMore.no_eof_while_editing demo_collaborators demo_config
             demo_desc demo_eof_ended true demo_second_line Hflags).
    + vm_compute. reflexivity.
    + vm_compute. reflexivity.
  - cbv zeta.
    apply (@LineEditorMore.no_eof_while_editing demo_more_collaborators
             demo_config demo_desc demo_latched true _ Hflags').
    + vm_compute. reflexivity.
    + vm_compute. reflexivity.
Defined.

Lemma done_result_returns_line_witness :
  exists e',
    @update demo_collaborators demo_config demo_desc demo_second_line
      = Some (false, e') /\
    m_buffer e' =
      @buffer_end_line demo_collaborators
        (m_buffer (snd (@call_backend demo_collaborators
                          (get demo_second_line
                             (@read_key demo_collaborators demo_config
                                        demo_second_line))))) /\
    forall fuel out_size,
      @edit demo_collaborators demo_config demo_desc (S fuel)
            demo_second_line out_size =
      Some (e', true, take (out_size - 1) (text (m_buffer e'))).
Proof.
  apply (@LineEditorMore.done_result_returns_line demo_collaborators
           demo_config demo_desc demo_second_line
           (get demo_second_line
              (@read_key demo_collaborators demo_config demo_second_line))).
  - unfold flags_ok. simpl. repeat split; lia.
  - vm_compute. reflexivity.
  - vm_compute. reflexivity.
  - vm_compute. reflexivity.
  - vm_compute. reflexivity.
  - vm_compute. reflexivity.
  - vm_compute. reflexivity.
  - discriminate.
Defined.

(** With seven keys recorded in the eight bytes of [m_keys], the key read
    next is walked through the binder but not recorded; a key that resolves
    is recorded, handed to the backend with those before it, and the keys
    are cleared. *)
Example eighth_key_not_recorded :
  (m_keys <$> (snd <$> @update demo_collaborators demo_config demo_desc
                         demo_keys_full)) = Some (replicate 7 97) /\
  (m_bind_resolver <$> (snd <$> @update demo_collaborators demo_config
                                  demo_desc demo_keys_full))
    = Some (set_node_index reset 7) /\
  m_keys <$> @read_key demo_more_collaborators demo_config demo_latched
    = Some [97; 97] /\
  (m_keys <$> (snd <$> @update demo_more_collaborators demo_config demo_desc
                         demo_latched)) = Some [].
Proof. repeat split; vm_compute; reflexivity. Qed.

Lemma recorded_keys_stay_in_array_witness :
  (Datatypes.length
     (m_keys (snd (get (false, demo_keys_full)
                     (@update demo_collaborators demo_config demo_desc
                              demo_keys_full)))) <= 8 - 1)%nat /\
  (Datatypes.length
     (m_keys (snd (get (false, demo_latched)
                     (@update demo_more_collaborators demo_config demo_desc
                              demo_latched)))) <= 8 - 1)%nat.
Proof.
  split.
  - apply (@LineEditorMore.recorded_keys_stay_in_array demo_collaborators
             demo_config demo_desc demo_keys_full true).
    + vm_compute. lia.
    + vm_compute. reflexivity.
  - apply (@LineEditorMore.recorded_keys_stay_in_array demo_more_collaborators
             demo_config demo_desc demo_latched true).
    + vm_compute. lia.
    + vm_compute. reflexivity.
Defined.

Lemma binder_fixed_once_initialised_witness :
  m_binder (snd (get (false, demo_editor)
                   (@update demo_collaborators demo_config demo_desc
                            demo_started)))
  = m_binder demo_started.
Proof.
  apply (@LineEditorMore.binder_fixed_once_initialised demo_collaborators
           demo_config demo_desc demo_started false).
  - vm_compute. reflexivity.
  - vm_compute. reflexivity.
Defined.

Lemma more_input_keeps_backend_witness :
  let e' := get demo_latched
              (@dispatch demo_more_collaborators demo_desc demo_latched) in
  m_bind_resolver e' =
    set_id (m_bind_resolver demo_latched)
      (Z.land (Z.shiftr (fst (@call_backend demo_more_collaborators
                                demo_latched)) 8) 255) /\
  is_resolved (m_bind_resolver e') = true /\
  exists e1,
    @read_key demo_more_collaborators demo_config e' = Some e1 /\
    m_bind_resolver e1 = m_bind_resolver e'.
Proof.
  cbv zeta.
  apply (@LineEditorMore.more_input_keeps_backend demo_more_collaborators
           demo_config demo_desc demo_latched).
  - reflexivity.
  - vm_compute. reflexivity.
  - discriminate.
  - discriminate.
  - discriminate.
  - discriminate.
  - discriminate.
  - vm_compute. reflexivity.
Defined.

Lemma second_refresh_is_idle_witness :
  let e2 := get demo_editor
              (@update_internal demo_collaborators demo_desc demo_foo) in
  m_trace e2 = m_trace demo_foo /\ m_matches e2 = m_matches demo_foo /\
  m_world e2 = m_world demo_foo /\ m_buffer e2 = m_buffer demo_foo /\
  m_prev_key e2 = m_prev_key demo_foo.
Proof.
  cbv zeta.
  apply (@LineEditorMore.second_refresh_is_idle demo_collaborators demo_desc
           (demo_editing (c_str "foo")) demo_foo).
  - vm_compute. reflexivity.
  - vm_compute. reflexivity.
  - vm_compute. reflexivity.
Defined.
(** The first [update] of an editor whose backend binds ["a"]: [initialise]
    binds the chord.  The second reads the key ['a'], which resolves to the
    backend and the id 7; the backend answers by accepting the first match,
    the buffer becomes ["foobar "] and the matches are refreshed. *)
Example accept_along_update :
  @bound_to demo_config (m_binder demo_accept_started) [97] 0%nat 7%nat /\
  (m_buffer <$> (snd <$> @update demo_accept_collaborators demo_config
                           demo_desc demo_accept_started))
    = Some {| text := c_str "foobar "; cursor := 7 |} /\
  (m_trace <$> (snd <$> @update demo_accept_collaborators demo_config
                          demo_desc demo_accept_started))
    = Some (m_trace demo_accept_started
            ++ [ev_remove 0 0; ev_set_cursor 0; ev_insert (c_str "foobar");
                ev_insert [32]; ev_reset;
                ev_generate
                  {| ls_line := c_str "foobar "; ls_cursor := 7;
                     ls_command_offset := 0;
                     ls_words :=
                       [{| offset := 0; length := 6; quoted := false;
                           delim := 32 |};
                        {| offset := 7; length := 0; quoted := false;
                           delim := 0 |}] |};
                ev_fill_info; ev_select []; ev_sort; ev_matches_changed]).
Proof.
  split; [|split; vm_compute; reflexivity].
  exists (arena_ref 0),
         {| key := 97; sibling := 127; usage := node_use_bound;
            id_or_child := 7; backend := 0 |}.
  split; [exists 0%nat; split; [vm_compute; reflexivity | reflexivity]|].
  split; [vm_compute; reflexivity|]. split; [reflexivity|].
  split; [reflexivity|]. vm_compute. reflexivity.
Qed.

Lemma demo_accept_chords : @chords_ok demo_accept_collaborators.
Proof.
  intros backend chord id [[= <- <-] | []]. vm_compute. discriminate.
Qed.

Lemma demo_accept_started_ok :
  @editor_ok demo_accept_collaborators demo_config demo_accept_started.
Proof.
  split; [|split].
  - apply (@BinderFacts.reachable_wf demo_config demo_outside).
    apply (@reachable_bind demo_config demo_binder (c_str "a") 0%nat 7%nat
             true (m_binder demo_accept_started) demo_binder_reachable).
    vm_compute. reflexivity.
  - right. exists root_ref.
    split; [unfold allocated; cbn [ord]; lia | vm_compute; reflexivity].
  - intros _. vm_compute. discriminate.
Qed.

Lemma update_returns_witness :
  (* initialise binds the chord of the backend, and the line begins *)
  (exists more e',
     @update demo_accept_collaborators demo_config demo_desc
             demo_accept_editor = Some (more, e') /\
     @editor_ok demo_accept_collaborators demo_config e') /\
  (* a key is read, resolved and dispatched, and a match is accepted *)
  (exists more e',
     @update demo_accept_collaborators demo_config demo_desc
             demo_accept_started = Some (more, e') /\
     @editor_ok demo_accept_collaborators demo_config e').
Proof.
  split.
  - apply (@LineEditorMore.update_returns demo_accept_collaborators
             demo_config demo_desc demo_outside demo_accept_editor).
    + reflexivity.
    + simpl. lia.
    + exact demo_accept_chords.
    + split; [|split].
      * apply (@BinderFacts.reachable_wf demo_config demo_outside).
        exact demo_binder_reachable.
      * right. exists root_ref.
        split; [unfold allocated; simpl; lia | reflexivity].
      * intros Hed. vm_compute in Hed. discriminate.
  - apply (@LineEditorMore.update_returns demo_accept_collaborators
             demo_config demo_desc demo_outside demo_accept_started).
    + reflexivity.
    + simpl. lia.
    + exact demo_accept_chords.
    + exact demo_accept_started_ok.
Defined.
End ChecksMore.
